(** * music21.braille.basic: a shallow embedding of the braille encoders

    The development follows [music21/braille/basic.py].  Python values are
    modelled as the code has them: unicode strings are lists of code
    points, dictionaries with literal string keys are [gmap]s, exceptions
    are an explicit result type, and every attribute the encoders write on
    a host object is a field of the record that stands for that object. *)

From Stdlib Require Import ZArith NArith List String Ascii Lia Bool.
From Stdlib Require Import Sorting.Sorted Sorting.Permutation.
From Stdlib Require DecimalZ DecimalPos.
From stdpp Require Import base gmap strings list fin_maps.

Local Open Scope Z_scope.

(** ** Python values *)

(** A unicode string is a sequence of code points. *)
Definition cell := N.
Definition ustr := list N.

(** The exceptions that occur in [basic.py]. *)
Inductive exn :=
| KeyError
| IndexError
| AttributeError
| BrailleBasicException.

Inductive result (A : Type) :=
| Ok (a : A)
| Raise (e : exn).
Arguments Ok {A} a.
Arguments Raise {A} e.

Definition exn_eqb (a b : exn) : bool :=
  match a, b with
  | KeyError, KeyError | IndexError, IndexError
  | AttributeError, AttributeError
  | BrailleBasicException, BrailleBasicException => true
  | _, _ => false
  end.

Definition rbind {A B} (r : result A) (k : A -> result B) : result B :=
  match r with
  | Ok a => k a
  | Raise e => Raise e
  end.

(** [d[k]] on a table: a missing key raises [KeyError]. *)
Definition getitem {A} (o : option A) : result A :=
  match o with
  | Some a => Ok a
  | None => Raise KeyError
  end.

(** [try: r except e: h]. *)
Definition try_except {A} (r : result A) (e : exn) (h : result A) : result A :=
  match r with
  | Ok a => Ok a
  | Raise e' => if exn_eqb e' e then h else Raise e'
  end.

Module PyNotations.
Notation "x <- r ;; k" := (rbind r (fun x => k))
  (at level 100, r at next level, right associativity).
End PyNotations.
Import PyNotations.

(** Statements that mutate objects run in a state-and-exception monad:
    a mutation made before an exception is raised stays made. *)
Definition SM (S A : Type) := S -> S * result A.

Definition sret {S A} (a : A) : SM S A := fun s => (s, Ok a).

Definition sbind {S A B} (m : SM S A) (k : A -> SM S B) : SM S B :=
  fun s => match m s with
           | (s', Ok a) => k a s'
           | (s', Raise e) => (s', Raise e)
           end.

Definition slift {S A} (r : result A) : SM S A := fun s => (s, r).

Definition sget {S} : SM S S := fun s => (s, Ok s).

Definition smodify {S} (f : S -> S) : SM S unit := fun s => (f s, Ok tt).

(** [try: m except e: h]. *)
Definition scatch {S A} (m : SM S A) (e : exn) (h : SM S A) : SM S A :=
  fun s => match m s with
           | (s', Ok a) => (s', Ok a)
           | (s', Raise e') => if exn_eqb e' e then h s' else (s', Raise e')
           end.

Module SMNotations.
Notation "x <~ m ;; k" := (sbind m (fun x => k))
  (at level 100, m at next level, right associativity).
Notation "m >>> k" := (sbind m (fun _ => k))
  (at level 100, right associativity).
End SMNotations.
Import SMNotations.

Fixpoint sforM {S A} (f : A -> SM S unit) (l : list A) : SM S unit :=
  match l with
  | [] => sret tt
  | x :: l' => f x >>> sforM f l'
  end.

(** [sep.join(parts)] on unicode strings. *)
Fixpoint join (sep : ustr) (parts : list ustr) : ustr :=
  match parts with
  | [] => []
  | [p] => p
  | p :: rest => p ++ sep ++ join sep rest
  end.

(** The line boundaries of [str.splitlines]. *)
Definition is_linebreak (c : N) : bool :=
  ((c =? 10) || (c =? 11) || (c =? 12) || (c =? 13) || (c =? 28) ||
   (c =? 29) || (c =? 30) || (c =? 133) || (c =? 8232) || (c =? 8233))%N.

(** [str.splitlines()]: the line in progress is kept reversed in [cur];
    a carriage return followed by a line feed is one boundary; a final
    line is reported only when it is not empty. *)
Fixpoint splitlines_go (cur : ustr) (s : ustr) : list ustr :=
  match s with
  | [] => match cur with [] => [] | _ => [rev cur] end
  | c :: rest =>
      if is_linebreak c then
        rev cur ::
          (if (c =? 13)%N then
             match rest with
             | d :: rest' =>
                 if (d =? 10)%N then splitlines_go [] rest'
                 else splitlines_go [] rest
             | [] => splitlines_go [] rest
             end
           else splitlines_go [] rest)
      else splitlines_go (c :: cur) rest
  end.

Definition splitlines (s : ustr) : list ustr := splitlines_go [] s.

(** [char.upper()] as the codec uses it, for the key of one character
    in [braille_chars]: exact where the upper case is one Basic Latin
    character (the small letters, U+0131 and U+017F).  A character whose
    upper case is something else, or more than one character, is left as
    it is; on strings, [map upper] is [str.upper()] for Basic Latin
    only. *)
Definition upper (c : N) : N :=
  (if (97 <=? c) && (c <=? 122) then c - 32
   else if c =? 305 then 73
   else if c =? 383 then 83
   else c)%N.

(** [c.isspace()] for a character of the Latin-1 range. *)
Definition isspace (c : ascii) : bool :=
  let n := N_of_ascii c in
  ((9 <=? n) && (n <=? 13) || (28 <=? n) && (n <=? 32)
   || (n =? 133) || (n =? 160))%N.

(** [s.split()]: the maximal runs of characters that are not white
    space; [cur] is the run in progress, reversed. *)
Fixpoint split_ws_go (cur : list ascii) (s : string) : list string :=
  match s with
  | EmptyString =>
      match cur with
      | [] => []
      | _ => [string_of_list_ascii (rev cur)]
      end
  | String c rest =>
      if isspace c then
        match cur with
        | [] => split_ws_go [] rest
        | _ => string_of_list_ascii (rev cur) :: split_ws_go [] rest
        end
      else split_ws_go (c :: cur) rest
  end.

Definition split_ws (s : string) : list string := split_ws_go [] s.

(** [s.split(sep)] for a one-character separator. *)
Fixpoint split (sep : ascii) (s : string) : list string :=
  match s with
  | EmptyString => [EmptyString]
  | String c rest =>
      if Ascii.eqb c sep then EmptyString :: split sep rest
      else match split sep rest with
           | hd :: tl => String c hd :: tl
           | [] => [String c EmptyString]
           end
  end.

(** [sorted(l)] and [l.sort()]: a stable sort that only uses [<]. *)
Fixpoint sort_insert {A} (lt : A -> A -> bool) (x : A) (l : list A) : list A :=
  match l with
  | [] => [x]
  | y :: l' => if lt y x then y :: sort_insert lt x l' else x :: y :: l'
  end.

Fixpoint sorted {A} (lt : A -> A -> bool) (l : list A) : list A :=
  match l with
  | [] => []
  | x :: l' => sort_insert lt x (sorted lt l')
  end.

(** ** The lookup tables

    [basic.py] takes every glyph from [music21.braille.lookup].  The
    tables are a parameter of the whole development: a data-keyed table
    is a partial function, an entry that the code names by a literal key
    is a field. *)
Record Lookup := {
  accidentals : string -> option ustr;
  alphabet : ascii -> option ustr;
  ascii_chars : list (N * N);
  barlines : string -> option ustr;
  beatUnits : Z -> option ustr;
  beforeNoteExpr : string -> option ustr;
  clefs_prefix : ustr;
  clefs_sign : string -> option (Z -> option ustr);
  clefs_suffix : bool -> ustr;
  fingerMarks : string -> option ustr;
  intervals : Z -> option ustr;
  keySignatures : Z -> option ustr;
  naturals : Z -> option ustr;
  numbers : Z -> option ustr;
  octaves : Z -> option ustr;
  pitchNameToNotes : string -> option (string -> option ustr);
  rests : string -> option ustr;
  textExpressions : string -> option ustr;
  binary_dots : N -> option (string * string * string);
  symbols : string -> option ustr;
  sym_basic_exception : ustr;
  sym_dot : ustr;
  sym_word : ustr;
  sym_space : ustr;
  sym_number : ustr;
  sym_uppercase : ustr;
  sym_triplet : ustr;
  sym_tie : ustr;
  sym_finger_change : ustr;
  sym_first_set_missing_fingermark : ustr;
  sym_second_set_missing_fingermark : ustr;
  sym_opening_single_slur : ustr;
  sym_opening_double_slur : ustr;
  sym_closing_double_slur : ustr;
  sym_opening_bracket_slur : ustr;
  sym_closing_bracket_slur : ustr
}.

(** ** The host object model

    Only the attributes that [basic.py] reads or writes are kept.  The
    explanation log [_brailleEnglish] that every encoder attaches to its
    argument is a field of the object; [None] is an object that has no
    such attribute yet. *)

(** One formatted line of [_brailleEnglish]: the format string and its
    arguments ([FObj] is the [str()] of a music21 object). *)
Inductive farg :=
| FInt (z : Z)
| FStr (s : string)
| FBraille (u : ustr)
| FObj
| FLines (sep : string) (l : list entry)
with entry :=
| Fmt (fmt : string) (args : list farg).

Record Accidental := {
  acc_name : string;
  displayStatus : option bool
}.

Record Pitch := {
  step : string;
  octave : option Z;
  accidental : option Accidental
}.

Record Duration := {
  dur_type : string;
  dots : nat;
  tuplets : list string;
  isGrace : bool
}.

Record Articulation := { art_name : string }.

(** [attrs] holds the attributes that the segmenter may or may not have
    set on a note: the seven beam and slur keywords. *)
Record Note := {
  pitch : Pitch;
  duration : Duration;
  articulations : list Articulation;
  fingering : option string;
  tie : option string;
  attrs : gmap string bool;
  note_brailleEnglish : option (list entry)
}.

Record Rest := {
  rest_duration : Duration;
  rest_brailleEnglish : option (list entry)
}.

(** [chord_duration] stands for the chord's [quarterLength], the one
    thing [chordToBraille] reads of the chord's duration. *)
Record Chord := {
  notes : list Note;
  chord_duration : Duration;
  chord_brailleEnglish : option (list entry)
}.

(** The class of a clef object: its [__class__.__name__] and the three
    [isinstance] tests that [basic.py] makes. *)
Record ClefClass := {
  className : string;
  isNoClef : bool;
  isTrebleClef : bool;
  isBassClef : bool
}.

Record Clef := {
  clef_class : ClefClass;
  sign : string;
  line : Z;
  clef_brailleEnglish : option (list entry)
}.

Record KeySignature := {
  sharps : Z;
  key_brailleEnglish : option (list entry)
}.

Record TimeSignature := {
  ts_symbol : option string;
  numerator : Z;
  denominator : Z;
  time_brailleEnglish : option (list entry)
}.

Record Dynamic := {
  value : string;
  dynamic_brailleEnglish : option (list entry)
}.

Record TextExpression := {
  content : string;
  text_brailleEnglish : option (list entry)
}.

Record Barline := {
  style : string;
  barline_brailleEnglish : option (list entry)
}.

(** What the host model computes for the encoders. *)
Record Host := {
  genericUndirected : Pitch -> Pitch -> Z;
  pitch_lt : Pitch -> Pitch -> bool
}.

(** ** Atomic encoders *)

Section Encoders.

Variable L : Lookup.
Variable H : Host.

(** The body of the loop over [choice] in [transcribeNoteFingering]. *)
Definition fingeringChoice (allowAbsence : bool) (i : nat) (tok : string)
  : result (list ustr) :=
  let change := split "-" tok in
  match change with
  | [c0; c1] =>
      m0 <- getitem (fingerMarks L c0) ;;
      m1 <- getitem (fingerMarks L c1) ;;
      Ok [m0; sym_finger_change L; m1]
  | [changeMark] =>
      fingerMarkToAppend <-
        try_except (getitem (fingerMarks L changeMark)) KeyError
          (if negb allowAbsence then Raise KeyError
           else if Nat.eqb i 0
                then Ok (sym_first_set_missing_fingermark L)
                else Ok (sym_second_set_missing_fingermark L)) ;;
      Ok [fingerMarkToAppend]
  | _ => Ok []
  end.

Fixpoint fingeringLoop (allowAbsence : bool) (i : nat) (choice : list string)
  : result (list ustr) :=
  match choice with
  | [] => Ok []
  | tok :: rest =>
      t <- fingeringChoice allowAbsence i tok ;;
      ts <- fingeringLoop allowAbsence (S i) rest ;;
      Ok (t ++ ts)
  end.

Definition transcribeNoteFingering (sampleNoteFingering : string)
  (upperFirstInFingering : bool) : result ustr :=
  try_except
    (if Nat.eqb (String.length sampleNoteFingering) 1
     then getitem (fingerMarks L sampleNoteFingering)
     else
       let choice := split "," sampleNoteFingering in
       ca <- (if Nat.eqb (length choice) 2 then Ok (choice, true)
              else if Nat.eqb (length choice) 1
                   then Ok (split "|" sampleNoteFingering, false)
                   else Raise KeyError) ;;
       let '(choice, allowAbsence) := ca in
       let choice := if negb upperFirstInFingering then rev choice else choice in
       trans <- fingeringLoop allowAbsence 0 choice ;;
       Ok (concat trans))
    KeyError (Raise BrailleBasicException).

(** ** The octave heuristic *)

Definition octave_eqb (a b : option Z) : bool :=
  match a, b with
  | Some x, Some y => x =? y
  | None, None => true
  | _, _ => false
  end.

Definition showOctaveWithNote (previousNote : option Note) (currentNote : Note)
  : bool :=
  match previousNote with
  | None => true
  | Some previousNote =>
      let i := genericUndirected H (pitch previousNote) (pitch currentNote) in
      let isSixthOrGreater := 6 <=? i in
      let isFourthOrFifth := (i =? 4) || (i =? 5) in
      let sameOctaveAsPrevious :=
        octave_eqb (octave (pitch previousNote)) (octave (pitch currentNote)) in
      if isSixthOrGreater || (isFourthOrFifth && negb sameOctaveAsPrevious)
      then true else false
  end.

(** ** Words and numbers *)

(** [c.isupper()] and [c.lower()] for a character of the Latin-1 range:
    its capitals are A to Z, U+00C0 to U+00D6 and U+00D8 to U+00DE, each
    32 below its small letter. *)
Definition isupper (c : ascii) : bool :=
  let n := N_of_ascii c in
  ((65 <=? n) && (n <=? 90) || (192 <=? n) && (n <=? 214)
   || (216 <=? n) && (n <=? 222))%N.

Definition lower (c : ascii) : ascii :=
  if isupper c then ascii_of_N (N_of_ascii c + 32) else c.

Definition wordLetter (isTextExpression : bool) (letter : ascii) : result ustr :=
  if isTextExpression then
    if isupper letter then getitem (alphabet L (lower letter))
    else if Ascii.eqb letter "." then Ok (sym_dot L)
    else try_except (getitem (alphabet L letter)) KeyError
           (Raise BrailleBasicException)
  else
    try_except
      (if isupper letter
       then a <- getitem (alphabet L (lower letter)) ;; Ok (sym_uppercase L ++ a)
       else getitem (alphabet L letter))
      KeyError (Raise BrailleBasicException).

Fixpoint wordLoop (isTextExpression : bool) (sampleWord : string)
  : result (list ustr) :=
  match sampleWord with
  | EmptyString => Ok []
  | String letter rest =>
      t <- wordLetter isTextExpression letter ;;
      ts <- wordLoop isTextExpression rest ;;
      Ok (t :: ts)
  end.

Definition wordToBraille (sampleWord : string) (isTextExpression : bool)
  : result ustr :=
  wordTrans <- wordLoop isTextExpression sampleWord ;;
  Ok (concat wordTrans).

(** [str(sampleNumber)]: [None] stands for the minus sign, on which
    [int(digit)] raises [ValueError]. *)
Fixpoint uint_digits (u : Decimal.uint) : list Z :=
  match u with
  | Decimal.Nil => []
  | Decimal.D0 r => 0 :: uint_digits r
  | Decimal.D1 r => 1 :: uint_digits r
  | Decimal.D2 r => 2 :: uint_digits r
  | Decimal.D3 r => 3 :: uint_digits r
  | Decimal.D4 r => 4 :: uint_digits r
  | Decimal.D5 r => 5 :: uint_digits r
  | Decimal.D6 r => 6 :: uint_digits r
  | Decimal.D7 r => 7 :: uint_digits r
  | Decimal.D8 r => 8 :: uint_digits r
  | Decimal.D9 r => 9 :: uint_digits r
  end.

Definition str_of_int (n : Z) : list (option Z) :=
  match Z.to_int n with
  | Decimal.Pos u =>
      match uint_digits u with [] => [Some 0] | ds => map Some ds end
  | Decimal.Neg u => None :: map Some (uint_digits u)
  end.

Fixpoint numberLoop (ds : list (option Z)) : result (list ustr) :=
  match ds with
  | [] => Ok []
  | None :: _ => Raise BrailleBasicException
  | Some d :: rest =>
      t <- getitem (numbers L d) ;;
      ts <- numberLoop rest ;;
      Ok (t :: ts)
  end.

Definition numberToBraille (sampleNumber : Z) (withNumberSign : bool)
  : result ustr :=
  numberTrans <- numberLoop (str_of_int sampleNumber) ;;
  Ok ((if withNumberSign then sym_number L else []) ++ concat numberTrans).

(** ** The ASCII codec *)

Fixpoint dict_get (d : list (N * N)) (k : N) : option N :=
  match d with
  | [] => None
  | (k', v) :: d' => if (k' =? k)%N then Some v else dict_get d' k
  end.

Fixpoint dict_set (d : list (N * N)) (k v : N) : list (N * N) :=
  match d with
  | [] => [(k, v)]
  | (k', v') :: d' =>
      if (k' =? k)%N then (k, v) :: d' else (k', v') :: dict_set d' k v
  end.

Fixpoint mapM {A B} (f : A -> result B) (l : list A) : result (list B) :=
  match l with
  | [] => Ok []
  | x :: l' => y <- f x ;; ys <- mapM f l' ;; Ok (y :: ys)
  end.

Definition brailleUnicodeToBrailleAscii (brailleUnicode : ustr) : result ustr :=
  let brailleLines := splitlines brailleUnicode in
  asciiLines <-
    mapM (fun sampleLine =>
            mapM (fun char => getitem (dict_get (ascii_chars L) char)) sampleLine)
         brailleLines ;;
  Ok (join [10%N] asciiLines).

(** The inverse dictionary that [brailleAsciiToBrailleUnicode] builds on
    every call. *)
Definition braille_chars : list (N * N) :=
  fold_left (fun d kv => dict_set d (snd kv) (fst kv)) (ascii_chars L) [].

Definition brailleAsciiToBrailleUnicode (brailleAscii : ustr) : result ustr :=
  let asciiLines := splitlines brailleAscii in
  brailleLines <-
    mapM (fun sampleLine =>
            mapM (fun char => getitem (dict_get braille_chars (upper char)))
                 sampleLine)
         asciiLines ;;
  Ok (join [10%N] brailleLines).

(** ** Element encoders

    An encoder returns its argument as the call leaves it, together with
    the string it returns or the exception it raises. *)

Definition with_barline_english (b : Barline) (t : list entry) : Barline :=
  {| style := style b; barline_brailleEnglish := Some t |}.

Definition barlineToBraille (music21Barline : Barline) : Barline * result ustr :=
  match barlines L (style music21Barline) with
  | Some brailleBarline =>
      (with_barline_english music21Barline
         [Fmt "Barline {0} {1}" [FStr (style music21Barline); FBraille brailleBarline]],
       Ok brailleBarline)
  | None =>
      (with_barline_english music21Barline
         [Fmt "Barline {0} None" [FStr (style music21Barline)]],
       Ok (sym_basic_exception L))
  end.

Definition with_rest_english (r : Rest) (t : list entry) : Rest :=
  {| rest_duration := rest_duration r; rest_brailleEnglish := Some t |}.

Definition restToBraille (music21Rest : Rest) : Rest * result ustr :=
  let ty := dur_type (rest_duration music21Rest) in
  match rests L ty with
  | Some simpleRest =>
      let n := dots (rest_duration music21Rest) in
      (with_rest_english music21Rest
         (Fmt "Rest {0} {1}" [FStr ty; FBraille simpleRest]
            :: repeat (Fmt "Dot {0}" [FBraille (sym_dot L)]) n),
       Ok (concat (simpleRest :: repeat (sym_dot L) n)))
  | None =>
      (with_rest_english music21Rest [Fmt "Rest {0} None" [FStr ty]],
       Ok (sym_basic_exception L))
  end.

Definition with_clef_english (c : Clef) (t : list entry) : Clef :=
  {| clef_class := clef_class c; sign := sign c; line := line c;
     clef_brailleEnglish := Some t |}.

Definition clefNames (cls : string) : option string :=
  if String.eqb cls "FrenchViolinClef" then Some "French Violin"%string
  else if String.eqb cls "TrebleClef" then Some "Treble"%string
  else if String.eqb cls "GSopranoClef" then Some "G-soprano"%string
  else if String.eqb cls "SopranoClef" then Some "Soprano"%string
  else if String.eqb cls "MezzoSopranoClef" then Some "Mezzo-soprano"%string
  else if String.eqb cls "AltoClef" then Some "Alto"%string
  else if String.eqb cls "TenorClef" then Some "Tenor"%string
  else if String.eqb cls "CBaritoneClef" then Some "C-baritone"%string
  else if String.eqb cls "FBaritoneClef" then Some "F-baritone"%string
  else if String.eqb cls "BassClef" then Some "Bass"%string
  else if String.eqb cls "SubBassClef" then Some "Sub-bass"%string
  else None.

Definition clefToBraille (music21Clef : Clef) (changeSuffix : bool)
  : Clef * result ustr :=
  let cls := clef_class music21Clef in
  if isNoClef cls then
    (with_clef_english music21Clef [Fmt "No Clef {0}" [FObj]], Ok [])
  else
    match clefs_sign L (sign music21Clef) with
    | Some lines =>
        match lines (line music21Clef) with
        | Some g =>
            let brailleClef := clefs_prefix L ++ g in
            (with_clef_english music21Clef
               [match clefNames (className cls) with
                | Some nm => Fmt "{0} Clef {1}" [FStr nm; FBraille brailleClef]
                | None => Fmt "Unnamed Clef {0}" [FObj]
                end],
             Ok (brailleClef ++
                 (if isTrebleClef cls || isBassClef cls
                  then clefs_suffix L changeSuffix
                  else clefs_suffix L false)))
        | None =>
            (with_clef_english music21Clef [Fmt "{0} None" [FObj]],
             Ok (sym_basic_exception L))
        end
    | None =>
        (with_clef_english music21Clef [Fmt "{0} None" [FObj]],
         Ok (sym_basic_exception L))
    end.

Definition with_dynamic_english (d : Dynamic) (t : list entry) : Dynamic :=
  {| value := value d; dynamic_brailleEnglish := Some t |}.

Definition dynamicToBraille (music21Dynamic : Dynamic) (precedeByWordSign : bool)
  : Dynamic * result ustr :=
  let t0 := if precedeByWordSign
            then [Fmt "Word: {0}" [FBraille (sym_word L)]] else [] in
  let dynamicTrans := if precedeByWordSign then sym_word L else [] in
  match wordToBraille (value music21Dynamic) true with
  | Ok brailleDynamic =>
      (with_dynamic_english music21Dynamic
         (t0 ++ [Fmt "Dynamic {0} {1}"
                   [FStr (value music21Dynamic); FBraille brailleDynamic]]),
       Ok (dynamicTrans ++ brailleDynamic))
  | Raise BrailleBasicException =>
      (with_dynamic_english music21Dynamic
         (t0 ++ [Fmt "Dynamic {0} None" [FStr (value music21Dynamic)]]),
       Ok (sym_basic_exception L))
  | Raise e => (with_dynamic_english music21Dynamic t0, Raise e)
  end.

Definition with_text_english (x : TextExpression) (t : list entry)
  : TextExpression :=
  {| content := content x; text_brailleEnglish := Some t |}.

(** The words of a multi-word expression but the last, each followed by
    a space. *)
Fixpoint exprWords (ws : list string) : result (list ustr) :=
  match ws with
  | [] => Ok []
  | expr :: rest =>
      w <- wordToBraille expr true ;;
      ts <- exprWords rest ;;
      Ok (w :: sym_space L :: ts)
  end.

Definition textExpressionToBraille (music21TextExpression : TextExpression)
  (precedeByWordSign : bool) : TextExpression * result ustr :=
  let c := content music21TextExpression in
  match textExpressions L c with
  | Some simpleReturn =>
      (with_text_english music21TextExpression
         [Fmt "Text Expression {0} {1}" [FStr c; FBraille simpleReturn]],
       Ok simpleReturn)
  | None =>
      let allExpr := split_ws c in
      let t0 := if precedeByWordSign
                then [Fmt "Word {0}" [FBraille (sym_word L)]] else [] in
      let textExpressionTrans := if precedeByWordSign then sym_word L else [] in
      let body : result (list entry * ustr) :=
        match allExpr with
        | [w] =>
            simpleTrans <- wordToBraille w true ;;
            Ok ([Fmt "Text Expression {0} {1}" [FStr c; FBraille simpleTrans]],
                textExpressionTrans ++ simpleTrans)
        | _ =>
            firsts <- exprWords (removelast allExpr) ;;
            lastExpr <- match last allExpr with
                        | Some w => Ok w
                        | None => Raise IndexError
                        end ;;
            lastTrans <- wordToBraille lastExpr true ;;
            let brailleTextExpr :=
              textExpressionTrans ++ concat firsts ++ lastTrans in
            Ok ([Fmt "Text Expression {0} {1}" [FStr c; FBraille brailleTextExpr]],
                brailleTextExpr ++ sym_word L)
        end in
      match body with
      | Ok (t, r) => (with_text_english music21TextExpression (t0 ++ t), Ok r)
      | Raise BrailleBasicException =>
          (with_text_english music21TextExpression
             (t0 ++ [Fmt "Text Expression {0} None" [FStr c]]),
           Ok (sym_basic_exception L))
      | Raise e => (with_text_english music21TextExpression t0, Raise e)
      end
  end.

Definition with_key_english (k : KeySignature) (t : list entry) : KeySignature :=
  {| sharps := sharps k; key_brailleEnglish := Some t |}.

(** [outgoingSharps / absOutgoing] is only evaluated when neither count
    is zero, where the quotient is exactly 1 or -1. *)
Definition keySigToBraille (music21KeySignature : KeySignature)
  (outgoingKeySig : option KeySignature) : KeySignature * result ustr :=
  let incomingSharps := sharps music21KeySignature in
  match keySignatures L incomingSharps with
  | None =>
      (with_key_english music21KeySignature
         [Fmt "Key Signature {0} sharps None" [FObj]],
       Ok (sym_basic_exception L))
  | Some ks_braille =>
      let t0 :=
        if 0 <? incomingSharps
        then [Fmt "Key Signature {0} sharp(s) {1}"
                [FInt incomingSharps; FBraille ks_braille]]
        else [Fmt "Key Signature {0} flat(s) {1}"
                [FInt (Z.abs incomingSharps); FBraille ks_braille]] in
      match outgoingKeySig with
      | None => (with_key_english music21KeySignature t0, Ok ks_braille)
      | Some outgoing =>
          let outgoingSharps := sharps outgoing in
          let absOutgoing := Z.abs outgoingSharps in
          let absIncoming := Z.abs incomingSharps in
          let cancel (n : Z) :=
            match naturals L n with
            | Some nat_braille =>
                (with_key_english music21KeySignature
                   (Fmt "Key Signature {0} naturals {1}"
                      [FInt outgoingSharps; FBraille nat_braille] :: t0),
                 Ok (nat_braille ++ ks_braille))
            | None =>
                (with_key_english music21KeySignature
                   (t0 ++ [Fmt "{0} naturals=None" [FObj]]),
                 Ok ks_braille)
            end in
          if (incomingSharps =? 0) || (outgoingSharps =? 0)
             || negb (outgoingSharps / absOutgoing =? incomingSharps / absIncoming)
          then cancel absOutgoing
          else if absIncoming <=? absOutgoing
          then cancel (Z.abs (outgoingSharps - incomingSharps))
          else (with_key_english music21KeySignature t0, Ok ks_braille)
      end
  end.

Definition with_time_english (t : TimeSignature) (e : list entry) : TimeSignature :=
  {| ts_symbol := ts_symbol t; numerator := numerator t;
     denominator := denominator t; time_brailleEnglish := Some e |}.

Definition timeSigToBraille (music21TimeSignature : TimeSignature)
  : TimeSignature * result ustr :=
  let ts := music21TimeSignature in
  match ts_symbol ts ≫= (fun s => (fun g => (s, g)) <$> symbols L s) with
  | Some (s, brailleSig) =>
      (with_time_english ts
         [Fmt "Time Signature {0} {1}" [FStr s; FBraille brailleSig]],
       Ok brailleSig)
  | None =>
      let body :=
        n <- numberToBraille (numerator ts) true ;;
        b <- getitem (beatUnits L (denominator ts)) ;;
        Ok (n ++ b) in
      match body with
      | Ok brailleSig =>
          (with_time_english ts
             [Fmt "Time Signature {0}/{1} {2}"
                [FInt (numerator ts); FInt (denominator ts); FBraille brailleSig]],
           Ok brailleSig)
      | Raise BrailleBasicException | Raise KeyError =>
          (with_time_english ts [Fmt "{0} None" [FObj]],
           Ok (sym_basic_exception L))
      | Raise e => (with_time_english ts [], Raise e)
      end
  end.

(** ** The note encoder *)

Definition falseKeywords : list string :=
  ["beginLongBracketSlur"; "endLongBracketSlur"; "beginLongDoubleSlur";
   "endLongDoubleSlur"; "shortSlur"; "beamStart"; "beamContinue"]%string.

(** The state a call of [noteToBraille] works on: its argument, the
    module-level dictionary [beamStatus] and the local list [noteTrans]. *)
Record NoteSt := {
  music21Note : Note;
  beamStatus : gmap string bool;
  noteTrans : list ustr
}.

Definition with_note_english (n : Note) (t : option (list entry)) : Note :=
  {| pitch := pitch n; duration := duration n;
     articulations := articulations n; fingering := fingering n;
     tie := tie n; attrs := attrs n; note_brailleEnglish := t |}.

Definition with_articulations (n : Note) (a : list Articulation) : Note :=
  {| pitch := pitch n; duration := duration n;
     articulations := a; fingering := fingering n;
     tie := tie n; attrs := attrs n;
     note_brailleEnglish := note_brailleEnglish n |}.

Definition on_note (f : Note -> Note) (s : NoteSt) : NoteSt :=
  {| music21Note := f (music21Note s); beamStatus := beamStatus s;
     noteTrans := noteTrans s |}.

Definition on_beamStatus (f : gmap string bool -> gmap string bool)
  (s : NoteSt) : NoteSt :=
  {| music21Note := music21Note s; beamStatus := f (beamStatus s);
     noteTrans := noteTrans s |}.

(** [noteTrans.append(u)] *)
Definition append (u : ustr) : SM NoteSt unit :=
  smodify (fun s => {| music21Note := music21Note s;
                       beamStatus := beamStatus s;
                       noteTrans := noteTrans s ++ [u] |}).

(** [music21Note._brailleEnglish.append(e)] *)
Definition english (e : entry) : SM NoteSt unit :=
  fun s => match note_brailleEnglish (music21Note s) with
           | Some t => (on_note (fun n => with_note_english n (Some (t ++ [e]))) s,
                        Ok tt)
           | None => (s, Raise AttributeError)
           end.

(** [music21Note] and [noteTrans] as they stand. *)
Definition theNote : SM NoteSt Note := fun s => (s, Ok (music21Note s)).
Definition theTrans : SM NoteSt (list ustr) := fun s => (s, Ok (noteTrans s)).

(** [beamStatus[keyword]] *)
Definition beam (keyword : string) : SM NoteSt bool :=
  fun s => (s, getitem (beamStatus s !! keyword)).

(** The loop over [falseKeywords]: [getattr] with [False] on
    [AttributeError]. *)
Definition initBeamStatus : SM NoteSt unit :=
  n <~ theNote ;;
  smodify (on_beamStatus
             (fun b => foldl (fun b keyword =>
                                <[keyword := default false (attrs n !! keyword)]> b)
                             b falseKeywords)).

Definition openingSlurs : SM NoteSt unit :=
  beginBracket <~ beam "beginLongBracketSlur" ;;
  (if beginBracket then
     append (sym_opening_bracket_slur L) >>>
     english (Fmt "Opening bracket slur {0}" [FBraille (sym_opening_bracket_slur L)])
   else
     beginDouble <~ beam "beginLongDoubleSlur" ;;
     if beginDouble then
       append (sym_opening_double_slur L) >>>
       english (Fmt "Opening double slur {0}" [FBraille (sym_opening_double_slur L)])
     else sret tt) >>>
  endBracket <~ beam "endLongBracketSlur" ;;
  beginBracket <~ (if endBracket then beam "beginLongBracketSlur" else sret false) ;;
  if endBracket && beginBracket then
    append (sym_closing_bracket_slur L) >>>
    english (Fmt "Closing bracket slur {0}" [FBraille (sym_closing_bracket_slur L)])
  else sret tt.

Definition isTriplet (allTuplets : list string) : bool :=
  match allTuplets with
  | t :: _ => String.eqb t "Triplet"
  | [] => false
  end.

Definition tripletBlock : SM NoteSt unit :=
  n <~ theNote ;;
  if isTriplet (tuplets (duration n)) then
    beamStart <~ beam "beamStart" ;;
    if beamStart then
      append (sym_triplet L) >>>
      english (Fmt "Triplet {0}" [FBraille (sym_triplet L)])
    else
      beamContinue <~ beam "beamContinue" ;;
      if beamContinue
      then smodify (on_beamStatus (fun b => <["beamContinue"%string := false]> b))
      else sret tt
  else sret tt.

Definition isStaccato (name : string) : bool :=
  String.eqb name "staccato" || String.eqb name "staccatissimo".

Definition staccatoFirst (artc : Articulation) : SM NoteSt unit :=
  let name := art_name artc in
  if isStaccato name then
    g <~ slift (getitem (beforeNoteExpr L name)) ;;
    append g >>> english (Fmt "Articulation {0} {1}" [FStr name; FBraille g])
  else sret tt.

Definition otherArticulation (artc : Articulation) : SM NoteSt unit :=
  let name := art_name artc in
  scatch
    (scatch
       (if negb (isStaccato name) then
          g <~ slift (getitem (beforeNoteExpr L name)) ;;
          append g >>> english (Fmt "Articulation {0} {1}" [FStr name; FBraille g])
        else sret tt)
       AttributeError (sret tt))
    KeyError (sret tt).

Definition name_lt (a b : Articulation) : bool :=
  String.ltb (art_name a) (art_name b).

Definition articulationsBlock : SM NoteSt unit :=
  n <~ theNote ;;
  match articulations n with
  | [] => sret tt
  | arts =>
      sforM staccatoFirst arts >>>
      smodify (on_note (fun n => with_articulations n (sorted name_lt (articulations n)))) >>>
      n' <~ theNote ;;
      sforM otherArticulation (articulations n')
  end.

Definition accidentalBlock : SM NoteSt unit :=
  n <~ theNote ;;
  match accidental (pitch n) with
  | Some acc =>
      match displayStatus acc with
      | Some false => sret tt
      | _ =>
          scatch
            (g <~ slift (getitem (accidentals L (acc_name acc))) ;;
             append g >>>
             english (Fmt "Accidental {0} {1}" [FStr (acc_name acc); FBraille g]))
            KeyError (sret tt)
      end
  | None => sret tt
  end.

(** [octaves[o]]: an octave of [None] is not a key of the table. *)
Definition octaveMark (o : option Z) : result ustr :=
  match o with
  | Some z => getitem (octaves L z)
  | None => Raise KeyError
  end.

Definition octaveArg (o : option Z) : farg :=
  match o with
  | Some z => FInt z
  | None => FObj
  end.

Definition octaveBlock (showOctave : bool) : SM NoteSt unit :=
  n <~ theNote ;;
  if showOctave then
    scatch
      (g <~ slift (octaveMark (octave (pitch n))) ;;
       append g >>>
       english (Fmt "Octave {0} {1}" [octaveArg (octave (pitch n)); FBraille g]))
      KeyError (sret tt)
  else sret tt.

(** The note name and its duration; [Some r] is a [return r] of
    [noteToBraille] from inside this part. *)
Definition nameAndDuration : SM NoteSt (option ustr) :=
  n <~ theNote ;;
  match pitchNameToNotes L (step (pitch n)) with
  | None =>
      english (Fmt "Name {0} None" [FStr (step (pitch n))]) >>>
      sret (Some (sym_basic_exception L))
  | Some notesInStep =>
      if isGrace (duration n) then
        nameWithDuration <~ slift (getitem (notesInStep "eighth"%string)) ;;
        append nameWithDuration >>>
        english (Fmt "{0} {1} Gracenote--not supported {2}"
                   [FStr (step (pitch n)); FStr "eighth"; FBraille nameWithDuration]) >>>
        sret None
      else
        scatch
          (beamContinue <~ beam "beamContinue" ;;
           nameWithDuration <~
             (if beamContinue then
                g <~ slift (getitem (notesInStep "eighth"%string)) ;;
                english (Fmt "{0} beam {1}" [FStr (step (pitch n)); FBraille g]) >>>
                sret g
              else
                g <~ slift (getitem (notesInStep (dur_type (duration n)))) ;;
                english (Fmt "{0} {1} {2}"
                           [FStr (step (pitch n)); FStr (dur_type (duration n));
                            FBraille g]) >>>
                sret g) ;;
           append nameWithDuration >>>
           sforM (fun _ : unit =>
                    append (sym_dot L) >>>
                    english (Fmt "Dot {0}" [FBraille (sym_dot L)]))
                 (repeat tt (dots (duration n))) >>>
           sret None)
          KeyError
          (english (Fmt "Duration {0} None" [FObj]) >>>
           sret (Some (sym_basic_exception L)))
  end.

Definition fingeringBlock (upperFirstInFingering : bool) : SM NoteSt unit :=
  n <~ theNote ;;
  match fingering n with
  | None => sret tt
  | Some f =>
      match transcribeNoteFingering f upperFirstInFingering with
      | Ok transcribedFingering => append transcribedFingering
      | Raise AttributeError => sret tt
      | Raise BrailleBasicException => sret tt
      | Raise e => slift (Raise e)
      end
  end.

Definition closingSlurs : SM NoteSt unit :=
  shortSlur <~ beam "shortSlur" ;;
  (if shortSlur then
     append (sym_opening_single_slur L) >>>
     english (Fmt "Opening single slur {0}" [FBraille (sym_opening_single_slur L)])
   else sret tt) >>>
  endBracket <~ beam "endLongBracketSlur" ;;
  beginBracket <~ (if endBracket then beam "beginLongBracketSlur" else sret false) ;;
  if negb (endBracket && beginBracket) then
    endDouble <~ beam "endLongDoubleSlur" ;;
    if endDouble then
      append (sym_closing_double_slur L) >>>
      english (Fmt "Closing bracket slur {0}" [FBraille (sym_closing_double_slur L)])
    else
      endBracket <~ beam "endLongBracketSlur" ;;
      if endBracket then
        append (sym_closing_bracket_slur L) >>>
        english (Fmt "Closing bracket slur {0}" [FBraille (sym_closing_bracket_slur L)])
      else sret tt
  else sret tt.

Definition tieBlock : SM NoteSt unit :=
  n <~ theNote ;;
  match tie n with
  | Some ty =>
      if negb (String.eqb ty "stop") then
        append (sym_tie L) >>> english (Fmt "Tie {0}" [FBraille (sym_tie L)])
      else sret tt
  | None => sret tt
  end.

Definition noteToBraille_body (showOctave upperFirstInFingering : bool)
  : SM NoteSt ustr :=
  smodify (on_note (fun n => with_note_english n (Some []))) >>>
  initBeamStatus >>>
  openingSlurs >>>
  tripletBlock >>>
  articulationsBlock >>>
  accidentalBlock >>>
  octaveBlock showOctave >>>
  returned <~ nameAndDuration ;;
  match returned with
  | Some r => sret r
  | None =>
      fingeringBlock upperFirstInFingering >>>
      closingSlurs >>>
      tieBlock >>>
      trans <~ theTrans ;;
      sret (concat trans)
  end.

(** [noteToBraille(music21Note, showOctave, upperFirstInFingering)], run
    with [beamStatus] as it stands at the call: the note and the
    dictionary after the call, and the outcome. *)
Definition noteToBraille (n : Note) (showOctave upperFirstInFingering : bool)
  (b : gmap string bool) : Note * gmap string bool * result ustr :=
  let '(s, r) := noteToBraille_body showOctave upperFirstInFingering
                   {| music21Note := n; beamStatus := b; noteTrans := [] |} in
  (music21Note s, beamStatus s, r).

(** ** The chord encoder *)

Record ChordSt := {
  music21Chord : Chord;
  chord_beamStatus : gmap string bool;
  chordTrans : list ustr
}.

Definition with_chord_english (c : Chord) (t : option (list entry)) : Chord :=
  {| notes := notes c; chord_duration := chord_duration c;
     chord_brailleEnglish := t |}.

Definition chord_append (u : ustr) : SM ChordSt unit :=
  smodify (fun s => {| music21Chord := music21Chord s;
                       chord_beamStatus := chord_beamStatus s;
                       chordTrans := chordTrans s ++ [u] |}).

Definition chord_english (e : entry) : SM ChordSt unit :=
  fun s => match chord_brailleEnglish (music21Chord s) with
           | Some t =>
               ({| music21Chord := with_chord_english (music21Chord s) (Some (t ++ [e]));
                   chord_beamStatus := chord_beamStatus s;
                   chordTrans := chordTrans s |}, Ok tt)
           | None => (s, Raise AttributeError)
           end.

(** [note.Note(basePitch, quarterLength = q)], where [q] is the quarter
    length of [d]: a fresh note with nothing set but its pitch and a
    duration built from the quarter length alone.  The type, the dots
    and the tuplets are those the quarter length stands for; the grace
    flag is not handed over, a note made this way is never a grace
    note. *)
Definition initNote (basePitch : Pitch) (d : Duration) : Note :=
  {| pitch := basePitch;
     duration := {| dur_type := dur_type d; dots := dots d;
                    tuplets := tuplets d; isGrace := false |};
     articulations := [];
     fingering := None; tie := None; attrs := ∅;
     note_brailleEnglish := None |}.

Definition chordOctave (currentPitch : Pitch) : SM ChordSt unit :=
  g <~ slift (octaveMark (octave currentPitch)) ;;
  chord_append g >>>
  chord_english (Fmt "Octave {0} {1}" [octaveArg (octave currentPitch); FBraille g]).

(** The body of the loop over [currentPitchIndex]. *)
Definition chordPitch (allPitches : list Pitch) (basePitch : Pitch)
  (currentPitchIndex : nat) : SM ChordSt unit :=
  match allPitches !! currentPitchIndex with
  | None => slift (Raise IndexError)
  | Some currentPitch =>
      let intervalDistance := genericUndirected H basePitch currentPitch in
      intervalDistance <~
        (if 8 <? intervalDistance then
           (if Nat.eqb currentPitchIndex 1 then chordOctave currentPitch
            else
              match allPitches !! (currentPitchIndex - 1)%nat with
              | None => slift (Raise IndexError)
              | Some previousPitch =>
                  let relativeIntervalDist :=
                    genericUndirected H previousPitch currentPitch in
                  if 8 <=? relativeIntervalDist then chordOctave currentPitch
                  else sret tt
              end) >>>
           sret (intervalDistance mod 8 + 1)
         else sret intervalDistance) ;;
      g <~ slift (getitem (intervals L intervalDistance)) ;;
      chord_append g >>>
      chord_english (Fmt "Interval {0} {1}" [FInt intervalDistance; FBraille g])
  end.

Definition chordToBraille_body (descending showOctave : bool) : SM ChordSt ustr :=
  smodify (fun s => {| music21Chord := with_chord_english (music21Chord s) (Some []);
                       chord_beamStatus := chord_beamStatus s;
                       chordTrans := chordTrans s |}) >>>
  s <~ sget ;;
  let c := music21Chord s in
  let allPitches := sorted (pitch_lt H) (map pitch (notes c)) in
  let allPitches := if descending then rev allPitches else allPitches in
  let direction := if descending then "Descending"%string else "Ascending"%string in
  match allPitches with
  | [] => slift (Raise IndexError)
  | basePitch :: _ =>
      let '(n', b', r) :=
        noteToBraille (initNote basePitch (chord_duration c)) showOctave true
          (chord_beamStatus s) in
      smodify (fun s => {| music21Chord := music21Chord s;
                           chord_beamStatus := b';
                           chordTrans := chordTrans s |}) >>>
      brailleNote <~ slift r ;;
      if bool_decide (brailleNote = sym_basic_exception L) then
        chord_english (Fmt "{0} None" [FObj]) >>>
        sret (sym_basic_exception L)
      else
        chord_append brailleNote >>>
        chord_english (Fmt "{0} Chord:\n{1}"
                         [FStr direction;
                          FLines "\n" (default [] (note_brailleEnglish n'))]) >>>
        sforM (chordPitch allPitches basePitch)
              (seq 1 (length allPitches - 1)) >>>
        s' <~ sget ;;
        sret (concat (chordTrans s'))
  end.

Definition chordToBraille (c : Chord) (descending showOctave : bool)
  (b : gmap string bool) : Chord * gmap string bool * result ustr :=
  let '(s, r) := chordToBraille_body descending showOctave
                   {| music21Chord := c; chord_beamStatus := b; chordTrans := [] |} in
  (music21Chord s, chord_beamStatus s, r).

(** ** The grouping encoder *)

(** The objects a grouping holds; [EOther] is any object of a class the
    encoder has no branch for. *)
Inductive Element :=
| ENote (n : Note)
| ERest (r : Rest)
| EChord (c : Chord)
| EDynamic (d : Dynamic)
| ETextExpression (x : TextExpression)
| EBarline (b : Barline)
| EClef (c : Clef)
| EOther.

(** A grouping is a list with three attributes that may not be set. *)
Record Grouping := {
  elements : list Element;
  descendingChords : option bool;
  showClefSigns : option bool;
  upperFirstInNoteFingering : option bool
}.

Record GroupSt := {
  brailleElementGrouping : Grouping;
  group_beamStatus : gmap string bool;
  trans : list ustr;
  previousNote : option Note;
  previousElement : option nat;
  showLeadingOctave : bool
}.

Definition with_elements (g : Grouping) (l : list Element) : Grouping :=
  {| elements := l; descendingChords := descendingChords g;
     showClefSigns := showClefSigns g;
     upperFirstInNoteFingering := upperFirstInNoteFingering g |}.

(** What the handler of [AttributeError] assigns. *)
Definition with_defaults (g : Grouping) : Grouping :=
  {| elements := elements g; descendingChords := Some true;
     showClefSigns := Some false; upperFirstInNoteFingering := Some true |}.

(** The element at position [i] is replaced by what the encoder left. *)
Definition store (i : nat) (e : Element) (b : gmap string bool) : SM GroupSt unit :=
  smodify (fun s =>
    {| brailleElementGrouping :=
         with_elements (brailleElementGrouping s)
                       (<[i := e]> (elements (brailleElementGrouping s)));
       group_beamStatus := b; trans := trans s;
       previousNote := previousNote s; previousElement := previousElement s;
       showLeadingOctave := showLeadingOctave s |}).

Definition trans_append (u : ustr) : SM GroupSt unit :=
  smodify (fun s =>
    {| brailleElementGrouping := brailleElementGrouping s;
       group_beamStatus := group_beamStatus s; trans := trans s ++ [u];
       previousNote := previousNote s; previousElement := previousElement s;
       showLeadingOctave := showLeadingOctave s |}).

Definition set_trans (t : list ustr) : SM GroupSt unit :=
  smodify (fun s =>
    {| brailleElementGrouping := brailleElementGrouping s;
       group_beamStatus := group_beamStatus s; trans := t;
       previousNote := previousNote s; previousElement := previousElement s;
       showLeadingOctave := showLeadingOctave s |}).

Definition set_previousNote (n : option Note) : SM GroupSt unit :=
  smodify (fun s =>
    {| brailleElementGrouping := brailleElementGrouping s;
       group_beamStatus := group_beamStatus s; trans := trans s;
       previousNote := n; previousElement := previousElement s;
       showLeadingOctave := showLeadingOctave s |}).

Definition set_previousElement (i : nat) : SM GroupSt unit :=
  smodify (fun s =>
    {| brailleElementGrouping := brailleElementGrouping s;
       group_beamStatus := group_beamStatus s; trans := trans s;
       previousNote := previousNote s; previousElement := Some i;
       showLeadingOctave := showLeadingOctave s |}).

(** [previousNote = None; showLeadingOctave = True] *)
Definition resetOctave : SM GroupSt unit :=
  smodify (fun s =>
    {| brailleElementGrouping := brailleElementGrouping s;
       group_beamStatus := group_beamStatus s; trans := trans s;
       previousNote := None; previousElement := previousElement s;
       showLeadingOctave := true |}).

(** Reading an attribute of the grouping. *)
Definition attribute (f : Grouping -> option bool) : SM GroupSt bool :=
  fun s => match f (brailleElementGrouping s) with
           | Some v => (s, Ok v)
           | None => (s, Raise AttributeError)
           end.

Definition doShowOctave (s : GroupSt) (currentNote : Note) : bool :=
  match previousNote s with
  | None => showLeadingOctave s
  | Some p => showOctaveWithNote (Some p) currentNote
  end.

Definition note_pitch_lt (a b : Note) : bool := pitch_lt H (pitch a) (pitch b).

(** The chain of [isinstance] tests on [brailleElement]. *)
Definition encodeElement (i : nat) (brailleElement : Element) : SM GroupSt unit :=
  upperFirstInFingering <~ attribute upperFirstInNoteFingering ;;
  s <~ sget ;;
  match brailleElement with
  | ENote currentNote =>
      let '(n', b', r) :=
        noteToBraille currentNote (doShowOctave s currentNote)
          upperFirstInFingering (group_beamStatus s) in
      store i (ENote n') b' >>>
      brailleNote <~ slift r ;;
      trans_append brailleNote >>>
      set_previousNote (Some n')
  | ERest currentRest =>
      let '(r', r) := restToBraille currentRest in
      store i (ERest r') (group_beamStatus s) >>>
      g <~ slift r ;;
      trans_append g
  | EChord currentChord =>
      let allNotes := sorted note_pitch_lt (notes currentChord) in
      descending <~ attribute descendingChords ;;
      currentNote <~
        slift (match (if descending then last allNotes else head allNotes) with
               | Some n => Ok n
               | None => Raise IndexError
               end) ;;
      let '(c', b', r) :=
        chordToBraille currentChord descending (doShowOctave s currentNote)
          (group_beamStatus s) in
      store i (EChord c') b' >>>
      brailleChord <~ slift r ;;
      trans_append brailleChord >>>
      set_previousNote (Some currentNote)
  | EDynamic currentDynamic =>
      let '(d', r) := dynamicToBraille currentDynamic true in
      store i (EDynamic d') (group_beamStatus s) >>>
      brailleDynamic <~ slift r ;;
      trans_append brailleDynamic >>>
      resetOctave
  | ETextExpression currentExpression =>
      let '(x', r) := textExpressionToBraille currentExpression true in
      store i (ETextExpression x') (group_beamStatus s) >>>
      brailleExpression <~ slift r ;;
      trans_append brailleExpression >>>
      resetOctave
  | EBarline currentBarline =>
      let '(b', r) := barlineToBraille currentBarline in
      store i (EBarline b') (group_beamStatus s) >>>
      g <~ slift r ;;
      trans_append g
  | EClef currentClef =>
      show <~ attribute showClefSigns ;;
      if show then
        let '(c', r) := clefToBraille currentClef false in
        store i (EClef c') (group_beamStatus s) >>>
        g <~ slift r ;;
        trans_append g >>>
        resetOctave
      else sret tt
  | EOther => sret tt
  end.

Definition isClef (e : Element) : bool :=
  match e with EClef _ => true | _ => false end.
Definition isDynamic (e : Element) : bool :=
  match e with EDynamic _ => true | _ => false end.
Definition isTextExpression (e : Element) : bool :=
  match e with ETextExpression _ => true | _ => false end.

(** [e._brailleEnglish.append(t)] on an element of the grouping. *)
Definition element_english (t : entry) (e : Element) : result Element :=
  match e with
  | EClef c =>
      match clef_brailleEnglish c with
      | Some l => Ok (EClef (with_clef_english c (l ++ [t])))
      | None => Raise AttributeError
      end
  | EDynamic d =>
      match dynamic_brailleEnglish d with
      | Some l => Ok (EDynamic (with_dynamic_english d (l ++ [t])))
      | None => Raise AttributeError
      end
  | ETextExpression x =>
      match text_brailleEnglish x with
      | Some l => Ok (ETextExpression (with_text_english x (l ++ [t])))
      | None => Raise AttributeError
      end
  | _ => Raise AttributeError
  end.

(** [dots == '10' or dots == '11'] for one of the three rows. *)
Definition leftDot (dots : string) : bool :=
  String.eqb dots "10" || String.eqb dots "11".

(** [trans.insert(-1, x)] *)
Definition insert_before_last {A} (x : A) (l : list A) : list A :=
  match last l with
  | Some y => removelast l ++ [x; y]
  | None => [x]
  end.

(** The loop [for dots in binary_dots[trans[-1][0]]] with its [break]. *)
Definition dot3 (j : nat) (previous : Element) : SM GroupSt unit :=
  s <~ sget ;;
  lastTrans <~ slift (match last (trans s) with
                      | Some u => Ok u
                      | None => Raise IndexError
                      end) ;;
  firstCell <~ slift (match lastTrans with
                      | c :: _ => Ok c
                      | [] => Raise IndexError
                      end) ;;
  rows <~ slift (getitem (binary_dots L firstCell)) ;;
  let '(dots14, dots25, dots36) := rows in
  if leftDot dots14 || leftDot dots25 || leftDot dots36 then
    set_trans (insert_before_last (sym_dot L) (trans s)) >>>
    previous' <~ slift (element_english
                          (Fmt "Dot 3 {0}" [FBraille (sym_dot L)]) previous) ;;
    store j previous' (group_beamStatus s)
  else sret tt.

Definition lastChar (s : string) : option ascii :=
  last (list_ascii_of_string s).

Definition disambiguate (brailleElement : Element) : SM GroupSt unit :=
  s <~ sget ;;
  match previousElement s with
  | None => sret tt
  | Some j =>
      match elements (brailleElementGrouping s) !! j with
      | None => slift (Raise IndexError)
      | Some previous =>
          show <~ attribute showClefSigns ;;
          if (show && isClef previous)
             || (isDynamic previous && negb (isDynamic brailleElement)
                 && negb (isTextExpression brailleElement))
          then dot3 j previous
          else if isTextExpression previous && negb (isDynamic brailleElement)
                  && negb (isTextExpression brailleElement)
          then
            match previous with
            | ETextExpression x =>
                match lastChar (content x) with
                | None => slift (Raise IndexError)
                | Some c => if negb (Ascii.eqb c ".") then dot3 j previous
                            else sret tt
                end
            | _ => sret tt
            end
          else sret tt
      end
  end.

(** One turn of the loop over the grouping, for the element at [i]. *)
Definition groupingStep (i : nat) : SM GroupSt unit :=
  s <~ sget ;;
  match elements (brailleElementGrouping s) !! i with
  | None => slift (Raise IndexError)
  | Some brailleElement =>
      encodeElement i brailleElement >>>
      disambiguate brailleElement >>>
      set_previousElement i
  end.

Definition groupingLoop : SM GroupSt ustr :=
  s <~ sget ;;
  sforM groupingStep (seq 0 (length (elements (brailleElementGrouping s)))) >>>
  s' <~ sget ;;
  sret (concat (trans s')).

(** [transcribeNoteGrouping]: the handler of [AttributeError] assigns
    the three defaults and calls the function again, with the local
    [showLeadingOctave] as the failed attempt left it.  [depth] bounds
    the depth of that recursion. *)
Fixpoint transcribeNoteGrouping_rec (depth : nat) (g : Grouping)
  (showLeadingOctave0 : bool) (b : gmap string bool)
  : option (Grouping * gmap string bool * result ustr) :=
  match depth with
  | O => None
  | S depth' =>
      let '(s, r) :=
        groupingLoop {| brailleElementGrouping := g; group_beamStatus := b;
                        trans := []; previousNote := None;
                        previousElement := None;
                        showLeadingOctave := showLeadingOctave0 |} in
      match r with
      | Raise AttributeError =>
          transcribeNoteGrouping_rec depth'
            (with_defaults (brailleElementGrouping s))
            (showLeadingOctave s) (group_beamStatus s)
      | _ => Some (brailleElementGrouping s, group_beamStatus s, r)
      end
  end.

End Encoders.

(** The handler makes the three attributes present, so a second attempt
    cannot raise [AttributeError] again (lemma [second_attempt_returns]
    below): depth two is all the recursion ever uses. *)
Definition transcribeNoteGrouping (L : Lookup) (H : Host) (g : Grouping)
  (showLeadingOctave0 : bool) (b : gmap string bool)
  : option (Grouping * gmap string bool * result ustr) :=
  transcribeNoteGrouping_rec L H 2 g showLeadingOctave0 b.

(** ** Names, tempo indications and headings *)

(** [bestName] is [None] for an instrument that has no name at all. *)
Record Instrument := {
  bestName : option string;
  instrument_brailleEnglish : option (list entry)
}.

Record TempoText := {
  text : string;
  tempo_brailleEnglish : option (list entry)
}.

(** [referent] is the duration that a note of the referent's quarter
    length has; [number] is modelled for whole numbers. *)
Record MetronomeMark := {
  referent : Duration;
  number : Z;
  metronome_brailleEnglish : option (list entry)
}.

(** What a call of [transcribeHeading] ends in: a string, an exception
    of [exn], or the [TypeError] of [str.center] for a fill string that
    is not one character long. *)
Inductive outcome :=
| Returns (u : ustr)
| Raises (e : exn)
| RaisesTypeError.

(** [s.center(width, fillchar)]: [None] is the [TypeError]. *)
Definition center (s : ustr) (width : Z) (fillchar : ustr) : option ustr :=
  match fillchar with
  | [c] =>
      let marg := width - Z.of_nat (length s) in
      if marg <=? 0 then Some s
      else
        let left := marg / 2 + (if Z.odd marg && Z.odd width then 1 else 0) in
        Some (repeat c (Z.to_nat left) ++ s ++ repeat c (Z.to_nat (marg - left)))
  | _ => None
  end.

Fixpoint centerAll (ls : list ustr) (width : Z) (fillchar : ustr)
  : option (list ustr) :=
  match ls with
  | [] => Some []
  | l :: rest =>
      match center l width fillchar with
      | Some c =>
          match centerAll rest width fillchar with
          | Some cs => Some (c :: cs)
          | None => None
          end
      | None => None
      end
  end.

Section Headings.

Variable L : Lookup.

Definition with_instrument_english (i : Instrument) (t : list entry)
  : Instrument :=
  {| bestName := bestName i; instrument_brailleEnglish := Some t |}.

Definition instrumentToBraille (music21Instrument : Instrument)
  : Instrument * result ustr :=
  match bestName music21Instrument with
  | None => (with_instrument_english music21Instrument [], Raise AttributeError)
  | Some name =>
      match mapM (fun word => wordToBraille L word false) (split_ws name) with
      | Ok trans =>
          let brailleInst := join (sym_space L) trans in
          (with_instrument_english music21Instrument
             [Fmt "Instrument {0} {1}" [FStr name; FBraille brailleInst]],
           Ok brailleInst)
      | Raise BrailleBasicException =>
          (with_instrument_english music21Instrument
             [Fmt "Instrument {0} None" [FStr name]],
           Ok (sym_basic_exception L))
      | Raise e => (with_instrument_english music21Instrument [], Raise e)
      end
  end.

Definition with_tempo_english (t : TempoText) (e : list entry) : TempoText :=
  {| text := text t; tempo_brailleEnglish := Some e |}.

(** The loop over the words of a phrase: a word is put on a new line
    when the number of strings in [phraseTrans], the length of the word
    and one exceed [maxLineLength - 6]. *)
Fixpoint phraseLoop (maxLineLength : Z) (phraseTrans : list ustr)
  (allWords : list string) : result (list ustr) :=
  match allWords with
  | [] => Ok phraseTrans
  | sampleWord :: rest =>
      brailleWord <- wordToBraille L sampleWord false ;;
      if Z.of_nat (length phraseTrans) + Z.of_nat (length brailleWord) + 1
         <=? maxLineLength - 6
      then phraseLoop maxLineLength
             (phraseTrans ++ [brailleWord; sym_space L]) rest
      else phraseLoop maxLineLength
             (phraseTrans ++ [[10%N]; brailleWord; sym_space L]) rest
  end.

Definition braillePhrase (maxLineLength : Z) (samplePhrase : string)
  : result ustr :=
  phraseTrans <- phraseLoop maxLineLength [] (split_ws samplePhrase) ;;
  Ok (concat (removelast phraseTrans)).

(** The loop over [braillePhrases]: each phrase, a comma and a line
    feed. *)
Fixpoint textLoop (braillePhrases : list ustr) : result (list ustr) :=
  match braillePhrases with
  | [] => Ok []
  | p :: rest =>
      comma <- getitem (alphabet L ",") ;;
      t <- textLoop rest ;;
      Ok (p :: comma :: [10%N] :: t)
  end.

Definition tempoTextToBraille (music21TempoText : TempoText)
  (maxLineLength : Z) : TempoText * result ustr :=
  let t := text music21TempoText in
  let body :=
    braillePhrases <- mapM (braillePhrase maxLineLength) (split "," t) ;;
    brailleText <- textLoop braillePhrases ;;
    period <- getitem (alphabet L ".") ;;
    Ok (concat (removelast (removelast brailleText) ++ [period])) in
  match body with
  | Ok r =>
      (with_tempo_english music21TempoText
         [Fmt "Tempo Text {0} {1}" [FStr t; FBraille r]],
       Ok r)
  | Raise BrailleBasicException =>
      (with_tempo_english music21TempoText
         [Fmt "Tempo Text {0} None" [FStr t]],
       Ok (sym_basic_exception L))
  | Raise e => (with_tempo_english music21TempoText [], Raise e)
  end.

Definition with_metronome_english (m : MetronomeMark) (e : list entry)
  : MetronomeMark :=
  {| referent := referent m; number := number m;
     metronome_brailleEnglish := Some e |}.

(** [note.Note('C4', quarterLength = referent.quarterLength)] *)
Definition metroNote (m : MetronomeMark) : Note :=
  initNote {| step := "C"; octave := Some 4; accidental := None |} (referent m).

Definition metronomeMarkToBraille (music21MetronomeMark : MetronomeMark)
  (b : gmap string bool) : MetronomeMark * gmap string bool * result ustr :=
  let m := music21MetronomeMark in
  let '(n', b', r) := noteToBraille L (metroNote m) false true b in
  match r with
  | Raise BrailleBasicException =>
      (with_metronome_english m [Fmt "{0} None" [FObj]], b',
       Ok (sym_basic_exception L))
  | Raise e => (with_metronome_english m [], b', Raise e)
  | Ok brailleNote =>
      let t1 := [Fmt "Metronome Note {0}"
                   [FLines " " (default [] (note_brailleEnglish n'))]] in
      match symbols L "metronome" with
      | None => (with_metronome_english m t1, b', Raise KeyError)
      | Some metronome =>
          let t2 := t1 ++ [Fmt "Metronome symbol {0}" [FBraille metronome]] in
          match numberToBraille L (number m) true with
          | Ok brailleNumber =>
              (with_metronome_english m
                 (t2 ++ [Fmt "Metronome number {0} {1}"
                           [FInt (number m); FBraille brailleNumber]]),
               b', Ok (brailleNote ++ metronome ++ brailleNumber))
          | Raise BrailleBasicException =>
              (with_metronome_english m (t2 ++ [Fmt "{0} None" [FObj]]), b',
               Ok (sym_basic_exception L))
          | Raise e => (with_metronome_english m t2, b', Raise e)
          end
      end
  end.

(** [transcribeSignatures]: the two signatures as the call leaves them
    and the outcome. *)
Definition transcribeSignatures (music21KeySignature : option KeySignature)
  (music21TimeSignature : option TimeSignature)
  (outgoingKeySig : option KeySignature)
  : option KeySignature * option TimeSignature * result ustr :=
  let noKey :=
    match music21KeySignature with
    | None => true
    | Some k => (sharps k =? 0) && bool_decide (outgoingKeySig = None)
    end in
  if bool_decide (music21TimeSignature = None) && noKey
  then (music21KeySignature, music21TimeSignature, Raise BrailleBasicException)
  else
    let '(k', r1) :=
      match music21KeySignature with
      | None => (None, Ok [])
      | Some k => let '(k', r) := keySigToBraille L k outgoingKeySig in (Some k', r)
      end in
    match r1 with
    | Raise e => (k', music21TimeSignature, Raise e)
    | Ok u1 =>
        let '(t', r2) :=
          match music21TimeSignature with
          | None => (None, Ok [])
          | Some t => let '(t', r) := timeSigToBraille L t in (Some t', r)
          end in
        (k', t', u2 <- r2 ;; Ok (u1 ++ u2))
    end.

(** The four arguments of [transcribeHeading] and [beamStatus], as a
    call leaves them. *)
Record HeadingSt := {
  headingKey : option KeySignature;
  headingTime : option TimeSignature;
  headingTempo : option TempoText;
  headingMetronome : option MetronomeMark;
  heading_beamStatus : gmap string bool
}.

Definition centered (o : option ustr) : outcome :=
  match o with
  | Some u => Returns u
  | None => RaisesTypeError
  end.

(** The end of both layouts of [transcribeHeading]: the lines joined
    and centered as one when they fit, else each line centered and the
    lines joined by line feeds. *)
Definition layout (headingTrans : list ustr) (fits : bool) (sep : ustr)
  (maxLineLength : Z) : outcome :=
  if fits
  then centered (center (join sep headingTrans) maxLineLength (sym_space L))
  else match centerAll headingTrans maxLineLength (sym_space L) with
       | Some ls => Returns (join [10%N] ls)
       | None => RaisesTypeError
       end.

Definition transcribeHeading (music21KeySignature : option KeySignature)
  (music21TimeSignature : option TimeSignature)
  (music21TempoText : option TempoText)
  (music21MetronomeMark : option MetronomeMark)
  (maxLineLength : Z) (b : gmap string bool) : HeadingSt * outcome :=
  let leaves k t x m b' :=
    {| headingKey := k; headingTime := t; headingTempo := x;
       headingMetronome := m; heading_beamStatus := b' |} in
  let noKey := bool_decide (music21KeySignature = None) in
  let noTime := bool_decide (music21TimeSignature = None) in
  let noTempo := bool_decide (music21TempoText = None) in
  let noMetronome := bool_decide (music21MetronomeMark = None) in
  if noKey && noTime && noTempo && noMetronome
  then (leaves music21KeySignature music21TimeSignature music21TempoText
             music21MetronomeMark b,
        Raises BrailleBasicException)
  else
    let '(tempo', rt) :=
      match music21TempoText with
      | None => (None, Ok None)
      | Some x =>
          let '(x', r) := tempoTextToBraille x 40 in
          (Some x', u <- r ;; Ok (Some u))
      end in
    match rt with
    | Raise e =>
        (leaves music21KeySignature music21TimeSignature tempo'
              music21MetronomeMark b, Raises e)
    | Ok tempoTextTrans =>
        if noKey && noTime && noMetronome then
          (leaves music21KeySignature music21TimeSignature tempo'
                music21MetronomeMark b,
           match tempoTextTrans with
           | None => Raises AttributeError
           | Some tempoTextStr =>
               layout (splitlines tempoTextStr)
                      (Z.of_nat (length tempoTextStr) <=? maxLineLength - 6) []
                      maxLineLength
           end)
        else
          let '(metronome', b', rm) :=
            match music21MetronomeMark with
            | None => (None, b, Ok [])
            | Some m =>
                let '(m', b', r) := metronomeMarkToBraille m b in
                (Some m', b', u <- r ;; Ok [u])
            end in
          match rm with
          | Raise e =>
              (leaves music21KeySignature music21TimeSignature tempo'
                    metronome' b', Raises e)
          | Ok otherTrans =>
              let '(k', t', rs) :=
                transcribeSignatures music21KeySignature music21TimeSignature
                                     None in
              let st := leaves k' t' tempo' metronome' b' in
              let others :=
                match rs with
                | Ok keyAndTimeSig =>
                    Ok (otherTrans
                        ++ (if noMetronome then [] else [sym_space L])
                        ++ [keyAndTimeSig])
                | Raise BrailleBasicException =>
                    if noMetronome && noTempo
                    then Raise BrailleBasicException
                    else Ok otherTrans
                | Raise e => Raise e
                end in
              match others with
              | Raise e => (st, Raises e)
              | Ok otherTrans =>
                  let otherTransStr := concat otherTrans in
                  (st,
                   match tempoTextTrans with
                   | None =>
                       centered (center otherTransStr maxLineLength (sym_space L))
                   | Some tempoTextStr =>
                       layout (splitlines tempoTextStr ++ [otherTransStr])
                              (Z.of_nat (length tempoTextStr)
                               + Z.of_nat (length otherTransStr) + 1
                               <=? maxLineLength - 6)
                              (sym_space L) maxLineLength
                   end)
              end
          end
    end.

(** [brailleUnicodeToSymbols]: one cell as three pairs of symbols. *)
Definition symbolTrans (filledSymbol emptySymbol : ustr) (dots : string)
  : result ustr :=
  if String.eqb dots "00" then Ok (emptySymbol ++ emptySymbol)
  else if String.eqb dots "01" then Ok (emptySymbol ++ filledSymbol)
  else if String.eqb dots "10" then Ok (filledSymbol ++ emptySymbol)
  else if String.eqb dots "11" then Ok (filledSymbol ++ filledSymbol)
  else Raise KeyError.

Definition symbolsCell (filledSymbol emptySymbol : ustr) (char : N)
  : result (ustr * ustr * ustr) :=
  rows <- getitem (binary_dots L char) ;;
  let '(dots14, dots25, dots36) := rows in
  s14 <- symbolTrans filledSymbol emptySymbol dots14 ;;
  s25 <- symbolTrans filledSymbol emptySymbol dots25 ;;
  s36 <- symbolTrans filledSymbol emptySymbol dots36 ;;
  Ok (s14, s25, s36).

(** The four entries that one line adds to [binaryLines]. *)
Definition symbolsLine (filledSymbol emptySymbol : ustr) (sampleLine : ustr)
  : result (list ustr) :=
  cols <- mapM (symbolsCell filledSymbol emptySymbol) sampleLine ;;
  Ok [join [32; 32]%N (map (fun c => c.1.1) cols);
      join [32; 32]%N (map (fun c => c.1.2) cols);
      join [32; 32]%N (map (fun c => c.2) cols);
      []].

Definition brailleUnicodeToSymbols (brailleUnicode filledSymbol emptySymbol : ustr)
  : result ustr :=
  binaryLines <- mapM (symbolsLine filledSymbol emptySymbol)
                      (splitlines brailleUnicode) ;;
  Ok (join [10%N] (removelast (concat binaryLines))).

End Headings.

(** ** The specification's wording of three rules, for comparison *)

(** The number of natural signs of a key-signature cancellation as the
    specification words it, for incoming count [i] and outgoing [o];
    [None] is no cancellation. *)
Definition spec_naturals (i o : Z) : option Z :=
  if (i =? 0) || (o =? 0) || ((i <? 0) && (0 <? o)) || ((0 <? i) && (o <? 0))
  then Some (Z.abs o)
  else if Z.abs i <=? Z.abs o then Some (Z.abs (o - i))
  else None.

(** The specification's test for the extra dot 3: the right dot of the
    top row of a cell. *)
Definition spec_topRowRightDot (L : Lookup) (c : N) : bool :=
  match binary_dots L c with
  | Some (dots14, _, _) => String.eqb dots14 "01" || String.eqb dots14 "11"
  | None => false
  end.




(** ** A concrete table and host *)

(** A braille cell from its dot numbers, in the braille block of
    Unicode: dot [k] is bit [k - 1]. *)
Definition DOC (ds : list Z) : N :=
  fold_left (fun acc d => acc + 2 ^ Z.to_N (d - 1))%N ds 10240%N.

Definition cells (l : list (list Z)) : ustr := map DOC l.

Fixpoint assoc {A} (l : list (string * A)) (k : string) : option A :=
  match l with
  | [] => None
  | (k', v) :: l' => if String.eqb k' k then Some v else assoc l' k
  end.

Fixpoint assocZ {A} (l : list (Z * A)) (k : Z) : option A :=
  match l with
  | [] => None
  | (k', v) :: l' => if k' =? k then Some v else assocZ l' k
  end.

(** The braille ASCII character of each of the 64 cells, in cell order. *)
Definition brailleAsciiCodes : list N :=
  [32; 65; 49; 66; 39; 75; 50; 76; 64; 67; 73; 70; 47; 77; 83; 80;
   34; 69; 51; 72; 57; 79; 54; 82; 94; 68; 74; 71; 62; 78; 84; 81;
   44; 42; 53; 60; 45; 85; 56; 86; 46; 37; 91; 36; 43; 88; 33; 38;
   59; 58; 52; 92; 48; 90; 55; 40; 95; 63; 87; 93; 35; 89; 41; 61]%N.

Definition row (c : N) (l r : N) : string :=
  String (if N.testbit c l then "1" else "0")%char
    (String (if N.testbit c r then "1" else "0")%char EmptyString).

(** The eighth-note cell of each step; a quarter adds dot 6, a half
    dot 3, a whole both. *)
Definition stepDots : list (string * list Z) :=
  [("C", [1; 4; 5]); ("D", [1; 5]); ("E", [1; 2; 4]); ("F", [1; 2; 4; 5]);
   ("G", [1; 2; 5]); ("A", [2; 4]); ("B", [2; 4; 5])].

Definition lettersDots : list (string * list Z) :=
  [("a", [1]); ("b", [1; 2]); ("c", [1; 4]); ("d", [1; 4; 5]); ("e", [1; 5]);
   ("f", [1; 2; 4]); ("g", [1; 2; 4; 5]); ("h", [1; 2; 5]); ("i", [2; 4]);
   ("j", [2; 4; 5]); ("k", [1; 3]); ("l", [1; 2; 3]); ("m", [1; 3; 4]);
   ("n", [1; 3; 4; 5]); ("o", [1; 3; 5]); ("p", [1; 2; 3; 4]);
   ("q", [1; 2; 3; 4; 5]); ("r", [1; 2; 3; 5]); ("s", [2; 3; 4]);
   ("t", [2; 3; 4; 5]); ("u", [1; 3; 6]); ("v", [1; 2; 3; 6]);
   ("w", [2; 4; 5; 6]); ("x", [1; 3; 4; 6]); ("y", [1; 3; 4; 5; 6]);
   ("z", [1; 3; 5; 6]); (",", [2]); (".", [2; 5; 6])].

(** Modelled from the spec: the tables of [music21.braille.lookup], a
    module that is not among the sources.  The cell codec is the
    bijection between the 64 cells and braille ASCII, [binary_dots] gives
    the three rows of a cell, and the glyphs are the ones that the
    doctests of [basic.py] print (with the standard signs for the
    articulations, which no doctest shows). *)
Definition sampleLookup : Lookup := {|
  accidentals := assoc [("sharp", cells [[1; 4; 6]]); ("flat", cells [[1; 2; 6]]);
                        ("natural", cells [[1; 6]])];
  alphabet := fun c => cells <$> ((fun d => [d]) <$> assoc lettersDots (String c EmptyString));
  ascii_chars := combine (map (fun i => 10240 + N.of_nat i)%N (seq 0 64)) brailleAsciiCodes;
  barlines := assoc [("final", cells [[1; 2; 6]; [1; 3]]);
                     ("double", cells [[1; 2; 6]; [1; 3]; [3]]);
                     ("heavy", cells [[1; 2; 3]])];
  beatUnits := assocZ [(2, cells [[2; 3]]); (4, cells [[2; 5; 6]]);
                       (8, cells [[2; 3; 6]])];
  beforeNoteExpr := assoc [("staccato", cells [[2; 3; 6]]);
                           ("accent", cells [[4; 6]; [2; 3; 6]]);
                           ("tenuto", cells [[4; 5; 6]; [2; 3; 6]]);
                           ("staccatissimo", cells [[6]; [2; 3; 6]])];
  clefs_prefix := cells [[3; 4; 5]];
  clefs_sign :=
    assoc [("G", assocZ [(2, cells [[3; 4]])]);
           ("C", assocZ [(1, cells [[3; 4; 6]; [4]]); (3, cells [[3; 4; 6]]);
                         (4, cells [[3; 4; 6]; [5]])]);
           ("F", assocZ [(4, cells [[3; 4; 5; 6]])])];
  clefs_suffix := fun changeSuffix =>
    if changeSuffix then cells [[1; 3]] else cells [[1; 2; 3]];
  fingerMarks := assoc [("1", cells [[1]]); ("2", cells [[1; 2]]);
                        ("3", cells [[1; 2; 3]]); ("4", cells [[2]]);
                        ("5", cells [[1; 3]])];
  intervals := assocZ [(2, cells [[3; 4]]); (3, cells [[3; 4; 6]]);
                       (4, cells [[3; 4; 5; 6]]); (5, cells [[3; 5]]);
                       (6, cells [[3; 5; 6]]); (7, cells [[2; 5]]);
                       (8, cells [[3; 6]])];
  keySignatures :=
    assocZ [(-3, cells [[1; 2; 6]; [1; 2; 6]; [1; 2; 6]]);
            (-2, cells [[1; 2; 6]; [1; 2; 6]]); (-1, cells [[1; 2; 6]]);
            (0, []); (1, cells [[1; 4; 6]]); (2, cells [[1; 4; 6]; [1; 4; 6]]);
            (3, cells [[1; 4; 6]; [1; 4; 6]; [1; 4; 6]]);
            (4, cells [[3; 4; 5; 6]; [1; 4; 5]; [1; 4; 6]]);
            (5, cells [[3; 4; 5; 6]; [1; 5]; [1; 4; 6]])];
  naturals :=
    assocZ [(0, []); (1, cells [[1; 6]]); (2, cells [[1; 6]; [1; 6]]);
            (3, cells [[1; 6]; [1; 6]; [1; 6]]);
            (4, cells [[3; 4; 5; 6]; [1; 4; 5]; [1; 6]]);
            (5, cells [[3; 4; 5; 6]; [1; 5]; [1; 6]])];
  numbers := assocZ [(0, cells [[2; 4; 5]]); (1, cells [[1]]); (2, cells [[1; 2]]);
                     (3, cells [[1; 4]]); (4, cells [[1; 4; 5]]); (5, cells [[1; 5]]);
                     (6, cells [[1; 2; 4]]); (7, cells [[1; 2; 4; 5]]);
                     (8, cells [[1; 2; 5]]); (9, cells [[2; 4]])];
  octaves := assocZ [(1, cells [[4]]); (2, cells [[4; 5]]); (3, cells [[4; 5; 6]]);
                     (4, cells [[5]]); (5, cells [[4; 6]]); (6, cells [[5; 6]]);
                     (7, cells [[6]])];
  pitchNameToNotes := fun st =>
    (fun ds => assoc [("eighth", cells [ds]); ("quarter", cells [ds ++ [6]]);
                      ("half", cells [ds ++ [3]]);
                      ("whole", cells [ds ++ [3; 6]])])
      <$> assoc stepDots st;
  rests := assoc [("eighth", cells [[1; 3; 4; 6]]); ("quarter", cells [[1; 2; 3; 6]]);
                  ("half", cells [[1; 3; 6]]); ("whole", cells [[1; 3; 4]])];
  textExpressions := assoc [("cresc.", cells [[3; 4; 5]; [1; 4]; [1; 2; 3; 5]; [3]])];
  binary_dots := fun c =>
    if ((10240 <=? c) && (c <? 10304))%N
    then Some (row c 0 3, row c 1 4, row c 2 5) else None;
  symbols := assoc [("common", cells [[4; 6]; [1; 4]]); ("c", cells [[4; 6]; [1; 4]]);
                    ("cut", cells [[4; 5; 6]; [1; 4]])];
  sym_basic_exception := cells [[3; 4; 5]; [2; 3; 6]];
  sym_dot := cells [[3]];
  sym_word := cells [[3; 4; 5]];
  sym_space := cells [[]];
  sym_number := cells [[3; 4; 5; 6]];
  sym_uppercase := cells [[6]];
  sym_triplet := cells [[2; 3]];
  sym_tie := cells [[4]; [1; 4]];
  sym_finger_change := cells [[1; 4]];
  sym_first_set_missing_fingermark := cells [[6]];
  sym_second_set_missing_fingermark := cells [[3]];
  sym_opening_single_slur := cells [[1; 4]];
  sym_opening_double_slur := cells [[1; 4]; [1; 4]];
  sym_closing_double_slur := cells [[1; 4]];
  sym_opening_bracket_slur := cells [[5; 6]; [1; 2]];
  sym_closing_bracket_slur := cells [[4; 5]; [2; 3]]
|}.

Definition stepNumber (st : string) : Z :=
  default 0 (assoc [("C", 0); ("D", 1); ("E", 2); ("F", 3); ("G", 4);
                    ("A", 5); ("B", 6)] st).

Definition stepSemitone (st : string) : Z :=
  default 0 (assoc [("C", 0); ("D", 2); ("E", 4); ("F", 5); ("G", 7);
                    ("A", 9); ("B", 11)] st).

Definition alter (a : option Accidental) : Z :=
  match a with
  | Some acc => default 0 (assoc [("sharp", 1); ("flat", -1); ("natural", 0);
                                  ("double-sharp", 2); ("double-flat", -2)]
                                 (acc_name acc))
  | None => 0
  end.

Definition diatonicNoteNum (p : Pitch) : Z :=
  stepNumber (step p) + 1 + 7 * default 4 (octave p).

Definition ps (p : Pitch) : Z :=
  12 * (default 4 (octave p) + 1) + stepSemitone (step p) + alter (accidental p).

(** Modelled from the spec: the interval and pitch arithmetic of the
    host library ([music21.interval], [music21.pitch]), which is not
    among the sources.  The generic interval counts scale steps with both
    ends included (a unison is 1, an octave 8); pitches are ordered by
    pitch space; a pitch without octave sounds in octave 4. *)
Definition sampleHost : Host := {|
  genericUndirected := fun a b => Z.abs (diatonicNoteNum b - diatonicNoteNum a) + 1;
  pitch_lt := fun a b => ps a <? ps b
|}.

Definition mkPitch (st : string) (o : Z) (a : option Accidental) : Pitch :=
  {| step := st; octave := Some o; accidental := a |}.

Definition mkDuration (ty : string) : Duration :=
  {| dur_type := ty; dots := 0; tuplets := []; isGrace := false |}.

Definition mkNote (p : Pitch) (d : Duration) (arts : list string) : Note :=
  {| pitch := p; duration := d;
     articulations := map (fun nm => {| art_name := nm |}) arts;
     fingering := None; tie := None; attrs := ∅;
     note_brailleEnglish := None |}.

(** ** Auxiliary predicates *)

(** A line without line boundary. *)
Definition plain (l : ustr) : Prop := Forall (fun c => is_linebreak c = false) l.

(** Lines that [splitlines] gives back from their join. *)
Definition lines_wf (ls : list ustr) : Prop :=
  Forall plain ls /\ last ls <> Some [].

(** Strings whose only line boundary is the line feed and that do not
    end in one. *)
Definition unix_lines (s : ustr) : Prop :=
  Forall (fun c => is_linebreak c = true -> c = 10%N) s /\ last s <> Some 10%N.

(** The element carries an explanation log. *)
Definition has_english (e : Element) : bool :=
  match e with
  | EClef c => bool_decide (is_Some (clef_brailleEnglish c))
  | EDynamic d => bool_decide (is_Some (dynamic_brailleEnglish d))
  | ETextExpression x => bool_decide (is_Some (text_brailleEnglish x))
  | _ => false
  end.

(** The pairs of consecutive elements that the specification names for
    the extra dot 3: the previous element is a shown clef, or a dynamic
    not followed by a dynamic or a text expression, or a text expression
    that does not end in a period and is not followed by a dynamic or a
    text expression. *)
Definition spec_dot3_context (show : bool) (previous current : Element) : bool :=
  match previous with
  | EClef _ => show
  | EDynamic _ => negb (isDynamic current) && negb (isTextExpression current)
  | ETextExpression x =>
      match lastChar (content x) with
      | Some c => negb (Ascii.eqb c ".")
      | None => false
      end && negb (isDynamic current) && negb (isTextExpression current)
  | _ => false
  end.

Definition mkDynamic (v : string) : Dynamic :=
  {| value := v; dynamic_brailleEnglish := None |}.

Definition mkRest (ty : string) : Rest :=
  {| rest_duration := mkDuration ty; rest_brailleEnglish := None |}.

Definition mkClef (cls : string) (no treble bass : bool) (sg : string) (ln : Z)
  : Clef :=
  {| clef_class := {| className := cls; isNoClef := no;
                      isTrebleClef := treble; isBassClef := bass |};
     sign := sg; line := ln; clef_brailleEnglish := None |}.

Definition mkChord (l : list Pitch) (d : Duration) : Chord :=
  {| notes := map (fun p => mkNote p d []) l; chord_duration := d;
     chord_brailleEnglish := None |}.

Definition mkGrouping (l : list Element) (descending show upperFirst : bool)
  : Grouping :=
  {| elements := l; descendingChords := Some descending;
     showClefSigns := Some show; upperFirstInNoteFingering := Some upperFirst |}.



(** What the turn for the element at [i] leaves of the loop's state
    before it compares the element with the one before: the index of
    that one, the attribute [showClefSigns] and every other element. *)
Definition others_kept (i : nat) (s s' : GroupSt) : Prop :=
  previousElement s' = previousElement s
  /\ showClefSigns (brailleElementGrouping s')
     = showClefSigns (brailleElementGrouping s)
  /\ forall j, j <> i ->
       elements (brailleElementGrouping s') !! j
       = elements (brailleElementGrouping s) !! j.

(** The grouping of the dynamic [f] and a quarter rest at the turn of
    the rest, and what [encodeElement] leaves of it. *)
Definition sampleDot3St : GroupSt :=
  {| brailleElementGrouping :=
       mkGrouping [EDynamic (with_dynamic_english (mkDynamic "f") []);
                   ERest (mkRest "quarter")] true false true;
     group_beamStatus := ∅;
     trans := [cells [[3; 4; 5]; [1; 2; 4]]];
     previousNote := None;
     previousElement := Some 0%nat;
     showLeadingOctave := true |}.

Definition sampleDot3Encoded : GroupSt * result unit :=
  encodeElement sampleLookup sampleHost 1 (ERest (mkRest "quarter")) sampleDot3St.

(** ** Relations on runs of the state monad *)

(** Every run of [m] relates the state it starts from to the state it
    ends in, whether it returns or raises. *)
Definition keeps {S A} (R : S -> S -> Prop) (m : SM S A) : Prop :=
  forall s, R s (fst (m s)).

(** What [noteToBraille] never writes: every attribute of the note but
    its explanation log and the order of its articulations. *)
Definition same_music (n n' : Note) : Prop :=
  pitch n' = pitch n /\ duration n' = duration n
  /\ fingering n' = fingering n /\ tie n' = tie n /\ attrs n' = attrs n.

Definition note_kept (s s' : NoteSt) : Prop :=
  same_music (music21Note s) (music21Note s')
  /\ articulations (music21Note s') = articulations (music21Note s).

Definition note_sorted (s s' : NoteSt) : Prop :=
  same_music (music21Note s) (music21Note s')
  /\ (articulations (music21Note s') = articulations (music21Note s)
      \/ articulations (music21Note s')
         = sorted name_lt (articulations (music21Note s))).

(** Two states of the note encoder that differ at most in entries of
    [beamStatus] under other keys than the seven keywords. *)
Definition agree (s1 s2 : NoteSt) : Prop :=
  music21Note s1 = music21Note s2 /\ noteTrans s1 = noteTrans s2
  /\ forall k, In k falseKeywords -> beamStatus s1 !! k = beamStatus s2 !! k.

(** Runs of [m] from two such states end in two such states with the
    same outcome. *)
Definition respects {A} (m : SM NoteSt A) : Prop :=
  forall s1 s2, agree s1 s2 ->
    agree (fst (m s1)) (fst (m s2)) /\ snd (m s1) = snd (m s2).

(** The value of a keyword as the loop over [falseKeywords] stores it. *)
Definition flag (n : Note) (keyword : string) : bool :=
  default false (attrs n !! keyword).

(** A state of the call for the note [n0] after the loop over
    [falseKeywords]: the log exists, the articulations are [arts], and
    every keyword is in [beamStatus] with the value of the note's
    attribute ([beamContinue] may have been reset since). *)
Definition ready (n0 : Note) (arts : list Articulation) (s : NoteSt) : Prop :=
  same_music n0 (music21Note s)
  /\ articulations (music21Note s) = arts
  /\ is_Some (note_brailleEnglish (music21Note s))
  /\ (forall k, In k falseKeywords -> k <> "beamContinue" ->
                beamStatus s !! k = Some (flag n0 k))
  /\ is_Some (beamStatus s !! "beamContinue").

(** From a ready state [m] returns a value [a] after appending the
    strings [ws] to [noteTrans], with [Q a ws], and leaves a ready
    state. *)
Definition runs {A} (n0 : Note) (arts : list Articulation)
  (Q : A -> list ustr -> Prop) (m : SM NoteSt A) : Prop :=
  forall s, ready n0 arts s ->
    exists s' a ws, m s = (s', Ok a) /\ Q a ws /\ ready n0 arts s'
                    /\ noteTrans s' = noteTrans s ++ ws.

(** The signs that [noteToBraille] writes before the note name. *)
Definition openingSigns (L : Lookup) (n : Note) : list ustr :=
  (if flag n "beginLongBracketSlur" then [sym_opening_bracket_slur L]
   else if flag n "beginLongDoubleSlur" then [sym_opening_double_slur L]
   else [])
  ++ (if flag n "endLongBracketSlur" && flag n "beginLongBracketSlur"
      then [sym_closing_bracket_slur L] else []).

Definition articulationSign (L : Lookup) (a : Articulation) : list ustr :=
  match beforeNoteExpr L (art_name a) with
  | Some g => [g]
  | None => []
  end.

Definition staccatoSigns (L : Lookup) (arts : list Articulation) : list ustr :=
  flat_map (fun a => if isStaccato (art_name a) then articulationSign L a else [])
           arts.

Definition otherSigns (L : Lookup) (arts : list Articulation) : list ustr :=
  flat_map (fun a => if isStaccato (art_name a) then [] else articulationSign L a)
           (sorted name_lt arts).

Definition name_le (a b : Articulation) : Prop :=
  String.leb (art_name a) (art_name b) = true.

(** What [noteToBraille] does after the loop over [falseKeywords]. *)
Definition afterKeywords (L : Lookup) (showOctave upperFirstInFingering : bool)
  : SM NoteSt ustr :=
  openingSlurs L >>>
  tripletBlock L >>>
  articulationsBlock L >>>
  accidentalBlock L >>>
  octaveBlock L showOctave >>>
  returned <~ nameAndDuration L ;;
  match returned with
  | Some r => sret r
  | None =>
      fingeringBlock L upperFirstInFingering >>>
      closingSlurs L >>>
      tieBlock L >>>
      trans <~ theTrans ;;
      sret (concat trans)
  end.

(** The state in which the loop over [falseKeywords] starts. *)
Definition entry_state (n : Note) (b : gmap string bool) : NoteSt :=
  {| music21Note := with_note_english n (Some []); beamStatus := b;
     noteTrans := [] |}.

(** The first note of a beamed triplet: D sharp 4, a quarter, with a
    tenuto, a staccato and an accent. *)
Definition sampleTripletNote : Note :=
  {| pitch := mkPitch "D" 4 (Some {| acc_name := "sharp"; displayStatus := None |});
     duration := {| dur_type := "quarter"; dots := 0; tuplets := ["Triplet"];
                    isGrace := false |};
     articulations := [{| art_name := "tenuto" |}; {| art_name := "staccato" |};
                       {| art_name := "accent" |}];
     fingering := None; tie := None;
     attrs := {["beamStart" := true]};
     note_brailleEnglish := None |}.

(** ** Objects without their explanation log *)

Definition clear_barline (x : Barline) : Barline :=
  {| style := style x; barline_brailleEnglish := None |}.

Definition clear_rest (x : Rest) : Rest :=
  {| rest_duration := rest_duration x; rest_brailleEnglish := None |}.

Definition clear_clef (x : Clef) : Clef :=
  {| clef_class := clef_class x; sign := sign x; line := line x;
     clef_brailleEnglish := None |}.

Definition clear_dynamic (x : Dynamic) : Dynamic :=
  {| value := value x; dynamic_brailleEnglish := None |}.

Definition clear_text (x : TextExpression) : TextExpression :=
  {| content := content x; text_brailleEnglish := None |}.

Definition clear_key (x : KeySignature) : KeySignature :=
  {| sharps := sharps x; key_brailleEnglish := None |}.

Definition clear_time (x : TimeSignature) : TimeSignature :=
  {| ts_symbol := ts_symbol x; numerator := numerator x;
     denominator := denominator x; time_brailleEnglish := None |}.

Definition clear_note (x : Note) : Note := with_note_english x None.

Definition clear_chord (x : Chord) : Chord := with_chord_english x None.

(** A note up to its explanation log and the order of its
    articulations. *)
Definition note_kept_reordered (n n' : Note) : Prop :=
  same_music n n' /\ Permutation (articulations n) (articulations n').

(** An element of a grouping up to the explanation logs and the order
    of the articulations of a note. *)
Definition element_kept (e e' : Element) : Prop :=
  match e, e' with
  | ENote n, ENote n' => note_kept_reordered n n'
  | ERest r, ERest r' => clear_rest r' = clear_rest r
  | EChord c, EChord c' => clear_chord c' = clear_chord c
  | EDynamic d, EDynamic d' => clear_dynamic d' = clear_dynamic d
  | ETextExpression x, ETextExpression x' => clear_text x' = clear_text x
  | EBarline b, EBarline b' => clear_barline b' = clear_barline b
  | EClef c, EClef c' => clear_clef c' = clear_clef c
  | EOther, EOther => True
  | _, _ => False
  end.

(** A grouping up to its elements, kept one by one, and to the three
    attributes, which are as they were or hold the defaults. *)
Definition grouping_kept (g g' : Grouping) : Prop :=
  Forall2 element_kept (elements g) (elements g')
  /\ ((descendingChords g' = descendingChords g
       /\ showClefSigns g' = showClefSigns g
       /\ upperFirstInNoteFingering g' = upperFirstInNoteFingering g)
      \/ (descendingChords g' = Some true
          /\ showClefSigns g' = Some false
          /\ upperFirstInNoteFingering g' = Some true)).

Definition group_kept (s s' : GroupSt) : Prop :=
  Forall2 element_kept (elements (brailleElementGrouping s))
                       (elements (brailleElementGrouping s'))
  /\ descendingChords (brailleElementGrouping s')
     = descendingChords (brailleElementGrouping s)
  /\ showClefSigns (brailleElementGrouping s')
     = showClefSigns (brailleElementGrouping s)
  /\ upperFirstInNoteFingering (brailleElementGrouping s')
     = upperFirstInNoteFingering (brailleElementGrouping s).

(** The chord encoder writes the log of its chord and nothing else. *)
Definition chord_kept (s s' : ChordSt) : Prop :=
  clear_chord (music21Chord s') = clear_chord (music21Chord s).

(** ** Runs that do not raise [AttributeError] *)

(** From a state with [I], [m] ends in a state with [I] and does not
    raise [AttributeError]. *)
Definition steady {S A} (I : S -> Prop) (m : SM S A) : Prop :=
  forall s, I s -> I (fst (m s)) /\ snd (m s) <> Raise AttributeError.

Definition logged (s : NoteSt) : Prop :=
  is_Some (note_brailleEnglish (music21Note s)).

Definition chord_logged (s : ChordSt) : Prop :=
  is_Some (chord_brailleEnglish (music21Chord s)).

(** The elements after which the dot 3 is considered: dynamics, text
    expressions and, when clef signs are shown, clefs. *)
Definition triggers (show : bool) (e : Element) : bool :=
  isDynamic e || isTextExpression e || (isClef e && show).

(** The element at [k], if the dot 3 is considered after it, has its
    explanation log. *)
Definition encoded_at (show : bool) (s : GroupSt) (k : nat) : Prop :=
  forall e, elements (brailleElementGrouping s) !! k = Some e ->
            triggers show e = true -> has_english e = true.

(** The three attributes are set, and the previous element has been
    encoded. *)
Definition attempt_ok (show : bool) (s : GroupSt) : Prop :=
  is_Some (descendingChords (brailleElementGrouping s))
  /\ showClefSigns (brailleElementGrouping s) = Some show
  /\ is_Some (upperFirstInNoteFingering (brailleElementGrouping s))
  /\ forall j, previousElement s = Some j -> encoded_at show s j.

(** The grouping and the index of the previous element are the same in
    both states. *)
Definition same_grouping (s s' : GroupSt) : Prop :=
  brailleElementGrouping s' = brailleElementGrouping s
  /\ previousElement s' = previousElement s.

(** [m] leaves the grouping as it is and does not raise
    [AttributeError]. *)
Definition quiet {A} (m : SM GroupSt A) : Prop :=
  forall s, same_grouping s (fst (m s)) /\ snd (m s) <> Raise AttributeError.

(** A turn of the loop: no [AttributeError], the three attributes and
    the index of the previous element stay, and what was encoded stays
    encoded. *)
Definition turn_ok (show : bool) (s s' : GroupSt) {A} (r : result A) : Prop :=
  r <> Raise AttributeError
  /\ previousElement s' = previousElement s
  /\ descendingChords (brailleElementGrouping s')
     = descendingChords (brailleElementGrouping s)
  /\ showClefSigns (brailleElementGrouping s')
     = showClefSigns (brailleElementGrouping s)
  /\ upperFirstInNoteFingering (brailleElementGrouping s')
     = upperFirstInNoteFingering (brailleElementGrouping s)
  /\ forall k, encoded_at show s k -> encoded_at show s' k.

(** ** Definitions for the properties of the other encoders *)

(** Rests and barlines: the elements that the grouping encoder
    transcribes on their own. *)
Definition standsAlone (e : Element) : bool :=
  match e with
  | ERest _ | EBarline _ => true
  | _ => false
  end.

(** What [restToBraille] or [barlineToBraille] returns for such an
    element. *)
Definition ownSign (L : Lookup) (e : Element) : result ustr :=
  match e with
  | ERest r => (restToBraille L r).2
  | EBarline x => (barlineToBraille L x).2
  | _ => Ok []
  end.

(** The two variables of the loop that decide on the octave mark of the
    next note are the same in both states. *)
Definition same_octave_state (s s' : GroupSt) : Prop :=
  previousNote s' = previousNote s
  /\ showLeadingOctave s' = showLeadingOctave s.

(** A grouping that opens with the dynamic [f] before a quarter C4, in
    a loop that has just written a D4 and would not show an octave. *)
Definition sampleOpeningSt : GroupSt :=
  {| brailleElementGrouping :=
       mkGrouping [EDynamic (mkDynamic "f");
                   ENote (mkNote (mkPitch "C" 4 None) (mkDuration "quarter") [])]
                  true false true;
     group_beamStatus := ∅; trans := [];
     previousNote := Some (mkNote (mkPitch "D" 4 None) (mkDuration "quarter") []);
     previousElement := None; showLeadingOctave := false |}.

(** The signs of a note that has no articulations and no beam or slur
    attributes, part by part. *)
Definition accidentalSigns (L : Lookup) (n : Note) : list ustr :=
  match accidental (pitch n) with
  | Some acc =>
      match displayStatus acc with
      | Some false => []
      | _ => match accidentals L (acc_name acc) with
             | Some g => [g]
             | None => []
             end
      end
  | None => []
  end.

Definition octaveSigns (L : Lookup) (showOctave : bool) (n : Note) : list ustr :=
  if showOctave then
    match octaveMark L (octave (pitch n)) with
    | Ok g => [g]
    | Raise _ => []
    end
  else [].

Definition fingeringSigns (L : Lookup) (upperFirstInFingering : bool) (n : Note)
  : list ustr :=
  match fingering n with
  | Some f =>
      match transcribeNoteFingering L f upperFirstInFingering with
      | Ok g => [g]
      | Raise _ => []
      end
  | None => []
  end.

Definition tieSigns (L : Lookup) (n : Note) : list ustr :=
  match tie n with
  | Some ty => if negb (String.eqb ty "stop") then [sym_tie L] else []
  | None => []
  end.

(** [beamStatus['beamContinue']], once false, is false afterwards. *)
Definition stays_off (s s' : NoteSt) : Prop :=
  beamStatus s !! "beamContinue" = Some false ->
  beamStatus s' !! "beamContinue" = Some false.

(** D sharp 4, a quarter, with nothing else set. *)
Definition samplePlainNote : Note :=
  mkNote (mkPitch "D" 4 (Some {| acc_name := "sharp"; displayStatus := None |}))
         (mkDuration "quarter") [].

(** A line that [str.center] has made of [content]: the content between
    two runs of the fill character that differ by one at most, [width]
    long when the content is shorter. *)
Definition centered_line (c : N) (width : Z) (content l : ustr) : Prop :=
  exists nl nr : nat,
    l = repeat c nl ++ content ++ repeat c nr
    /\ (nl <= nr + 1)%nat /\ (nr <= nl + 1)%nat
    /\ Z.of_nat (length l) = Z.max width (Z.of_nat (length content)).

(** Modelled from the spec: [sampleLookup] with the metronome sign that
    the doctest of [metronomeMarkToBraille] prints. *)
Definition headingLookup : Lookup := {|
  accidentals := accidentals sampleLookup;
  alphabet := alphabet sampleLookup;
  ascii_chars := ascii_chars sampleLookup;
  barlines := barlines sampleLookup;
  beatUnits := beatUnits sampleLookup;
  beforeNoteExpr := beforeNoteExpr sampleLookup;
  clefs_prefix := clefs_prefix sampleLookup;
  clefs_sign := clefs_sign sampleLookup;
  clefs_suffix := clefs_suffix sampleLookup;
  fingerMarks := fingerMarks sampleLookup;
  intervals := intervals sampleLookup;
  keySignatures := keySignatures sampleLookup;
  naturals := naturals sampleLookup;
  numbers := numbers sampleLookup;
  octaves := octaves sampleLookup;
  pitchNameToNotes := pitchNameToNotes sampleLookup;
  rests := rests sampleLookup;
  textExpressions := textExpressions sampleLookup;
  binary_dots := binary_dots sampleLookup;
  symbols := fun k => if String.eqb k "metronome" then Some (cells [[2; 3; 5; 6]])
                      else symbols sampleLookup k;
  sym_basic_exception := sym_basic_exception sampleLookup;
  sym_dot := sym_dot sampleLookup;
  sym_word := sym_word sampleLookup;
  sym_space := sym_space sampleLookup;
  sym_number := sym_number sampleLookup;
  sym_uppercase := sym_uppercase sampleLookup;
  sym_triplet := sym_triplet sampleLookup;
  sym_tie := sym_tie sampleLookup;
  sym_finger_change := sym_finger_change sampleLookup;
  sym_first_set_missing_fingermark := sym_first_set_missing_fingermark sampleLookup;
  sym_second_set_missing_fingermark := sym_second_set_missing_fingermark sampleLookup;
  sym_opening_single_slur := sym_opening_single_slur sampleLookup;
  sym_opening_double_slur := sym_opening_double_slur sampleLookup;
  sym_closing_double_slur := sym_closing_double_slur sampleLookup;
  sym_opening_bracket_slur := sym_opening_bracket_slur sampleLookup;
  sym_closing_bracket_slur := sym_closing_bracket_slur sampleLookup
|}.

(** The metronome mark of the doctests: 135 eighth notes a minute. *)
Definition sampleMetronomeMark : MetronomeMark :=
  {| referent := mkDuration "eighth"; number := 135;
     metronome_brailleEnglish := None |}.

(** The two quarter notes C4 and D4, transcribed one after the other. *)
Definition sampleFirst : Note * gmap string bool * result ustr :=
  noteToBraille sampleLookup
    (mkNote (mkPitch "C" 4 None) (mkDuration "quarter") []) true true ∅.

Definition sampleSecond : Note * gmap string bool * result ustr :=
  noteToBraille sampleLookup
    (mkNote (mkPitch "D" 4 None) (mkDuration "quarter") [])
    (showOctaveWithNote sampleHost
       (Some (mkNote (mkPitch "C" 4 None) (mkDuration "quarter") []))
       (mkNote (mkPitch "D" 4 None) (mkDuration "quarter") []))
    true sampleFirst.1.2.

(** * Properties *)

(** ** The octave heuristic *)

Lemma octave_eqb_eq (a b : option Z) : octave_eqb a b = true <-> a = b.
Proof.
  destruct a as [x|], b as [y|]; simpl; split; intros E;
    try discriminate; try reflexivity.
  - apply Z.eqb_eq in E. now subst.
  - injection E as ->. apply Z.eqb_refl.
Qed.

(** C1: [showOctaveWithNote] depends on the two pitches only; with [g]
    the undirected generic interval between them it answers true exactly
    when [g >= 6], or [g] is 4 or 5 and the octaves of the two pitches
    differ; and it answers true whenever the previous note is [None]. *)
Theorem C1_showOctaveWithNote_rule (H : Host) (previous current : Note) :
  let g := genericUndirected H (pitch previous) (pitch current) in
  (showOctaveWithNote H (Some previous) current = true <->
     (6 <= g \/ ((g = 4 \/ g = 5) /\
                 octave (pitch previous) <> octave (pitch current))))
  /\ showOctaveWithNote H None current = true
  /\ (forall previous' current' : Note,
        pitch previous' = pitch previous -> pitch current' = pitch current ->
        showOctaveWithNote H (Some previous') current'
        = showOctaveWithNote H (Some previous) current).
Proof.
  intros g. split; [|split].
  - unfold showOctaveWithNote. fold g.
    destruct (octave_eqb (octave (pitch previous)) (octave (pitch current)))
      eqn:Eo.
    + apply octave_eqb_eq in Eo.
      destruct (6 <=? g) eqn:E6; simpl.
      * apply Z.leb_le in E6. tauto.
      * apply Z.leb_gt in E6. rewrite andb_false_r. simpl.
        split; [discriminate|]. intros [?|[_ Hne]]; [lia|congruence].
    + assert (Hne : octave (pitch previous) <> octave (pitch current)).
      { intros E. apply octave_eqb_eq in E. congruence. }
      destruct (6 <=? g) eqn:E6; simpl.
      * apply Z.leb_le in E6. tauto.
      * apply Z.leb_gt in E6. rewrite andb_true_r.
        destruct (g =? 4) eqn:E4; simpl.
        { apply Z.eqb_eq in E4. tauto. }
        destruct (g =? 5) eqn:E5; simpl.
        { apply Z.eqb_eq in E5. tauto. }
        apply Z.eqb_neq in E4, E5. split; [discriminate|].
        intros [?|[[?|?] _]]; lia.
  - reflexivity.
  - intros previous' current' Hp Hc. unfold showOctaveWithNote.
    now rewrite Hp, Hc.
Qed.

(** ** Key-signature cancellation *)

Lemma div_abs_sgn (z : Z) : z <> 0 -> z / Z.abs z = Z.sgn z.
Proof.
  intros Hz. destruct (Z.lt_trichotomy z 0) as [Hneg|[->|Hpos]]; [|lia|].
  - rewrite Z.abs_neq, Z.sgn_neg by lia.
    symmetry. apply Z.div_unique_exact; lia.
  - rewrite Z.abs_eq, Z.sgn_pos by lia. apply Z.div_same; lia.
Qed.

Lemma cancellation_test (i o : Z) :
  (i =? 0) || (o =? 0) || negb (o / Z.abs o =? i / Z.abs i)
  = (i =? 0) || (o =? 0) || ((i <? 0) && (0 <? o)) || ((0 <? i) && (o <? 0)).
Proof.
  destruct (i =? 0) eqn:Ei; [reflexivity|].
  destruct (o =? 0) eqn:Eo; [reflexivity|].
  apply Z.eqb_neq in Ei, Eo. simpl.
  rewrite !div_abs_sgn by assumption.
  destruct (Z.lt_trichotomy i 0) as [Hi|[?|Hi]]; [|lia|];
    destruct (Z.lt_trichotomy o 0) as [Ho|[?|Ho]]; try lia;
    repeat first [rewrite (Z.sgn_neg i) by lia | rewrite (Z.sgn_pos i) by lia
                 | rewrite (Z.sgn_neg o) by lia | rewrite (Z.sgn_pos o) by lia];
    repeat match goal with
      | |- context [?a <? ?b] =>
          let E := fresh in destruct (a <? b) eqn:E;
          [apply Z.ltb_lt in E | apply Z.ltb_ge in E]; try lia
      end; reflexivity.
Qed.

(** C4: with a representable incoming count [i] and an outgoing
    signature of count [o] whose cancellation is in the table of
    naturals, [keySigToBraille] returns the base glyph prefixed by [|o|]
    naturals when [i] and [o] lie on opposite sides of zero or one of
    them is zero, by [|o - i|] naturals when they have the same sign and
    [|o| >= |i|], and by nothing otherwise. *)
Theorem C4_keySig_cancellation (L : Lookup) (incoming outgoing : KeySignature)
  (base : ustr) :
  keySignatures L (sharps incoming) = Some base ->
  (forall n, spec_naturals (sharps incoming) (sharps outgoing) = Some n ->
             is_Some (naturals L n)) ->
  snd (keySigToBraille L incoming (Some outgoing))
  = Ok (match spec_naturals (sharps incoming) (sharps outgoing) with
        | Some n => default [] (naturals L n)
        | None => []
        end ++ base).
Proof.
  intros Hbase Hnat. unfold keySigToBraille. rewrite Hbase.
  rewrite cancellation_test. unfold spec_naturals in *.
  destruct ((sharps incoming =? 0) || (sharps outgoing =? 0)
            || ((sharps incoming <? 0) && (0 <? sharps outgoing))
            || ((0 <? sharps incoming) && (sharps outgoing <? 0))).
  - destruct (Hnat _ eq_refl) as [g Hg]. now rewrite Hg.
  - destruct (Z.abs (sharps incoming) <=? Z.abs (sharps outgoing)).
    + destruct (Hnat _ eq_refl) as [g Hg]. now rewrite Hg.
    + reflexivity.
Qed.

Lemma C4_keySig_cancellation_witness :
  snd (keySigToBraille sampleLookup
         {| sharps := 0; key_brailleEnglish := None |}
         (Some {| sharps := -3; key_brailleEnglish := None |}))
  = Ok (cells [[1; 6]; [1; 6]; [1; 6]]).
Proof.
  apply (C4_keySig_cancellation sampleLookup
           {| sharps := 0; key_brailleEnglish := None |}
           {| sharps := -3; key_brailleEnglish := None |} []).
  - reflexivity.
  - intros n Hn. vm_compute in Hn. injection Hn as <-. vm_compute. eauto.
Defined.

(** ** Fingering with an absent mark *)

Lemma split_two_not_single (sep : ascii) (s t0 t1 : string) :
  split sep s = [t0; t1] -> String.length s = 1%nat ->
  t0 = EmptyString /\ t1 = EmptyString.
Proof.
  destruct s as [|c [|c' s']]; simpl; try discriminate.
  destruct (Ascii.eqb c sep); intros E _; now simplify_eq.
Qed.

(** C7, as the code has it: in a comma choice of two tokens of which one
    is ["x"] and the other a finger mark, the two glyphs come out in the
    given order when [upperFirstInFingering] is true and reversed when it
    is false, and the glyph that stands for the absent mark follows the
    place where it comes out: the first-set sign when it is emitted
    first, the second-set sign when it is emitted second. *)
Theorem C7_fingering_absence (L : Lookup) (s t0 t1 m : string) (g : ustr)
  (upperFirstInFingering : bool) :
  split "," s = [t0; t1] ->
  (t0 = "x" /\ t1 = m) \/ (t0 = m /\ t1 = "x") ->
  fingerMarks L "x" = None ->
  fingerMarks L m = Some g ->
  split "-" m = [m] ->
  transcribeNoteFingering L s upperFirstInFingering
  = Ok (if Bool.eqb (String.eqb t0 "x") upperFirstInFingering
        then sym_first_set_missing_fingermark L ++ g
        else g ++ sym_second_set_missing_fingermark L).
Proof.
  intros Hs Hx Hnone Hm Hplain.
  assert (Hmx : String.eqb m "x" = false).
  { apply String.eqb_neq. intros ->. congruence. }
  unfold transcribeNoteFingering.
  destruct (Nat.eqb (String.length s) 1) eqn:El.
  { apply Nat.eqb_eq in El.
    destruct (split_two_not_single _ _ _ _ Hs El) as [-> ->].
    destruct Hx as [[? _]|[_ ?]]; discriminate. }
  rewrite Hs. simpl.
  destruct Hx as [[-> ->]|[-> ->]]; rewrite ?Hmx; simpl;
    destruct upperFirstInFingering; simpl;
    unfold fingeringChoice; rewrite ?Hplain; simpl;
    rewrite ?Hnone, ?Hm; simpl; now rewrite ?app_nil_r.
Qed.

Lemma C7_fingering_absence_witness :
  transcribeNoteFingering sampleLookup "x,4" false
  = Ok (cells [[2]] ++ sym_second_set_missing_fingermark sampleLookup).
Proof.
  apply (C7_fingering_absence sampleLookup "x,4" "x" "4" "4" (cells [[2]]) false);
    try reflexivity.
  left. split; reflexivity.
Defined.

(** C7 as stated fails: for ["x,4"] the absent mark is first in the
    given order under both settings, yet no single sign stands for it in
    both results. *)
Lemma C7_counterexample :
  ~ (exists placeholder : ustr,
       transcribeNoteFingering sampleLookup "x,4" true
       = Ok (placeholder ++ cells [[2]])
       /\ transcribeNoteFingering sampleLookup "x,4" false
          = Ok (cells [[2]] ++ placeholder)).
Proof.
  intros [placeholder [Hup Hdown]].
  vm_compute in Hup, Hdown.
  destruct placeholder as [|c [|c' p]]; simplify_eq.
Qed.

(** ** The ASCII codec *)

Lemma dict_get_set_eq (d : list (N * N)) (k v : N) :
  dict_get (dict_set d k v) k = Some v.
Proof.
  induction d as [|[k' v'] d IH]; simpl.
  - now rewrite N.eqb_refl.
  - destruct (k' =? k)%N eqn:E; simpl.
    + now rewrite N.eqb_refl.
    + now rewrite E.
Qed.

Lemma dict_get_set_ne (d : list (N * N)) (k v k' : N) :
  k <> k' -> dict_get (dict_set d k v) k' = dict_get d k'.
Proof.
  intros Hne. induction d as [|[k0 v0] d IH]; simpl.
  - apply N.eqb_neq in Hne. now rewrite Hne.
  - destruct (k0 =? k)%N eqn:E; simpl.
    + apply N.eqb_eq in E. subst k0.
      apply N.eqb_neq in Hne. now rewrite Hne.
    + now rewrite IH.
Qed.

Lemma dict_get_In (d : list (N * N)) (k v : N) :
  dict_get d k = Some v -> In (k, v) d.
Proof.
  induction d as [|[k' v'] d IH]; simpl; [discriminate|].
  destruct (k' =? k)%N eqn:E.
  - apply N.eqb_eq in E. intros [= ->]. subst. now left.
  - intros Hd. right. now apply IH.
Qed.

Lemma invert_keeps (l acc : list (N * N)) (v : N) :
  ~ In v (map snd l) ->
  dict_get (fold_left (fun d kv => dict_set d (snd kv) (fst kv)) l acc) v
  = dict_get acc v.
Proof.
  revert acc. induction l as [|[k0 v0] l IH]; intros acc Hv; simpl in *.
  - reflexivity.
  - rewrite IH by tauto. apply dict_get_set_ne. tauto.
Qed.

Lemma invert_finds (l acc : list (N * N)) (k v : N) :
  List.NoDup (map snd l) -> In (k, v) l ->
  dict_get (fold_left (fun d kv => dict_set d (snd kv) (fst kv)) l acc) v
  = Some k.
Proof.
  revert acc. induction l as [|[k0 v0] l IH]; intros acc Hnd Hin; simpl in *.
  - contradiction.
  - apply List.NoDup_cons_iff in Hnd as [Hfresh Hnd].
    destruct Hin as [[= -> ->]|Hin].
    + rewrite invert_keeps by assumption. apply dict_get_set_eq.
    + now apply IH.
Qed.

Lemma mapM_Forall2 {A B} (f : A -> result B) (l : list A) (l' : list B) :
  Forall2 (fun x y => f x = Ok y) l l' -> mapM f l = Ok l'.
Proof.
  induction 1 as [|x y l l' Hxy _ IH]; simpl.
  - reflexivity.
  - now rewrite Hxy, IH.
Qed.

Lemma splitlines_go_plain (l cur rest : ustr) :
  plain l -> splitlines_go cur (l ++ rest) = splitlines_go (rev l ++ cur) rest.
Proof.
  revert cur. induction l as [|c l IH]; intros cur Hl; simpl.
  - reflexivity.
  - apply Forall_cons in Hl as [Hc Hl]. rewrite Hc, IH by assumption.
    now rewrite <- app_assoc.
Qed.

Lemma splitlines_join (ls : list ustr) :
  lines_wf ls -> splitlines (join [10%N] ls) = ls.
Proof.
  unfold splitlines. intros [Hplain Hlast].
  induction ls as [|l ls IH]; [reflexivity|].
  apply Forall_cons in Hplain as [Hl Hls].
  destruct ls as [|l2 ls].
  - simpl. rewrite <- (app_nil_r l) at 1.
    rewrite splitlines_go_plain by assumption. simpl. rewrite app_nil_r.
    destruct (rev l) eqn:E.
    + apply (f_equal (@rev N)) in E. rewrite rev_involutive in E.
      simpl in E. subst l. now contradiction Hlast.
    + rewrite <- E. now rewrite rev_involutive.
  - change (join [10%N] (l :: l2 :: ls))
      with (l ++ 10%N :: join [10%N] (l2 :: ls)).
    rewrite splitlines_go_plain by assumption.
    cbn [splitlines_go is_linebreak N.eqb orb Pos.eqb].
    rewrite app_nil_r, rev_involutive. f_equal.
    apply IH; assumption.
Qed.

Lemma splitlines_go_nonempty (cur s : ustr) :
  s <> [] -> splitlines_go cur s <> [].
Proof.
  revert cur. induction s as [|c s IH]; intros cur Hs; [congruence|].
  simpl. destruct (is_linebreak c); [discriminate|].
  destruct s as [|c' s]; [|apply IH; discriminate].
  simpl. discriminate.
Qed.

Lemma unix_lines_tail (c : N) (s : ustr) :
  unix_lines (c :: s) -> s <> [] -> unix_lines s.
Proof.
  intros [Hall Hlast] Hs. split.
  - now apply Forall_cons in Hall.
  - destruct s; [congruence|]. exact Hlast.
Qed.

Lemma join_splitlines_go (s cur : ustr) :
  unix_lines s -> plain cur ->
  join [10%N] (splitlines_go cur s) = rev cur ++ s
  /\ Forall plain (splitlines_go cur s)
  /\ last (splitlines_go cur s) <> Some [].
Proof.
  revert cur. induction s as [|c s IH]; intros cur Hs Hcur.
  - simpl. destruct cur as [|c0 cur]; simpl.
    + repeat split; [constructor|discriminate].
    + rewrite app_nil_r. repeat split.
      * constructor; [|constructor]. apply Forall_rev in Hcur. exact Hcur.
      * intros [= E]. destruct (rev cur); discriminate.
  - destruct (decide (s = [])) as [->|Hne].
    + destruct Hs as [Hall Hlast]. simpl in Hlast.
      apply Forall_cons in Hall as [Hc _].
      assert (Hb : is_linebreak c = false).
      { destruct (is_linebreak c); [|reflexivity].
        specialize (Hc eq_refl). congruence. }
      simpl. rewrite Hb. simpl. repeat split.
      * constructor; [|constructor].
        apply Forall_app. split; [now apply Forall_rev|].
        constructor; [assumption|constructor].
      * intros [= E]. destruct (rev cur); discriminate.
    + pose proof (unix_lines_tail _ _ Hs Hne) as Hs'.
      destruct Hs as [Hall _]. apply Forall_cons in Hall as [Hc _].
      destruct (is_linebreak c) eqn:Hb.
      * specialize (Hc eq_refl). subst c.
        cbn [splitlines_go is_linebreak N.eqb orb Pos.eqb].
        destruct (IH [] Hs' ltac:(constructor)) as (Hj & Hp & Hl).
        pose proof (splitlines_go_nonempty [] s Hne) as Hgo.
        destruct (splitlines_go [] s) as [|l ls] eqn:E; [congruence|].
        repeat split.
        -- change (join [10%N] (rev cur :: l :: ls))
             with (rev cur ++ 10%N :: join [10%N] (l :: ls)).
           now rewrite Hj.
        -- constructor; [now apply Forall_rev|assumption].
        -- exact Hl.
      * simpl. rewrite Hb.
        destruct (IH (c :: cur) Hs' ltac:(now constructor)) as (Hj & Hp & Hl).
        repeat split; try assumption.
        rewrite Hj. simpl. now rewrite <- app_assoc.
Qed.

Lemma in_join (sep : ustr) (ls : list ustr) (l : ustr) (c : N) :
  In l ls -> In c l -> In c (join sep ls).
Proof.
  induction ls as [|l0 ls IH]; intros Hl Hc; [contradiction|].
  destruct ls as [|l1 ls].
  - destruct Hl as [->|[]]. exact Hc.
  - change (join sep (l0 :: l1 :: ls)) with (l0 ++ sep ++ join sep (l1 :: ls)).
    destruct Hl as [->|Hl].
    + apply in_or_app. now left.
    + apply in_or_app. right. apply in_or_app. right. now apply IH.
Qed.

Lemma last_Forall2 {A B} (P : A -> B -> Prop) (xs : list A) (ys : list B)
  (x0 : A) (y0 : B) :
  Forall2 P xs ys -> (forall x, P x y0 -> x = x0) ->
  last xs <> Some x0 -> last ys <> Some y0.
Proof.
  intros HF Hinv. induction HF as [|x y xs ys Hxy HF IH]; [easy|].
  destruct HF as [|x' y' xs ys Hxy' HF].
  - simpl. intros Hx [= ->]. apply Hx. f_equal. now apply Hinv.
  - intros Hx. apply IH. exact Hx.
Qed.

Section Codec.

Variable L : Lookup.

(** The table as the specification describes it: no two cells share an
    ASCII character, the ASCII characters are in their canonical (upper)
    case, and neither column holds a line boundary. *)
Hypothesis values_distinct : List.NoDup (map snd (ascii_chars L)).
Hypothesis table_chars :
  Forall (fun kv => upper (snd kv) = snd kv
                    /\ is_linebreak (fst kv) = false
                    /\ is_linebreak (snd kv) = false) (ascii_chars L).

Lemma cell_roundtrip (c v : N) :
  dict_get (ascii_chars L) c = Some v ->
  dict_get (braille_chars L) (upper v) = Some c.
Proof.
  intros Hc. apply dict_get_In in Hc.
  pose proof (proj1 (List.Forall_forall _ _) table_chars _ Hc) as (Hup & _).
  simpl in Hup. rewrite Hup. unfold braille_chars.
  now apply invert_finds.
Qed.

Lemma encode_line (l : ustr) :
  Forall (fun c => is_Some (dict_get (ascii_chars L) c)) l ->
  exists a,
    mapM (fun char => getitem (dict_get (ascii_chars L) char)) l = Ok a
    /\ mapM (fun char => getitem (dict_get (braille_chars L) (upper char))) a
       = Ok l
    /\ plain a /\ (a = [] -> l = []).
Proof.
  induction 1 as [|c l [v Hv] _ (a & He & Hd & Hp & Hn)].
  - exists []. repeat split; constructor.
  - exists (v :: a). simpl. rewrite Hv, He. simpl.
    rewrite (cell_roundtrip _ _ Hv), Hd. simpl.
    repeat split; [|discriminate].
    constructor; [|exact Hp].
    apply dict_get_In in Hv.
    now pose proof (proj1 (List.Forall_forall _ _) table_chars _ Hv)
      as (_ & _ & ?).
Qed.

Lemma encode_lines (ls : list ustr) :
  Forall (Forall (fun c => is_Some (dict_get (ascii_chars L) c))) ls ->
  exists als,
    mapM (fun sampleLine =>
            mapM (fun char => getitem (dict_get (ascii_chars L) char)) sampleLine)
         ls = Ok als
    /\ mapM (fun sampleLine =>
               mapM (fun char =>
                       getitem (dict_get (braille_chars L) (upper char)))
                    sampleLine)
            als = Ok ls
    /\ Forall plain als
    /\ Forall2 (fun l a => a = [] -> l = []) ls als.
Proof.
  induction 1 as [|l ls Hl _ (als & He & Hd & Hp & Hn)].
  - exists []. repeat split; constructor.
  - destruct (encode_line l Hl) as (a & Hea & Hda & Hpa & Hna).
    exists (a :: als). simpl. rewrite Hea, He. simpl. rewrite Hda, Hd.
    repeat split; constructor; assumption.
Qed.

(** C2, as the code has it: decoding the ASCII character of a cell of
    the table gives the cell back, and a string made of cells of the
    table and line feeds that does not end in a line feed is returned
    unchanged by [brailleUnicodeToBrailleAscii] followed by
    [brailleAsciiToBrailleUnicode]. *)
Theorem C2_codec_roundtrip :
  (forall c v : N,
      dict_get (ascii_chars L) c = Some v ->
      dict_get (braille_chars L) (upper v) = Some c)
  /\ (forall s : ustr,
        Forall (fun c => c = 10%N \/ is_Some (dict_get (ascii_chars L) c)) s ->
        last s <> Some 10%N ->
        rbind (brailleUnicodeToBrailleAscii L s) (brailleAsciiToBrailleUnicode L)
        = Ok s).
Proof.
  split; [exact cell_roundtrip|].
  intros s Hs Hlast.
  assert (Hunix : unix_lines s).
  { split; [|exact Hlast].
    eapply Forall_impl; [exact Hs|]. intros c [->|[v Hv]] Hb; [reflexivity|].
    apply dict_get_In in Hv.
    pose proof (proj1 (List.Forall_forall _ _) table_chars _ Hv) as (_ & Hk & _).
    simpl in Hk. congruence. }
  destruct (join_splitlines_go s [] Hunix ltac:(constructor))
    as (Hjoin & Hplain & Hl).
  fold (splitlines s) in Hjoin, Hplain, Hl. simpl in Hjoin.
  assert (Hkeys : Forall (Forall (fun c => is_Some (dict_get (ascii_chars L) c)))
                         (splitlines s)).
  { apply List.Forall_forall. intros l Hin. apply List.Forall_forall.
    intros c Hc.
    pose proof (in_join [10%N] _ _ _ Hin Hc) as Hcs. rewrite Hjoin in Hcs.
    destruct (proj1 (List.Forall_forall _ _) Hs _ Hcs) as [->|Hv]; [|exact Hv].
    pose proof (proj1 (List.Forall_forall _ _) Hplain _ Hin) as Hpl.
    pose proof (proj1 (List.Forall_forall _ _) Hpl _ Hc) as Hb.
    discriminate. }
  destruct (encode_lines _ Hkeys) as (als & He & Hd & Hp & Hn).
  unfold brailleUnicodeToBrailleAscii, brailleAsciiToBrailleUnicode.
  rewrite He. simpl.
  rewrite splitlines_join.
  - rewrite Hd. simpl. now rewrite Hjoin.
  - split; [exact Hp|].
    eapply last_Forall2; [exact Hn| |exact Hl].
    intros x Hx. now apply Hx.
Qed.

End Codec.

Lemma C2_codec_roundtrip_witness :
  rbind (brailleUnicodeToBrailleAscii sampleLookup
           (cells [[1; 4; 6]; [5]] ++ [10%N] ++ cells [[1; 4; 5]]))
        (brailleAsciiToBrailleUnicode sampleLookup)
  = Ok (cells [[1; 4; 6]; [5]] ++ [10%N] ++ cells [[1; 4; 5]]).
Proof.
  apply (C2_codec_roundtrip sampleLookup).
  - apply NoDup_ListNoDup. apply (bool_decide_unpack _). vm_compute. exact I.
  - vm_compute. repeat (constructor; [repeat split; reflexivity|]). constructor.
  - vm_compute. repeat (constructor; [first [left; reflexivity | right; eauto]|]).
    constructor.
  - vm_compute. discriminate.
Defined.

(** C2 as stated fails on a string that ends in a line feed: the line
    feed is lost. *)
Lemma C2_counterexample :
  rbind (brailleUnicodeToBrailleAscii sampleLookup (cells [[1]] ++ [10%N]))
        (brailleAsciiToBrailleUnicode sampleLookup)
  <> Ok (cells [[1]] ++ [10%N]).
Proof. vm_compute. discriminate. Qed.

(** ** Folded intervals of a chord *)






(** ** The extra dot 3 between elements *)

(** The comparison with the element before, once the current element
    is written: when the string written last starts with the cell [c],
    a dot 3 is inserted just before that string exactly when one of the
    three rows of [c] has its left dot raised. *)
Lemma disambiguate_dot3 (L : Lookup) (s : GroupSt)
  (previous current : Element) (j : nat) (show : bool)
  (t : list ustr) (c : N) (u : ustr) (dots14 dots25 dots36 : string) :
  previousElement s = Some j ->
  elements (brailleElementGrouping s) !! j = Some previous ->
  showClefSigns (brailleElementGrouping s) = Some show ->
  spec_dot3_context show previous current = true ->
  has_english previous = true ->
  trans s = t ++ [c :: u] ->
  binary_dots L c = Some (dots14, dots25, dots36) ->
  exists s',
    disambiguate L current s = (s', Ok tt)
    /\ trans s'
       = if leftDot dots14 || leftDot dots25 || leftDot dots36
         then t ++ [sym_dot L; c :: u]
         else t ++ [c :: u].
Proof.
  intros Hj Hprev Hshow Hctx Heng Htrans Hdots.
  assert (Hdot3 : exists s',
             dot3 L j previous s = (s', Ok tt)
             /\ trans s'
                = if leftDot dots14 || leftDot dots25 || leftDot dots36
                  then t ++ [sym_dot L; c :: u]
                  else t ++ [c :: u]).
  { unfold dot3, sbind, sget, slift, set_trans, store, smodify, sret.
    rewrite Htrans, last_snoc. simpl. rewrite Hdots. simpl.
    destruct (leftDot dots14 || leftDot dots25 || leftDot dots36).
    - unfold insert_before_last. rewrite last_snoc, removelast_last.
      destruct previous as [| | |d|x| |cl|]; simpl in Heng; try discriminate;
        apply bool_decide_eq_true in Heng as [tr Htr]; simpl; rewrite Htr;
        simpl; eexists; split; reflexivity.
    - eexists. split; [reflexivity|]. exact Htrans. }
  unfold disambiguate, sbind at 1, sget. rewrite Hj, Hprev.
  unfold sbind at 1, attribute. rewrite Hshow.
  destruct previous as [| | |d|x| |cl|]; simpl in Hctx; try discriminate.
  - simpl. rewrite andb_false_r. simpl. rewrite Hctx. exact Hdot3.
  - simpl. rewrite andb_false_r. simpl.
    destruct (lastChar (content x)) as [ch|]; [|discriminate].
    apply andb_prop in Hctx as [Hctx Ht]. apply andb_prop in Hctx as [Hch Hd].
    rewrite Hd, Ht, Hch. exact Hdot3.
  - simpl. subst show. exact Hdot3.
Qed.

(** C8 as stated fails: after the dynamic [f] a quarter rest gets the
    dot 3, although the right dot of the top row of its cell (dot 4) is
    not raised. *)
Lemma C8_counterexample :
  snd <$> transcribeNoteGrouping sampleLookup sampleHost
            (mkGrouping [EDynamic (mkDynamic "f"); ERest (mkRest "quarter")]
                        true false true) true ∅
  = Some (Ok (cells [[3; 4; 5]; [1; 2; 4]; [3]; [1; 2; 3; 6]]))
  /\ spec_topRowRightDot sampleLookup (DOC [1; 2; 3; 6]) = false.
Proof. split; vm_compute; reflexivity. Qed.

(** ** The grouping encoder on an empty last string *)

(** C3 at the failing input: with clef signs shown, a treble clef
    followed by a [NoClef] makes [transcribeNoteGrouping] raise
    [IndexError], because the string written last is empty. *)
Lemma C3_grouping_raises :
  snd <$> transcribeNoteGrouping sampleLookup sampleHost
            (mkGrouping [EClef (mkClef "TrebleClef" false true false "G" 2);
                         EClef (mkClef "NoClef" true false false "" 0)]
                        true true true) true ∅
  = Some (Raise IndexError).
Proof. vm_compute. reflexivity. Qed.

(** ** What the note encoder leaves alone *)

Section Keeps.

Context {S : Type} (R : S -> S -> Prop).
Hypothesis R_refl : forall s, R s s.
Hypothesis R_trans : forall s1 s2 s3, R s1 s2 -> R s2 s3 -> R s1 s3.

Lemma keeps_ret {A} (a : A) : keeps R (sret a).
Proof. intros s. apply R_refl. Qed.

Lemma keeps_lift {A} (r : result A) : keeps R (slift r).
Proof. intros s. apply R_refl. Qed.

Lemma keeps_modify (f : S -> S) : (forall s, R s (f s)) -> keeps R (smodify f).
Proof. intros Hf s. apply Hf. Qed.

Lemma keeps_bind {A B} (m : SM S A) (k : A -> SM S B) :
  keeps R m -> (forall a, keeps R (k a)) -> keeps R (sbind m k).
Proof.
  intros Hm Hk s. unfold sbind. specialize (Hm s).
  destruct (m s) as [s' [a|e]]; simpl in *.
  - eapply R_trans; [exact Hm|apply Hk].
  - exact Hm.
Qed.

Lemma keeps_catch {A} (m h : SM S A) (e : exn) :
  keeps R m -> keeps R h -> keeps R (scatch m e h).
Proof.
  intros Hm Hh s. unfold scatch. specialize (Hm s).
  destruct (m s) as [s' [a|e']]; simpl in *; [exact Hm|].
  destruct (exn_eqb e' e); [|exact Hm].
  eapply R_trans; [exact Hm|apply Hh].
Qed.

Lemma keeps_forM {A} (f : A -> SM S unit) (l : list A) :
  (forall x, keeps R (f x)) -> keeps R (sforM f l).
Proof.
  intros Hf. induction l as [|x l IH]; simpl.
  - apply keeps_ret.
  - apply keeps_bind; [apply Hf|intros _; exact IH].
Qed.

End Keeps.

Lemma same_music_refl (n : Note) : same_music n n.
Proof. repeat split. Qed.

Lemma same_music_trans (n1 n2 n3 : Note) :
  same_music n1 n2 -> same_music n2 n3 -> same_music n1 n3.
Proof.
  intros (?&?&?&?&?) (?&?&?&?&?). repeat split; congruence.
Qed.

Lemma note_kept_refl (s : NoteSt) : note_kept s s.
Proof. split; [apply same_music_refl|reflexivity]. Qed.

Lemma note_kept_trans (s1 s2 s3 : NoteSt) :
  note_kept s1 s2 -> note_kept s2 s3 -> note_kept s1 s3.
Proof.
  intros [H1 E1] [H2 E2]. split; [eapply same_music_trans; eassumption|].
  congruence.
Qed.

Lemma keeps_append (u : ustr) : keeps note_kept (append u).
Proof. intros s. split; [apply same_music_refl|reflexivity]. Qed.

Lemma keeps_english (e : entry) : keeps note_kept (english e).
Proof.
  intros s. unfold english.
  destruct (note_brailleEnglish (music21Note s)); simpl;
    repeat split; reflexivity.
Qed.

Lemma keeps_beam (k : string) : keeps note_kept (beam k).
Proof. intros s. apply note_kept_refl. Qed.

Lemma keeps_theNote : keeps note_kept theNote.
Proof. intros s. apply note_kept_refl. Qed.

Lemma keeps_theTrans : keeps note_kept theTrans.
Proof. intros s. apply note_kept_refl. Qed.

Lemma keeps_on_beamStatus (f : gmap string bool -> gmap string bool) :
  keeps note_kept (smodify (on_beamStatus f)).
Proof. intros s. split; [apply same_music_refl|reflexivity]. Qed.

Ltac keeps_step :=
  first
    [ apply keeps_append | apply keeps_english | apply keeps_beam
    | apply keeps_theNote | apply keeps_theTrans | apply keeps_on_beamStatus
    | apply (keeps_ret _ note_kept_refl)
    | apply (keeps_lift _ note_kept_refl)
    | apply (keeps_bind _ note_kept_trans); [|intros ?]
    | apply (keeps_catch _ note_kept_trans)
    | apply (keeps_forM _ note_kept_refl note_kept_trans); intros ?
    | match goal with
      | |- keeps _ (if ?b then _ else _) => destruct b
      | |- keeps _ (match ?x with _ => _ end) => destruct x
      end ].

Ltac keeps_auto := repeat keeps_step.

Section NoteKeeps.

Variable L : Lookup.

Lemma keeps_initBeamStatus : keeps note_kept initBeamStatus.
Proof. unfold initBeamStatus. keeps_auto. Qed.

Lemma keeps_openingSlurs : keeps note_kept (openingSlurs L).
Proof. unfold openingSlurs. keeps_auto. Qed.

Lemma keeps_tripletBlock : keeps note_kept (tripletBlock L).
Proof. unfold tripletBlock. keeps_auto. Qed.

Lemma keeps_staccatoFirst (a : Articulation) : keeps note_kept (staccatoFirst L a).
Proof. unfold staccatoFirst. keeps_auto. Qed.

Lemma keeps_otherArticulation (a : Articulation) :
  keeps note_kept (otherArticulation L a).
Proof. unfold otherArticulation. keeps_auto. Qed.

Lemma keeps_accidentalBlock : keeps note_kept (accidentalBlock L).
Proof. unfold accidentalBlock. keeps_auto. Qed.

Lemma keeps_octaveBlock (showOctave : bool) :
  keeps note_kept (octaveBlock L showOctave).
Proof. unfold octaveBlock. keeps_auto. Qed.

Lemma keeps_nameAndDuration : keeps note_kept (nameAndDuration L).
Proof. unfold nameAndDuration. keeps_auto. Qed.

Lemma keeps_fingeringBlock (upperFirstInFingering : bool) :
  keeps note_kept (fingeringBlock L upperFirstInFingering).
Proof. unfold fingeringBlock. keeps_auto. Qed.

Lemma keeps_closingSlurs : keeps note_kept (closingSlurs L).
Proof. unfold closingSlurs. keeps_auto. Qed.

Lemma keeps_tieBlock : keeps note_kept (tieBlock L).
Proof. unfold tieBlock. keeps_auto. Qed.

Lemma note_kept_sorted (s1 s2 s3 : NoteSt) :
  note_kept s1 s2 -> note_sorted s2 s3 -> note_sorted s1 s3.
Proof.
  intros [H1 E1] [H2 E2]. split; [eapply same_music_trans; eassumption|].
  rewrite <- E1. exact E2.
Qed.

Lemma note_sorted_kept (s1 s2 s3 : NoteSt) :
  note_sorted s1 s2 -> note_kept s2 s3 -> note_sorted s1 s3.
Proof.
  intros [H1 E1] [H2 E2]. split; [eapply same_music_trans; eassumption|].
  rewrite E2. exact E1.
Qed.

Lemma sorts_articulationsBlock : keeps note_sorted (articulationsBlock L).
Proof.
  intros s. unfold articulationsBlock, sbind at 1, theNote.
  destruct (articulations (music21Note s)) as [|a arts] eqn:Earts.
  { simpl. split; [apply same_music_refl|now left]. }
  rewrite <- Earts. unfold sbind at 1.
  pose proof (keeps_forM _ note_kept_refl note_kept_trans
                (staccatoFirst L) (articulations (music21Note s))
                (keeps_staccatoFirst) s) as K1.
  destruct (sforM (staccatoFirst L) (articulations (music21Note s)) s)
    as [s1 [[]|e]]; simpl in K1 |- *.
  2:{ destruct K1 as [K1 E1]. split; [exact K1|now left]. }
  unfold sbind at 1, smodify. unfold sbind at 1.
  pose proof (keeps_forM _ note_kept_refl note_kept_trans
                (otherArticulation L)
                (articulations (music21Note
                   (on_note (fun n => with_articulations n
                               (sorted name_lt (articulations n))) s1)))
                (keeps_otherArticulation)
                (on_note (fun n => with_articulations n
                            (sorted name_lt (articulations n))) s1)) as K2.
  cbn [theNote fst snd] in *.
  eapply note_kept_sorted; [exact K1|].
  eapply note_sorted_kept; [|exact K2].
  split; [repeat split|]. right. reflexivity.
Qed.

End NoteKeeps.

Lemma keeps_compose {S A B} (R1 R2 R3 : S -> S -> Prop)
  (m : SM S A) (k : A -> SM S B) :
  (forall a b, R1 a b -> R3 a b) ->
  (forall a b c, R1 a b -> R2 b c -> R3 a c) ->
  keeps R1 m -> (forall x, keeps R2 (k x)) -> keeps R3 (sbind m k).
Proof.
  intros Hsub Hcomp Hm Hk s. unfold sbind. specialize (Hm s).
  destruct (m s) as [s' [a|e]]; simpl in *.
  - eapply Hcomp; [exact Hm|apply Hk].
  - now apply Hsub.
Qed.

Lemma note_kept_is_sorted (s s' : NoteSt) : note_kept s s' -> note_sorted s s'.
Proof. intros [Hm E]. split; [exact Hm|now left]. Qed.

Lemma keeps_weaken {S A} (R1 R2 : S -> S -> Prop) (m : SM S A) :
  (forall a b, R1 a b -> R2 a b) -> keeps R1 m -> keeps R2 m.
Proof. intros Hsub Hm s. apply Hsub, Hm. Qed.

Lemma sorts_noteToBraille_body (L : Lookup) (showOctave upperFirst : bool) :
  keeps note_sorted (noteToBraille_body L showOctave upperFirst).
Proof.
  unfold noteToBraille_body.
  repeat (apply (keeps_compose note_kept note_sorted note_sorted);
          [exact note_kept_is_sorted | exact note_kept_sorted | | intros _];
          [first [ apply keeps_initBeamStatus | apply keeps_openingSlurs
                 | apply keeps_tripletBlock
                 | intros s; split; [repeat split|reflexivity] ] |]).
  apply (keeps_compose note_sorted note_kept note_sorted);
    [tauto | exact note_sorted_kept | apply sorts_articulationsBlock | intros _].
  repeat first [ apply keeps_accidentalBlock | apply keeps_octaveBlock
               | apply keeps_nameAndDuration | apply keeps_fingeringBlock
               | apply keeps_closingSlurs | apply keeps_tieBlock
               | keeps_step ].
Qed.

(** The note after a call of [noteToBraille] is the note before it up to
    its explanation log and the order of its articulations, which the
    call leaves as they were or sorted by name. *)
Lemma noteToBraille_frame (L : Lookup) (n : Note) (showOctave upperFirst : bool)
  (b : gmap string bool) :
  same_music n (noteToBraille L n showOctave upperFirst b).1.1
  /\ (articulations (noteToBraille L n showOctave upperFirst b).1.1
      = articulations n
      \/ articulations (noteToBraille L n showOctave upperFirst b).1.1
         = sorted name_lt (articulations n)).
Proof.
  pose proof (sorts_noteToBraille_body L showOctave upperFirst
                {| music21Note := n; beamStatus := b; noteTrans := [] |}) as K.
  unfold noteToBraille.
  destruct (noteToBraille_body L showOctave upperFirst _) as [s r].
  exact K.
Qed.

(** ** The note encoder and the contents of [beamStatus] *)

Lemma agree_refl (s : NoteSt) : agree s s.
Proof. repeat split. Qed.

Lemma respects_ret {A} (a : A) : respects (sret a).
Proof. intros s1 s2 Ha. split; [exact Ha|reflexivity]. Qed.

Lemma respects_lift {A} (r : result A) : respects (slift r).
Proof. intros s1 s2 Ha. split; [exact Ha|reflexivity]. Qed.

Lemma respects_bind {A B} (m : SM NoteSt A) (k : A -> SM NoteSt B) :
  respects m -> (forall a, respects (k a)) -> respects (sbind m k).
Proof.
  intros Hm Hk s1 s2 Ha. unfold sbind. destruct (Hm s1 s2 Ha) as [Ha' Hr].
  destruct (m s1) as [s1' r1], (m s2) as [s2' r2]. simpl in *. subst r2.
  destruct r1 as [a|e].
  - apply Hk. exact Ha'.
  - split; [exact Ha'|reflexivity].
Qed.

Lemma respects_catch {A} (m h : SM NoteSt A) (e : exn) :
  respects m -> respects h -> respects (scatch m e h).
Proof.
  intros Hm Hh s1 s2 Ha. unfold scatch. destruct (Hm s1 s2 Ha) as [Ha' Hr].
  destruct (m s1) as [s1' r1], (m s2) as [s2' r2]. simpl in *. subst r2.
  destruct r1 as [a|e'].
  - split; [exact Ha'|reflexivity].
  - destruct (exn_eqb e' e).
    + apply Hh. exact Ha'.
    + split; [exact Ha'|reflexivity].
Qed.

Lemma respects_forM {A} (f : A -> SM NoteSt unit) (l : list A) :
  (forall x, respects (f x)) -> respects (sforM f l).
Proof.
  intros Hf. induction l as [|x l IH]; simpl.
  - apply respects_ret.
  - apply respects_bind; [apply Hf|intros _; exact IH].
Qed.

Lemma respects_append (u : ustr) : respects (append u).
Proof.
  intros [n1 b1 t1] [n2 b2 t2] (Hn & Ht & Hb). simpl in *. subst.
  repeat split; assumption.
Qed.

Lemma respects_english (e : entry) : respects (english e).
Proof.
  intros [n1 b1 t1] [n2 b2 t2] (Hn & Ht & Hb). simpl in *. subst.
  unfold english. simpl.
  destruct (note_brailleEnglish n2); simpl; repeat split; assumption.
Qed.

Lemma respects_beam (k : string) : In k falseKeywords -> respects (beam k).
Proof.
  intros Hk s1 s2 Ha. split; [exact Ha|].
  unfold beam. simpl. destruct Ha as (_ & _ & Hb). now rewrite (Hb k Hk).
Qed.

Lemma respects_theNote : respects theNote.
Proof.
  intros s1 s2 Ha. split; [exact Ha|]. simpl. now destruct Ha as [-> _].
Qed.

Lemma respects_theTrans : respects theTrans.
Proof.
  intros s1 s2 Ha. split; [exact Ha|]. simpl. now destruct Ha as (_ & -> & _).
Qed.

Lemma respects_on_note (f : Note -> Note) : respects (smodify (on_note f)).
Proof.
  intros [n1 b1 t1] [n2 b2 t2] (Hn & Ht & Hb). simpl in *. subst.
  repeat split; assumption.
Qed.

Lemma respects_insert (k : string) (v : bool) :
  respects (smodify (on_beamStatus (fun b => <[k := v]> b))).
Proof.
  intros [n1 b1 t1] [n2 b2 t2] (Hn & Ht & Hb). simpl in *. subst.
  repeat split; try reflexivity.
  intros k' Hk'. simpl. rewrite !lookup_insert.
  destruct (decide (k = k')); [reflexivity|now apply Hb].
Qed.

(** After the loop over a list of keywords, each of them is in the
    dictionary with the value the loop gave it, whatever was there. *)
Lemma init_lookup (v : string -> bool) (l : list string)
  (b : gmap string bool) (k : string) :
  In k l ->
  foldl (fun b keyword => <[keyword := v keyword]> b) b l !! k = Some (v k).
Proof.
  revert b. induction l as [|x l IH]; intros b Hk; [contradiction|].
  simpl. destruct (in_dec string_dec k l) as [Hin|Hout].
  - now apply IH.
  - destruct Hk as [->|]; [|contradiction].
    clear IH. revert b. induction l as [|y l IH]; intros b; simpl.
    + apply lookup_insert_eq.
    + simpl in Hout. rewrite insert_insert_ne by tauto.
      apply IH. tauto.
Qed.

Lemma init_agree (s1 s2 : NoteSt) :
  music21Note s1 = music21Note s2 -> noteTrans s1 = noteTrans s2 ->
  agree (fst (initBeamStatus s1)) (fst (initBeamStatus s2))
  /\ snd (initBeamStatus s1) = snd (initBeamStatus s2).
Proof.
  destruct s1 as [n1 b1 t1], s2 as [n2 b2 t2]. intros Hn Ht.
  cbn [music21Note noteTrans] in Hn, Ht. subst n1 t1.
  unfold initBeamStatus, sbind, theNote, smodify, on_beamStatus.
  cbn [fst snd music21Note beamStatus noteTrans].
  split; [|reflexivity]. split; [reflexivity|]. split; [reflexivity|].
  intros k Hk. cbn [beamStatus].
  now rewrite !(init_lookup (fun kw => default false (attrs n2 !! kw)))
    by assumption.
Qed.

Ltac respects_step :=
  first
    [ apply respects_append | apply respects_english
    | apply respects_beam; simpl; tauto
    | apply respects_theNote | apply respects_theTrans
    | apply respects_on_note | apply respects_insert
    | apply respects_ret | apply respects_lift
    | apply respects_bind; [|intros ?]
    | apply respects_catch
    | apply respects_forM; intros ?
    | match goal with
      | |- respects (if ?b then _ else _) => destruct b
      | |- respects (match ?x with _ => _ end) => destruct x
      end ].

Lemma noteToBraille_body_unfold (L : Lookup) (showOctave upperFirst : bool)
  (n : Note) (b : gmap string bool) :
  noteToBraille_body L showOctave upperFirst
    {| music21Note := n; beamStatus := b; noteTrans := [] |}
  = sbind initBeamStatus (fun _ => afterKeywords L showOctave upperFirst)
      (entry_state n b).
Proof. reflexivity. Qed.

Lemma respects_afterKeywords (L : Lookup) (showOctave upperFirst : bool) :
  respects (afterKeywords L showOctave upperFirst).
Proof.
  unfold afterKeywords, openingSlurs, tripletBlock, articulationsBlock,
    accidentalBlock, octaveBlock, nameAndDuration, fingeringBlock,
    closingSlurs, tieBlock, staccatoFirst, otherArticulation.
  repeat respects_step.
Qed.

(** C10, as the code has it: a call of [noteToBraille] first stores a
    value under each of the seven keywords, the note's attribute or
    False when the note has none, and reads [beamStatus] only afterwards;
    so the string it returns (or the exception it raises), and the note
    it leaves, are the same for the same note and arguments, whatever
    [beamStatus] held when it was called. *)
Theorem C10_note_ignores_beamStatus (L : Lookup) (n : Note)
  (showOctave upperFirstInFingering : bool) (b1 b2 : gmap string bool) :
  (forall keyword, In keyword falseKeywords ->
     beamStatus (fst (initBeamStatus
                        {| music21Note := n; beamStatus := b1; noteTrans := [] |}))
       !! keyword
     = Some (default false (attrs n !! keyword)))
  /\ (noteToBraille L n showOctave upperFirstInFingering b1).2
     = (noteToBraille L n showOctave upperFirstInFingering b2).2
  /\ (noteToBraille L n showOctave upperFirstInFingering b1).1.1
     = (noteToBraille L n showOctave upperFirstInFingering b2).1.1.
Proof.
  split.
  { intros k Hk. unfold initBeamStatus, sbind, theNote, smodify, on_beamStatus.
    cbn [fst snd music21Note beamStatus noteTrans].
    now rewrite (init_lookup (fun kw => default false (attrs n !! kw)))
      by assumption. }
  unfold noteToBraille. rewrite !noteToBraille_body_unfold. unfold sbind.
  destruct (init_agree (entry_state n b1) (entry_state n b2) eq_refl eq_refl)
    as [Ha Hr].
  destruct (initBeamStatus (entry_state n b1)) as [u1 r1].
  destruct (initBeamStatus (entry_state n b2)) as [u2 r2].
  simpl in Ha, Hr. subst r2.
  destruct r1 as [[]|e].
  - destruct (respects_afterKeywords L showOctave upperFirstInFingering u1 u2 Ha)
      as [[Hn' _] Hr'].
    destruct (afterKeywords L showOctave upperFirstInFingering u1) as [v1 q1].
    destruct (afterKeywords L showOctave upperFirstInFingering u2) as [v2 q2].
    split; assumption.
  - destruct Ha as [Hn' _]. split; [reflexivity|exact Hn'].
Qed.

(** C10 as stated fails: a call sorts the articulations of its note in
    place, so a second call on the same note writes staccatissimo before
    staccato where the first wrote them as declared. *)
Lemma C10_counterexample :
  let n := mkNote (mkPitch "C" 4 None) (mkDuration "quarter")
                  ["staccato"; "staccatissimo"] in
  let first := noteToBraille sampleLookup n true true ∅ in
  let second := noteToBraille sampleLookup first.1.1 true true first.1.2 in
  first.2 = Ok (cells [[2; 3; 6]; [6]; [2; 3; 6]; [5]; [1; 4; 5; 6]])
  /\ second.2 = Ok (cells [[6]; [2; 3; 6]; [2; 3; 6]; [5]; [1; 4; 5; 6]])
  /\ first.2 <> second.2.
Proof.
  vm_compute. repeat split. intros E. discriminate E.
Qed.

(** ** The order of the signs before the note name *)

Section Runs.

Variable L : Lookup.
Variable n0 : Note.
Variable arts : list Articulation.

Lemma runs_intro {A} (Q : A -> list ustr -> Prop) (m : SM NoteSt A)
  (s s' : NoteSt) (a : A) (ws : list ustr) :
  m s = (s', Ok a) -> Q a ws -> ready n0 arts s' ->
  noteTrans s' = noteTrans s ++ ws ->
  exists s' a ws, m s = (s', Ok a) /\ Q a ws /\ ready n0 arts s'
                  /\ noteTrans s' = noteTrans s ++ ws.
Proof. intros. exists s', a, ws. auto. Qed.

Lemma runs_ret {A} (Q : A -> list ustr -> Prop) (a : A) :
  Q a [] -> runs n0 arts Q (sret a).
Proof.
  intros HQ s Hs. apply (runs_intro Q _ s s a []); auto using app_nil_r.
Qed.

Lemma runs_bind {A B} (Q1 : A -> list ustr -> Prop) (Q : B -> list ustr -> Prop)
  (m : SM NoteSt A) (k : A -> SM NoteSt B) :
  runs n0 arts Q1 m ->
  (forall a ws1, Q1 a ws1 -> runs n0 arts (fun b ws2 => Q b (ws1 ++ ws2)) (k a)) ->
  runs n0 arts Q (sbind m k).
Proof.
  intros Hm Hk s Hs. destruct (Hm s Hs) as (s1 & a & ws1 & E1 & HQ1 & Hs1 & T1).
  destruct (Hk a ws1 HQ1 s1 Hs1) as (s2 & b & ws2 & E2 & HQ2 & Hs2 & T2).
  apply (runs_intro Q _ s s2 b (ws1 ++ ws2)); auto.
  - unfold sbind. now rewrite E1, E2.
  - now rewrite T2, T1, app_assoc.
Qed.

Lemma runs_weaken {A} (Q Q' : A -> list ustr -> Prop) (m : SM NoteSt A) :
  (forall a ws, Q a ws -> Q' a ws) -> runs n0 arts Q m -> runs n0 arts Q' m.
Proof.
  intros HQ Hm s Hs. destruct (Hm s Hs) as (s1 & a & ws & E & H1 & H2 & H3).
  apply (runs_intro Q' _ s s1 a ws); auto.
Qed.

Lemma runs_catch {A} (Q : A -> list ustr -> Prop) (m h : SM NoteSt A) (e : exn) :
  runs n0 arts Q m -> runs n0 arts Q (scatch m e h).
Proof.
  intros Hm s Hs. destruct (Hm s Hs) as (s1 & a & ws & E & H1 & H2 & H3).
  apply (runs_intro Q _ s s1 a ws); auto. unfold scatch. now rewrite E.
Qed.

Lemma runs_catch_raise {A B} (Q : A -> list ustr -> Prop)
  (k : B -> SM NoteSt A) (h : SM NoteSt A) (e : exn) :
  runs n0 arts Q h -> runs n0 arts Q (scatch (sbind (slift (Raise e)) k) e h).
Proof.
  intros Hh s Hs. destruct (Hh s Hs) as (s1 & a & ws & E & H1 & H2 & H3).
  apply (runs_intro Q _ s s1 a ws); auto. unfold scatch, sbind, slift.
  destruct e; simpl; exact E.
Qed.

Lemma runs_lift {A} (Q : A -> list ustr -> Prop) (a : A) :
  Q a [] -> runs n0 arts Q (slift (Ok a)).
Proof. apply runs_ret. Qed.

Lemma runs_append (Q : unit -> list ustr -> Prop) (u : ustr) :
  Q tt [u] -> runs n0 arts Q (append u).
Proof.
  intros HQ s Hs. eapply (runs_intro Q _ s _ tt [u]); eauto; reflexivity.
Qed.

Lemma runs_english (Q : unit -> list ustr -> Prop) (e : entry) :
  Q tt [] -> runs n0 arts Q (english e).
Proof.
  intros HQ s Hs. destruct Hs as (Hm & Ha & [t Ht] & Hf & Hc).
  eapply (runs_intro Q _ s _ tt []); eauto.
  - unfold english. rewrite Ht. reflexivity.
  - split; [apply Hm|]. split; [exact Ha|]. split; [simpl; eauto|].
    split; [exact Hf|exact Hc].
  - simpl. now rewrite app_nil_r.
Qed.

Lemma runs_theNote (Q : Note -> list ustr -> Prop) :
  (forall n, same_music n0 n -> articulations n = arts -> Q n []) ->
  runs n0 arts Q theNote.
Proof.
  intros HQ s Hs. apply (runs_intro Q _ s s (music21Note s) []);
    auto using app_nil_r. apply HQ; apply Hs.
Qed.

Lemma runs_theTrans (Q : list ustr -> list ustr -> Prop) :
  (forall t, Q t []) -> runs n0 arts Q theTrans.
Proof.
  intros HQ s Hs. apply (runs_intro Q _ s s (noteTrans s) []);
    auto using app_nil_r.
Qed.

Lemma runs_beam (Q : bool -> list ustr -> Prop) (k : string) :
  In k falseKeywords -> k <> "beamContinue" ->
  Q (flag n0 k) [] -> runs n0 arts Q (beam k).
Proof.
  intros Hk Hne HQ s Hs. apply (runs_intro Q _ s s (flag n0 k) []);
    auto using app_nil_r.
  unfold beam. destruct Hs as (Hm & Ha & Ht & Hf & Hc).
  now rewrite (Hf k Hk Hne).
Qed.

Lemma runs_beamContinue (Q : bool -> list ustr -> Prop) :
  (forall v, Q v []) -> runs n0 arts Q (beam "beamContinue").
Proof.
  intros HQ s Hs. pose proof Hs as (Hm & Ha & Ht & Hf & [v Hv]).
  apply (runs_intro Q _ s s v []); auto using app_nil_r.
  unfold beam. now rewrite Hv.
Qed.

Lemma runs_reset_beamContinue (Q : unit -> list ustr -> Prop) :
  Q tt [] ->
  runs n0 arts Q
    (smodify (on_beamStatus (fun b => <["beamContinue" := false]> b))).
Proof.
  intros HQ s Hs. destruct Hs as (Hm & Ha & Ht & Hf & Hv).
  eapply (runs_intro Q _ s _ tt []);
    [reflexivity | exact HQ | | simpl; now rewrite app_nil_r].
  split; [apply Hm|]. split; [exact Ha|]. split; [exact Ht|]. split.
  - intros k Hk Hne. simpl. rewrite lookup_insert_ne by congruence.
    now apply Hf.
  - simpl. rewrite lookup_insert_eq. eauto.
Qed.

Lemma runs_forM_any {A} (f : A -> SM NoteSt unit) (l : list A) :
  (forall x, runs n0 arts (fun _ _ => True) (f x)) ->
  runs n0 arts (fun _ _ => True) (sforM f l).
Proof.
  intros Hf. induction l as [|x l IH]; simpl.
  - now apply runs_ret.
  - eapply runs_bind; [apply Hf|]. intros _ ws _.
    eapply runs_weaken; [|exact IH]. auto.
Qed.

Lemma beam_runs (k : string) :
  In k falseKeywords -> k <> "beamContinue" ->
  runs n0 arts (fun v ws => v = flag n0 k /\ ws = []) (beam k).
Proof. intros Hk Hne. apply runs_beam; auto. Qed.

Lemma beamContinue_runs :
  runs n0 arts (fun _ ws => ws = []) (beam "beamContinue").
Proof. apply runs_beamContinue. auto. Qed.

Lemma append_runs (u : ustr) : runs n0 arts (fun _ ws => ws = [u]) (append u).
Proof. now apply runs_append. Qed.

Lemma english_runs (e : entry) : runs n0 arts (fun _ ws => ws = []) (english e).
Proof. now apply runs_english. Qed.

Lemma theNote_runs :
  runs n0 arts
    (fun n ws => same_music n0 n /\ articulations n = arts /\ ws = []) theNote.
Proof. apply runs_theNote. auto. Qed.

Lemma theTrans_runs : runs n0 arts (fun _ ws => ws = []) theTrans.
Proof. apply runs_theTrans. auto. Qed.

Lemma reset_runs :
  runs n0 arts (fun _ ws => ws = [])
    (smodify (on_beamStatus (fun b => <["beamContinue" := false]> b))).
Proof. now apply runs_reset_beamContinue. Qed.

End Runs.

Ltac runs_prim :=
  first
    [ apply beam_runs; [simpl; tauto | discriminate]
    | apply beamContinue_runs | apply append_runs | apply english_runs
    | apply theNote_runs | apply theTrans_runs | apply reset_runs ].

Ltac runs_next :=
  eapply runs_bind;
  [ runs_prim
  | let a := fresh "a" in let ws := fresh "ws" in let HQ := fresh "HQ" in
    intros a ws HQ; cbn beta in HQ;
    repeat match goal with H : _ /\ _ |- _ => destruct H end;
    try subst ws; try (match goal with H : a = _ |- _ => subst a end);
    cbn beta ].

Ltac runs_leaf := apply runs_ret; simpl; rewrite ?app_nil_r; reflexivity.

Section NoteRuns.

Variable L : Lookup.
Variable n0 : Note.

Lemma append_english_runs (arts : list Articulation) (u : ustr) (e : entry) :
  runs n0 arts (fun _ ws => ws = [u]) (append u >>> english e).
Proof. runs_next. apply runs_english. reflexivity. Qed.

Lemma runs_openingSlurs (arts : list Articulation) :
  runs n0 arts (fun _ ws => ws = openingSigns L n0) (openingSlurs L).
Proof.
  unfold openingSlurs, openingSigns.
  runs_next.
  eapply (runs_bind _ _
            (fun _ ws =>
               ws = if flag n0 "beginLongBracketSlur"
                    then [sym_opening_bracket_slur L]
                    else if flag n0 "beginLongDoubleSlur"
                         then [sym_opening_double_slur L] else [])).
  { destruct (flag n0 "beginLongBracketSlur").
    - apply append_english_runs.
    - runs_next. destruct (flag n0 "beginLongDoubleSlur").
      + apply append_english_runs.
      + now apply runs_ret. }
  intros _ ws ->. cbn beta.
  runs_next.
  eapply (runs_bind _ _
            (fun v ws => v = (if flag n0 "endLongBracketSlur"
                              then flag n0 "beginLongBracketSlur" else false)
                         /\ ws = [])).
  { destruct (flag n0 "endLongBracketSlur").
    - apply beam_runs; [simpl; tauto|discriminate].
    - now apply runs_ret. }
  intros v ws [-> ->]. cbn beta.
  destruct (flag n0 "endLongBracketSlur"), (flag n0 "beginLongBracketSlur");
    simpl; try runs_leaf;
    (eapply runs_weaken; [|apply append_english_runs]);
    intros _ ws ->; simpl; reflexivity.
Qed.

Lemma runs_tripletBlock (arts : list Articulation) :
  isTriplet (tuplets (duration n0)) = true ->
  flag n0 "beamStart" = true ->
  runs n0 arts (fun _ ws => ws = [sym_triplet L]) (tripletBlock L).
Proof.
  intros Htri Hstart. unfold tripletBlock.
  runs_next.
  match goal with H : same_music n0 _ |- _ => destruct H as (_ & -> & _) end.
  rewrite Htri. runs_next. rewrite Hstart.
  eapply runs_weaken; [|apply append_english_runs].
  intros _ ws ->. reflexivity.
Qed.

Lemma runs_tripletBlock_any (arts : list Articulation) :
  runs n0 arts (fun _ _ => True) (tripletBlock L).
Proof.
  unfold tripletBlock. runs_next.
  destruct (isTriplet _); [|now apply runs_ret].
  runs_next. destruct (flag n0 "beamStart").
  - eapply runs_weaken; [|apply append_english_runs]. auto.
  - runs_next. destruct a0.
    + eapply runs_weaken; [|apply reset_runs]. auto.
    + now apply runs_ret.
Qed.

Lemma runs_staccatoLoop (arts l : list Articulation) :
  (forall a, In a l -> isStaccato (art_name a) = true ->
             is_Some (beforeNoteExpr L (art_name a))) ->
  runs n0 arts (fun _ ws => ws = staccatoSigns L l) (sforM (staccatoFirst L) l).
Proof.
  induction l as [|a l IH]; intros Hl; simpl.
  - now apply runs_ret.
  - eapply (runs_bind _ _
              (fun _ ws => ws = if isStaccato (art_name a)
                                then articulationSign L a else [])).
    + unfold staccatoFirst, articulationSign.
      destruct (isStaccato (art_name a)) eqn:Est; [|now apply runs_ret].
      destruct (Hl a (or_introl eq_refl) Est) as [g Hg]. rewrite Hg.
      eapply (runs_bind _ _ (fun x ws => x = g /\ ws = []));
        [now apply runs_lift|].
      intros x ws [-> ->]. apply append_english_runs.
    + intros _ ws ->. cbn beta.
      eapply runs_weaken; [|apply IH; intros; apply Hl; auto; now right].
      intros _ ws ->. reflexivity.
Qed.

Lemma runs_otherLoop (arts l : list Articulation) :
  runs n0 arts
    (fun _ ws =>
       ws = flat_map (fun a => if isStaccato (art_name a) then []
                               else articulationSign L a) l)
    (sforM (otherArticulation L) l).
Proof.
  induction l as [|a l IH]; simpl.
  - now apply runs_ret.
  - eapply (runs_bind _ _
              (fun _ ws => ws = if isStaccato (art_name a) then []
                                else articulationSign L a)).
    + unfold otherArticulation, articulationSign.
      destruct (isStaccato (art_name a)) eqn:Est; simpl.
      { apply runs_catch, runs_catch. now apply runs_ret. }
      destruct (beforeNoteExpr L (art_name a)) as [g|] eqn:Hg; simpl.
      * apply runs_catch, runs_catch.
        eapply (runs_bind _ _ (fun x ws => x = g /\ ws = []));
          [now apply runs_lift|].
        intros x ws [-> ->]. apply append_english_runs.
      * intros s Hs. apply (runs_intro n0 arts _ _ s s tt []); auto.
        now rewrite app_nil_r.
    + intros _ ws ->. cbn beta.
      eapply runs_weaken; [|apply IH].
      intros _ ws ->. reflexivity.
Qed.

Lemma runs_accidentalBlock (arts : list Articulation) (acc : Accidental)
  (g : ustr) :
  accidental (pitch n0) = Some acc -> displayStatus acc <> Some false ->
  accidentals L (acc_name acc) = Some g ->
  runs n0 arts (fun _ ws => ws = [g]) (accidentalBlock L).
Proof.
  intros Hacc Hshow Hg. unfold accidentalBlock. runs_next.
  match goal with H : same_music n0 _ |- _ => destruct H as (-> & _) end.
  rewrite Hacc.
  assert (Hrun : runs n0 arts (fun _ ws => ws = [g])
                   (scatch
                      (g0 <~ slift (getitem (accidentals L (acc_name acc))) ;;
                       append g0 >>>
                       english (Fmt "Accidental {0} {1}"
                                  [FStr (acc_name acc); FBraille g0]))
                      KeyError (sret tt))).
  { rewrite Hg. apply runs_catch.
    eapply (runs_bind _ _ (fun x ws => x = g /\ ws = []));
      [now apply runs_lift|].
    intros x ws [-> ->]. apply append_english_runs. }
  destruct (displayStatus acc) as [[|]|]; try exact Hrun. congruence.
Qed.

Lemma append_english_any (arts : list Articulation) (u : ustr) (e : entry) :
  runs n0 arts (fun _ _ => True) (append u >>> english e).
Proof. eapply runs_weaken; [|apply append_english_runs]. auto. Qed.

Lemma octaveMark_raises (o : option Z) (e : exn) :
  octaveMark L o = Raise e -> e = KeyError.
Proof.
  unfold octaveMark, getitem. destruct o as [z|]; [|congruence].
  destruct (octaves L z); congruence.
Qed.

Lemma runs_octaveBlock (arts : list Articulation) (showOctave : bool) :
  runs n0 arts (fun _ _ => True) (octaveBlock L showOctave).
Proof.
  unfold octaveBlock. runs_next.
  destruct showOctave; [|now apply runs_ret].
  destruct (octaveMark L (octave (pitch a))) as [g|e] eqn:Eo.
  - apply runs_catch.
    eapply (runs_bind _ _ (fun x ws => x = g /\ ws = []));
      [now apply runs_lift|].
    intros x ws [-> ->]. apply append_english_any.
  - rewrite (octaveMark_raises _ _ Eo). apply runs_catch_raise.
    now apply runs_ret.
Qed.

Lemma runs_nameAndDuration (arts : list Articulation)
  (notesInStep : string -> option ustr) :
  pitchNameToNotes L (step (pitch n0)) = Some notesInStep ->
  is_Some (notesInStep "eighth") ->
  is_Some (notesInStep (dur_type (duration n0))) ->
  runs n0 arts (fun returned _ => returned = None) (nameAndDuration L).
Proof.
  intros Hstep [g8 H8] [gd Hd]. unfold nameAndDuration. runs_next.
  match goal with
  | H : same_music n0 _ |- _ => destruct H as (Hp & Hdur & _)
  end.
  rewrite Hp, Hdur, Hstep.
  destruct (isGrace (duration n0)).
  - rewrite H8.
    eapply (runs_bind _ _ (fun x ws => x = g8 /\ ws = []));
      [now apply runs_lift|].
    intros x ws [-> ->]. runs_next. runs_next. now apply runs_ret.
  - apply runs_catch. runs_next.
    eapply (runs_bind _ _ (fun _ _ => True)).
    { destruct a0.
      - rewrite H8.
        eapply (runs_bind _ _ (fun x ws => x = g8 /\ ws = []));
          [now apply runs_lift|].
        intros x ws [-> ->]. runs_next. now apply runs_ret.
      - rewrite Hd.
        eapply (runs_bind _ _ (fun x ws => x = gd /\ ws = []));
          [now apply runs_lift|].
        intros x ws [-> ->]. runs_next. now apply runs_ret. }
    intros g ws _. runs_next.
    eapply (runs_bind _ _ (fun _ _ => True)).
    { apply runs_forM_any. intros _. apply append_english_any. }
    intros _ ws' _. now apply runs_ret.
Qed.

Lemma fingeringChoice_raises (allowAbsence : bool) (i : nat) (tok : string)
  (e : exn) :
  fingeringChoice L allowAbsence i tok = Raise e -> e = KeyError.
Proof.
  unfold fingeringChoice.
  destruct (split "-" tok) as [|c0 [|c1 [|c2 rest]]]; try discriminate.
  - destruct (fingerMarks L c0); simpl; [discriminate|].
    destruct allowAbsence; simpl; [|congruence].
    destruct (Nat.eqb i 0); discriminate.
  - destruct (fingerMarks L c0); simpl; [|congruence].
    destruct (fingerMarks L c1); simpl; [discriminate|congruence].
Qed.

Lemma fingeringLoop_raises (allowAbsence : bool) (choice : list string)
  (i : nat) (e : exn) :
  fingeringLoop L allowAbsence i choice = Raise e -> e = KeyError.
Proof.
  revert i. induction choice as [|tok rest IH]; intros i; simpl;
    [discriminate|].
  destruct (fingeringChoice L allowAbsence i tok) eqn:Ec; simpl.
  - destruct (fingeringLoop L allowAbsence (S i) rest) eqn:El; simpl;
      [discriminate|].
    intros [= <-]. eapply IH. exact El.
  - intros [= <-]. eapply fingeringChoice_raises. exact Ec.
Qed.

(** [transcribeNoteFingering] raises nothing but [BrailleBasicException]. *)
Lemma transcribeNoteFingering_raises (f : string) (upperFirst : bool) (e : exn) :
  transcribeNoteFingering L f upperFirst = Raise e -> e = BrailleBasicException.
Proof.
  unfold transcribeNoteFingering, try_except.
  match goal with |- match ?r with _ => _ end = _ -> _ => destruct r as [g|e'] eqn:Er end;
    [discriminate|].
  assert (e' = KeyError) as ->.
  { destruct (Nat.eqb (String.length f) 1).
    - unfold getitem in Er. destruct (fingerMarks L f); congruence.
    - destruct (Nat.eqb (length (split "," f)) 2); simpl in Er.
      + destruct (fingeringLoop L true 0 _) eqn:El; simpl in Er;
          [discriminate|].
        injection Er as <-. eapply fingeringLoop_raises. exact El.
      + destruct (Nat.eqb (length (split "," f)) 1); simpl in Er;
          [|congruence].
        destruct (fingeringLoop L false 0 _) eqn:El; simpl in Er;
          [discriminate|].
        injection Er as <-. eapply fingeringLoop_raises. exact El. }
  simpl. congruence.
Qed.

Lemma runs_fingeringBlock (arts : list Articulation) (upperFirst : bool) :
  runs n0 arts (fun _ _ => True) (fingeringBlock L upperFirst).
Proof.
  unfold fingeringBlock. runs_next.
  destruct (fingering a) as [f|]; [|now apply runs_ret].
  destruct (transcribeNoteFingering L f upperFirst) as [g|e] eqn:Ef.
  - now apply runs_append.
  - rewrite (transcribeNoteFingering_raises _ _ _ Ef). now apply runs_ret.
Qed.

Lemma runs_closingSlurs (arts : list Articulation) :
  runs n0 arts (fun _ _ => True) (closingSlurs L).
Proof.
  unfold closingSlurs. runs_next.
  eapply (runs_bind _ _ (fun _ _ => True)).
  { destruct (flag n0 "shortSlur");
      [apply append_english_any|now apply runs_ret]. }
  intros _ ws _. runs_next.
  eapply (runs_bind _ _ (fun _ _ => True)).
  { destruct (flag n0 "endLongBracketSlur"); [|now apply runs_ret].
    eapply runs_weaken; [|apply beam_runs; [simpl; tauto|discriminate]]. auto. }
  intros v ws' _.
  destruct (negb (flag n0 "endLongBracketSlur" && v)); [|now apply runs_ret].
  runs_next. destruct (flag n0 "endLongDoubleSlur");
    [apply append_english_any|].
  runs_next. destruct (flag n0 "endLongBracketSlur");
    [apply append_english_any|now apply runs_ret].
Qed.

Lemma runs_tieBlock (arts : list Articulation) :
  runs n0 arts (fun _ _ => True) (tieBlock L).
Proof.
  unfold tieBlock. runs_next.
  destruct (tie a) as [ty|]; [|now apply runs_ret].
  destruct (negb (String.eqb ty "stop"));
    [apply append_english_any|now apply runs_ret].
Qed.

(** The articulations: the staccato signs in the order of declaration,
    then the list is sorted and the other signs follow in its order. *)
Lemma articulationsBlock_runs (arts : list Articulation) (s : NoteSt) :
  ready n0 arts s ->
  (forall a, In a arts -> isStaccato (art_name a) = true ->
             is_Some (beforeNoteExpr L (art_name a))) ->
  exists s',
    articulationsBlock L s = (s', Ok tt)
    /\ ready n0 (sorted name_lt arts) s'
    /\ noteTrans s' = noteTrans s ++ staccatoSigns L arts ++ otherSigns L arts.
Proof.
  intros Hs Hst. pose proof Hs as (Hm & Ha & Ht & Hf & Hc).
  unfold articulationsBlock, sbind at 1, theNote. rewrite Ha.
  destruct arts as [|a0 arts'] eqn:Earts.
  { exists s. split; [reflexivity|]. split; [exact Hs|].
    simpl. now rewrite app_nil_r. }
  rewrite <- Earts in *. clear Earts.
  destruct (runs_staccatoLoop arts arts Hst s Hs)
    as (s1 & [] & w1 & E1 & -> & Hs1 & T1).
  unfold sbind at 1. rewrite E1. unfold sbind at 1, smodify.
  set (s2 := on_note (fun n => with_articulations n
                                 (sorted name_lt (articulations n))) s1).
  assert (Hs2 : ready n0 (sorted name_lt arts) s2).
  { destruct Hs1 as (Hm1 & Ha1 & Ht1 & Hf1 & Hc1). subst s2.
    split; [exact Hm1|]. split; [simpl; now rewrite Ha1|].
    split; [exact Ht1|]. split; [exact Hf1|exact Hc1]. }
  destruct (runs_otherLoop (sorted name_lt arts) (sorted name_lt arts) s2 Hs2)
    as (s3 & [] & w3 & E3 & -> & Hs3 & T3).
  unfold sbind. cbn [theNote].
  assert (Ea2 : articulations (music21Note s2) = sorted name_lt arts)
    by apply Hs2.
  rewrite Ea2, E3. exists s3. split; [reflexivity|]. split; [exact Hs3|].
  rewrite T3. subst s2. simpl. rewrite T1. now rewrite <- app_assoc.
Qed.

(** The loop over [falseKeywords] leaves a ready state. *)
Lemma initBeamStatus_ready (b : gmap string bool) :
  exists s,
    initBeamStatus (entry_state n0 b) = (s, Ok tt)
    /\ ready n0 (articulations n0) s /\ noteTrans s = [].
Proof.
  unfold initBeamStatus, sbind, theNote, smodify, on_beamStatus, entry_state.
  cbn [fst snd music21Note beamStatus noteTrans].
  eexists. split; [reflexivity|]. split; [|reflexivity].
  split; [repeat split|]. split; [reflexivity|]. split; [simpl; eauto|].
  cbn [beamStatus music21Note attrs with_note_english]. split.
  - intros k Hk _.
    now rewrite (init_lookup (fun kw => default false (attrs n0 !! kw)))
      by assumption.
  - rewrite (init_lookup (fun kw => default false (attrs n0 !! kw)))
      by (simpl; tauto).
    eauto.
Qed.

End NoteRuns.

(** [sorted] is a sort: it permutes its argument, and with a test that
    is the strict part of a total preorder its result is in order. *)
Lemma sort_insert_Permutation {A} (lt : A -> A -> bool) (x : A) (l : list A) :
  Permutation (x :: l) (sort_insert lt x l).
Proof.
  induction l as [|y l IH]; simpl; [reflexivity|].
  destruct (lt y x); [|reflexivity].
  rewrite perm_swap. now apply perm_skip.
Qed.

Lemma sorted_Permutation {A} (lt : A -> A -> bool) (l : list A) :
  Permutation l (sorted lt l).
Proof.
  induction l as [|x l IH]; simpl; [reflexivity|].
  rewrite <- sort_insert_Permutation. now apply perm_skip.
Qed.

Lemma sort_insert_sorted {A} (lt : A -> A -> bool) (le : A -> A -> Prop)
  (x : A) (l : list A) :
  (forall a b c, le a b -> le b c -> le a c) ->
  (forall a b, lt a b = true -> le a b) ->
  (forall a b, lt a b = false -> le b a) ->
  StronglySorted le l -> StronglySorted le (sort_insert lt x l).
Proof.
  intros Htrans Hlt Hge. induction 1 as [|y l Hl IH Hy]; simpl.
  - constructor; constructor.
  - destruct (lt y x) eqn:E.
    + constructor; [exact IH|].
      apply List.Forall_forall. intros z Hz.
      apply (Permutation_in _ (Permutation_sym (sort_insert_Permutation lt x l)))
        in Hz.
      destruct Hz as [<-|Hz]; [now apply Hlt|].
      now apply (proj1 (List.Forall_forall _ _) Hy).
    + constructor; [now constructor|].
      constructor; [now apply Hge|].
      apply List.Forall_forall. intros z Hz.
      eapply Htrans; [apply Hge; exact E|].
      now apply (proj1 (List.Forall_forall _ _) Hy).
Qed.

Lemma name_le_trans (a b c : Articulation) :
  name_le a b -> name_le b c -> name_le a c.
Proof.
  unfold name_le. intros Hab Hbc.
  apply Is_true_true. apply Is_true_true in Hab, Hbc.
  exact (transitivity (R := String.le) Hab Hbc).
Qed.

Lemma name_lt_le (a b : Articulation) : name_lt a b = true -> name_le a b.
Proof.
  unfold name_lt, name_le, String.ltb, String.leb.
  destruct (String.compare (art_name a) (art_name b)); congruence.
Qed.

Lemma name_ge_le (a b : Articulation) : name_lt a b = false -> name_le b a.
Proof.
  unfold name_lt, name_le, String.ltb, String.leb.
  pose proof (String.compare_antisym (art_name a) (art_name b)) as Hanti.
  destruct (String.compare (art_name a) (art_name b)),
    (String.compare (art_name b) (art_name a)); simpl in Hanti; congruence.
Qed.

Lemma sorted_by_name (l : list Articulation) :
  StronglySorted name_le (sorted name_lt l).
Proof.
  induction l as [|x l IH]; simpl; [constructor|].
  apply (sort_insert_sorted name_lt name_le);
    [exact name_le_trans | exact name_lt_le | exact name_ge_le | exact IH].
Qed.

(** C6: a note with a triplet and the beam-start flag, articulations and
    a displayed accidental, whose signs and note name are in the tables,
    is written as: the opening slur signs, the triplet sign, the signs of
    its staccato and staccatissimo articulations in the order of
    declaration, the signs of its other articulations in the order of
    the list sorted by name, the accidental sign, and then the rest. *)
Theorem C6_note_sign_order (L : Lookup) (n : Note)
  (showOctave upperFirstInFingering : bool) (b : gmap string bool)
  (acc : Accidental) (accSign : ustr) (notesInStep : string -> option ustr) :
  isTriplet (tuplets (duration n)) = true ->
  attrs n !! "beamStart" = Some true ->
  articulations n <> [] ->
  accidental (pitch n) = Some acc ->
  displayStatus acc <> Some false ->
  accidentals L (acc_name acc) = Some accSign ->
  (forall a, In a (articulations n) -> isStaccato (art_name a) = true ->
             is_Some (beforeNoteExpr L (art_name a))) ->
  pitchNameToNotes L (step (pitch n)) = Some notesInStep ->
  is_Some (notesInStep "eighth") ->
  is_Some (notesInStep (dur_type (duration n))) ->
  (exists post,
     (noteToBraille L n showOctave upperFirstInFingering b).2
     = Ok (concat (openingSigns L n) ++ sym_triplet L
           ++ concat (staccatoSigns L (articulations n))
           ++ concat (otherSigns L (articulations n))
           ++ accSign ++ post))
  /\ StronglySorted name_le (sorted name_lt (articulations n))
  /\ Permutation (articulations n) (sorted name_lt (articulations n)).
Proof.
  intros Htri Hstart _ Hacc Hshow HaccSign Hstacc Hstep H8 Hd.
  split; [|split; [apply sorted_by_name|apply sorted_Permutation]].
  assert (Hflag : flag n "beamStart" = true) by (unfold flag; now rewrite Hstart).
  unfold noteToBraille. rewrite noteToBraille_body_unfold.
  destruct (initBeamStatus_ready n b) as (s1 & E1 & Hs1 & T1).
  unfold sbind at 1. rewrite E1. unfold afterKeywords.
  destruct (runs_openingSlurs L n _ s1 Hs1) as (s2 & [] & w2 & E2 & -> & Hs2 & T2).
  destruct (runs_tripletBlock L n _ Htri Hflag s2 Hs2)
    as (s3 & [] & w3 & E3 & -> & Hs3 & T3).
  destruct (articulationsBlock_runs L n _ s3 Hs3 Hstacc) as (s4 & E4 & Hs4 & T4).
  destruct (runs_accidentalBlock L n _ acc accSign Hacc Hshow HaccSign s4 Hs4)
    as (s5 & [] & w5 & E5 & -> & Hs5 & T5).
  destruct (runs_octaveBlock L n _ showOctave s5 Hs5)
    as (s6 & [] & w6 & E6 & _ & Hs6 & T6).
  destruct (runs_nameAndDuration L n _ notesInStep Hstep H8 Hd s6 Hs6)
    as (s7 & r7 & w7 & E7 & -> & Hs7 & T7).
  destruct (runs_fingeringBlock L n _ upperFirstInFingering s7 Hs7)
    as (s8 & [] & w8 & E8 & _ & Hs8 & T8).
  destruct (runs_closingSlurs L n _ s8 Hs8) as (s9 & [] & w9 & E9 & _ & Hs9 & T9).
  destruct (runs_tieBlock L n _ s9 Hs9) as (s10 & [] & w10 & E10 & _ & Hs10 & T10).
  unfold sbind. rewrite E2, E3, E4, E5, E6, E7, E8, E9, E10.
  cbn [theTrans sret fst snd].
  exists (concat (w6 ++ w7 ++ w8 ++ w9 ++ w10)).
  rewrite T10, T9, T8, T7, T6, T5, T4, T3, T2, T1.
  rewrite !concat_app. simpl. rewrite !app_nil_r, <- !app_assoc.
  reflexivity.
Qed.

Lemma C6_note_sign_order_witness :
  (exists post,
     (noteToBraille sampleLookup sampleTripletNote true true ∅).2
     = Ok (concat (openingSigns sampleLookup sampleTripletNote)
           ++ sym_triplet sampleLookup
           ++ concat (staccatoSigns sampleLookup (articulations sampleTripletNote))
           ++ concat (otherSigns sampleLookup (articulations sampleTripletNote))
           ++ cells [[1; 4; 6]] ++ post))
  /\ StronglySorted name_le (sorted name_lt (articulations sampleTripletNote))
  /\ Permutation (articulations sampleTripletNote)
                 (sorted name_lt (articulations sampleTripletNote)).
Proof.
  eapply (C6_note_sign_order sampleLookup sampleTripletNote true true ∅
            {| acc_name := "sharp"; displayStatus := None |} (cells [[1; 4; 6]])).
  - reflexivity.
  - reflexivity.
  - discriminate.
  - reflexivity.
  - discriminate.
  - reflexivity.
  - intros a [<-|[<-|[<-|[]]]]; vm_compute; eauto.
  - reflexivity.
  - vm_compute. eauto.
  - vm_compute. eauto.
Defined.

(** ** What the encoders write on their arguments *)

Lemma barline_frame (L : Lookup) (x : Barline) :
  clear_barline (barlineToBraille L x).1 = clear_barline x
  /\ (barlineToBraille L (clear_barline x)).2 = (barlineToBraille L x).2.
Proof.
  unfold barlineToBraille. simpl. destruct (barlines L (style x)); now split.
Qed.

Lemma rest_frame (L : Lookup) (x : Rest) :
  clear_rest (restToBraille L x).1 = clear_rest x
  /\ (restToBraille L (clear_rest x)).2 = (restToBraille L x).2.
Proof.
  unfold restToBraille. simpl.
  destruct (rests L (dur_type (rest_duration x))); now split.
Qed.

Lemma clef_frame (L : Lookup) (x : Clef) (changeSuffix : bool) :
  clear_clef (clefToBraille L x changeSuffix).1 = clear_clef x
  /\ (clefToBraille L (clear_clef x) changeSuffix).2
     = (clefToBraille L x changeSuffix).2.
Proof.
  unfold clefToBraille. simpl.
  destruct (isNoClef (clef_class x)); [now split|].
  destruct (clefs_sign L (sign x)) as [lines|]; [|now split].
  destruct (lines (line x)); now split.
Qed.

Lemma dynamic_frame (L : Lookup) (x : Dynamic) (precedeByWordSign : bool) :
  clear_dynamic (dynamicToBraille L x precedeByWordSign).1 = clear_dynamic x
  /\ (dynamicToBraille L (clear_dynamic x) precedeByWordSign).2
     = (dynamicToBraille L x precedeByWordSign).2.
Proof.
  unfold dynamicToBraille. simpl.
  destruct (wordToBraille L (value x) true) as [g|[]]; now split.
Qed.

Lemma text_frame (L : Lookup) (x : TextExpression) (precedeByWordSign : bool) :
  clear_text (textExpressionToBraille L x precedeByWordSign).1 = clear_text x
  /\ (textExpressionToBraille L (clear_text x) precedeByWordSign).2
     = (textExpressionToBraille L x precedeByWordSign).2.
Proof.
  unfold textExpressionToBraille. simpl.
  destruct (textExpressions L (content x)); [now split|].
  match goal with
  | |- context [match ?b with Ok _ => _ | Raise _ => _ end] =>
      destruct b as [[t r]|[]]
  end; now split.
Qed.

Lemma key_frame (L : Lookup) (x : KeySignature) (outgoing : option KeySignature) :
  clear_key (keySigToBraille L x outgoing).1 = clear_key x
  /\ (keySigToBraille L (clear_key x) outgoing).2
     = (keySigToBraille L x outgoing).2.
Proof.
  unfold keySigToBraille. simpl.
  destruct (keySignatures L (sharps x)); [|now split].
  destruct outgoing as [o|]; [|now split].
  repeat match goal with
         | |- context [if ?b then _ else _] => destruct b
         | |- context [match naturals L ?n with _ => _ end] =>
             destruct (naturals L n)
         end; now split.
Qed.

Lemma time_frame (L : Lookup) (x : TimeSignature) :
  clear_time (timeSigToBraille L x).1 = clear_time x
  /\ (timeSigToBraille L (clear_time x)).2 = (timeSigToBraille L x).2.
Proof.
  unfold timeSigToBraille. simpl.
  destruct (ts_symbol x ≫= _) as [[s g]|]; [now split|].
  match goal with
  | |- context [match ?b with Ok _ => _ | Raise _ => _ end] =>
      destruct b as [g|[]]
  end; now split.
Qed.

Lemma note_clear_same (L : Lookup) (n : Note) (showOctave upperFirst : bool)
  (b : gmap string bool) :
  noteToBraille L (clear_note n) showOctave upperFirst b
  = noteToBraille L n showOctave upperFirst b.
Proof.
  unfold noteToBraille. now rewrite !noteToBraille_body_unfold.
Qed.

Lemma chord_clear_same (L : Lookup) (H : Host) (c : Chord)
  (descending showOctave : bool) (b : gmap string bool) :
  chordToBraille L H (clear_chord c) descending showOctave b
  = chordToBraille L H c descending showOctave b.
Proof. reflexivity. Qed.

Lemma note_kept_reordered_refl (n : Note) : note_kept_reordered n n.
Proof. split; [apply same_music_refl|reflexivity]. Qed.

Lemma note_kept_reordered_trans (n1 n2 n3 : Note) :
  note_kept_reordered n1 n2 -> note_kept_reordered n2 n3 ->
  note_kept_reordered n1 n3.
Proof.
  intros [H1 P1] [H2 P2]. split; [eapply same_music_trans; eassumption|].
  now rewrite P1.
Qed.

Lemma element_kept_refl (e : Element) : element_kept e e.
Proof. destruct e; simpl; auto using note_kept_reordered_refl. Qed.

Lemma element_kept_trans (e1 e2 e3 : Element) :
  element_kept e1 e2 -> element_kept e2 e3 -> element_kept e1 e3.
Proof.
  destruct e1, e2; simpl; try contradiction; destruct e3; simpl;
    try contradiction; try congruence; try tauto.
  apply note_kept_reordered_trans.
Qed.

Lemma elements_kept_refl (l : list Element) : Forall2 element_kept l l.
Proof. induction l; constructor; auto using element_kept_refl. Qed.

Lemma elements_kept_trans (l1 l2 l3 : list Element) :
  Forall2 element_kept l1 l2 -> Forall2 element_kept l2 l3 ->
  Forall2 element_kept l1 l3.
Proof.
  intros H12. revert l3. induction H12 as [|x y l1 l2 Hxy _ IH]; intros l3 H23.
  - inversion H23. constructor.
  - inversion H23 as [|y' z l2' l3' Hyz H23']; subst.
    constructor; [eapply element_kept_trans; eassumption|now apply IH].
Qed.

Lemma elements_kept_insert (l : list Element) (i : nat) (e e' : Element) :
  l !! i = Some e -> element_kept e e' -> Forall2 element_kept l (<[i := e']> l).
Proof.
  revert i. induction l as [|x l IH]; intros i Hi He; [constructor|].
  destruct i as [|i]; simpl in *.
  - injection Hi as ->. constructor; [exact He|apply elements_kept_refl].
  - constructor; [apply element_kept_refl|now apply IH].
Qed.

Lemma group_kept_refl (s : GroupSt) : group_kept s s.
Proof. split; [apply elements_kept_refl|auto]. Qed.

Lemma group_kept_trans (s1 s2 s3 : GroupSt) :
  group_kept s1 s2 -> group_kept s2 s3 -> group_kept s1 s3.
Proof.
  intros (E1 & A1 & B1 & C1) (E2 & A2 & B2 & C2).
  split; [eapply elements_kept_trans; eassumption|].
  repeat split; congruence.
Qed.

Lemma chord_kept_refl (s : ChordSt) : chord_kept s s.
Proof. reflexivity. Qed.

Lemma chord_kept_trans (s1 s2 s3 : ChordSt) :
  chord_kept s1 s2 -> chord_kept s2 s3 -> chord_kept s1 s3.
Proof. unfold chord_kept. congruence. Qed.

Lemma keeps_chord_append (u : ustr) : keeps chord_kept (chord_append u).
Proof. intros s. reflexivity. Qed.

Lemma keeps_chord_english (e : entry) : keeps chord_kept (chord_english e).
Proof.
  intros s. unfold chord_english, chord_kept.
  destruct (chord_brailleEnglish (music21Chord s)); reflexivity.
Qed.

Ltac chord_keeps_step :=
  first
    [ apply keeps_chord_append | apply keeps_chord_english
    | apply (keeps_ret _ chord_kept_refl)
    | apply (keeps_lift _ chord_kept_refl)
    | apply (keeps_bind _ chord_kept_trans); [|intros ?]
    | apply (keeps_forM _ chord_kept_refl chord_kept_trans); intros ?
    | apply keeps_modify; intros ?; reflexivity
    | intros ?; reflexivity
    | match goal with
      | |- keeps _ (if ?b then _ else _) => destruct b
      | |- keeps _ (match ?x with _ => _ end) => destruct x
      | |- keeps _ (let '(_, _) := ?x in _) => destruct x
      end ].

Lemma keeps_get {S A} (R : S -> S -> Prop) (k : S -> SM S A) :
  (forall s0, keeps R (k s0)) -> keeps R (sbind sget k).
Proof. intros Hk s. unfold sbind, sget. apply Hk. Qed.

Lemma keeps_chordToBraille_body (L : Lookup) (H : Host)
  (descending showOctave : bool) :
  keeps chord_kept (chordToBraille_body L H descending showOctave).
Proof.
  unfold chordToBraille_body.
  apply (keeps_bind _ chord_kept_trans); [intros s; reflexivity|intros _].
  apply keeps_get. intros s0. lazy zeta.
  destruct (if descending then _ else _) as [|basePitch rest];
    [apply (keeps_lift _ chord_kept_refl)|].
  destruct (noteToBraille L _ showOctave true (chord_beamStatus s0))
    as [[n' b'] r].
  unfold chordPitch, chordOctave.
  repeat chord_keeps_step.
Qed.

Lemma chord_frame (L : Lookup) (H : Host) (c : Chord)
  (descending showOctave : bool) (b : gmap string bool) :
  clear_chord (chordToBraille L H c descending showOctave b).1.1 = clear_chord c.
Proof.
  pose proof (keeps_chordToBraille_body L H descending showOctave
                {| music21Chord := c; chord_beamStatus := b; chordTrans := [] |})
    as K.
  unfold chordToBraille.
  destruct (chordToBraille_body L H descending showOctave _) as [s r].
  exact K.
Qed.

Lemma kept_then {S A B} (R : S -> S -> Prop) (m : SM S A) (k : A -> SM S B)
  (s : S) :
  (forall s1 s2 s3, R s1 s2 -> R s2 s3 -> R s1 s3) ->
  R s (fst (m s)) -> (forall a, keeps R (k a)) -> R s (fst (sbind m k s)).
Proof.
  intros Htrans Hm Hk. unfold sbind.
  destruct (m s) as [s' [a|e]]; simpl in *; [|exact Hm].
  eapply Htrans; [exact Hm|apply Hk].
Qed.

Lemma kept_attribute {A} (f : Grouping -> option bool) (k : bool -> SM GroupSt A)
  (s : GroupSt) :
  (forall v, group_kept s (fst (k v s))) ->
  group_kept s (fst (sbind (attribute f) k s)).
Proof.
  intros Hk. unfold sbind, attribute.
  destruct (f (brailleElementGrouping s)); [apply Hk|apply group_kept_refl].
Qed.

Lemma kept_lift {A B} (r : result A) (k : A -> SM GroupSt B) (s : GroupSt) :
  (forall v, group_kept s (fst (k v s))) ->
  group_kept s (fst (sbind (slift r) k s)).
Proof.
  intros Hk. unfold sbind, slift. destruct r; [apply Hk|apply group_kept_refl].
Qed.

Lemma kept_store (s : GroupSt) (i : nat) (e e' : Element) (b : gmap string bool) :
  elements (brailleElementGrouping s) !! i = Some e -> element_kept e e' ->
  group_kept s (fst (store i e' b s)).
Proof.
  intros Hi He. split; [|repeat split]. simpl.
  now apply (elements_kept_insert _ _ e).
Qed.

Lemma keeps_group_modify (f : GroupSt -> GroupSt) :
  (forall s, brailleElementGrouping (f s) = brailleElementGrouping s) ->
  keeps group_kept (smodify f).
Proof.
  intros Hf s. unfold group_kept. simpl. rewrite Hf.
  split; [apply elements_kept_refl|auto].
Qed.

Ltac group_keeps_step :=
  first
    [ apply (keeps_ret _ group_kept_refl)
    | apply (keeps_lift _ group_kept_refl)
    | apply (keeps_bind _ group_kept_trans); [|intros ?]
    | apply keeps_group_modify; intros ?; reflexivity
    | match goal with
      | |- keeps _ (if ?b then _ else _) => destruct b
      | |- keeps _ (match ?x with _ => _ end) => destruct x
      end ].

Lemma note_frame_kept (L : Lookup) (n : Note) (showOctave upperFirst : bool)
  (b : gmap string bool) :
  element_kept (ENote n) (ENote (noteToBraille L n showOctave upperFirst b).1.1).
Proof.
  destruct (noteToBraille_frame L n showOctave upperFirst b) as [Hm [E|E]];
    split; try exact Hm; rewrite E; [reflexivity|apply sorted_Permutation].
Qed.

Lemma encodeElement_kept (L : Lookup) (H : Host) (i : nat) (e : Element)
  (s : GroupSt) :
  elements (brailleElementGrouping s) !! i = Some e ->
  group_kept s (fst (encodeElement L H i e s)).
Proof.
  intros Hi. unfold encodeElement.
  apply kept_attribute. intros upperFirst. unfold sbind at 1, sget.
  destruct e as [n|r|c|d|x|bl|cl|].
  - pose proof (note_frame_kept L n (doShowOctave H s n) upperFirst
                  (group_beamStatus s)) as K.
    destruct (noteToBraille L n _ upperFirst (group_beamStatus s))
      as [[n' b'] r].
    apply (kept_then _ _ _ _ group_kept_trans);
      [now apply (kept_store _ _ (ENote n))|intros _].
    unfold trans_append, set_previousNote. repeat group_keeps_step.
  - pose proof (proj1 (rest_frame L r)) as K.
    destruct (restToBraille L r) as [r' res].
    apply (kept_then _ _ _ _ group_kept_trans);
      [now apply (kept_store _ _ (ERest r))|intros _].
    unfold trans_append. repeat group_keeps_step.
  - apply kept_attribute. intros descending.
    apply kept_lift. intros currentNote.
    pose proof (chord_frame L H c descending (doShowOctave H s currentNote)
                  (group_beamStatus s)) as K.
    destruct (chordToBraille L H c descending _ (group_beamStatus s))
      as [[c' b'] r].
    apply (kept_then _ _ _ _ group_kept_trans);
      [now apply (kept_store _ _ (EChord c))|intros _].
    unfold trans_append, set_previousNote. repeat group_keeps_step.
  - pose proof (proj1 (dynamic_frame L d true)) as K.
    destruct (dynamicToBraille L d true) as [d' res].
    apply (kept_then _ _ _ _ group_kept_trans);
      [now apply (kept_store _ _ (EDynamic d))|intros _].
    unfold trans_append, resetOctave. repeat group_keeps_step.
  - pose proof (proj1 (text_frame L x true)) as K.
    destruct (textExpressionToBraille L x true) as [x' res].
    apply (kept_then _ _ _ _ group_kept_trans);
      [now apply (kept_store _ _ (ETextExpression x))|intros _].
    unfold trans_append, resetOctave. repeat group_keeps_step.
  - pose proof (proj1 (barline_frame L bl)) as K.
    destruct (barlineToBraille L bl) as [bl' res].
    apply (kept_then _ _ _ _ group_kept_trans);
      [now apply (kept_store _ _ (EBarline bl))|intros _].
    unfold trans_append. repeat group_keeps_step.
  - apply kept_attribute. intros [|]; [|apply group_kept_refl].
    pose proof (proj1 (clef_frame L cl false)) as K.
    destruct (clefToBraille L cl false) as [cl' res].
    apply (kept_then _ _ _ _ group_kept_trans);
      [now apply (kept_store _ _ (EClef cl))|intros _].
    unfold trans_append, resetOctave. repeat group_keeps_step.
  - apply group_kept_refl.
Qed.

Lemma element_english_kept (t : entry) (e e' : Element) :
  element_english t e = Ok e' -> element_kept e e'.
Proof.
  destruct e; simpl; try discriminate;
    match goal with
    | |- match ?o with _ => _ end = _ -> _ => destruct o
    end; try discriminate; intros [= <-]; reflexivity.
Qed.

Lemma dot3_kept (L : Lookup) (j : nat) (previous : Element) (s : GroupSt) :
  elements (brailleElementGrouping s) !! j = Some previous ->
  group_kept s (fst (dot3 L j previous s)).
Proof.
  intros Hj. unfold dot3. unfold sbind at 1, sget.
  apply kept_lift. intros lastTrans. apply kept_lift. intros firstCell.
  apply kept_lift. intros [[dots14 dots25] dots36].
  destruct (leftDot dots14 || leftDot dots25 || leftDot dots36);
    [|apply group_kept_refl].
  unfold sbind at 1, set_trans, smodify. unfold sbind at 1, slift.
  destruct (element_english _ previous) as [previous'|e] eqn:Ee.
  - apply element_english_kept in Ee.
    pose proof (kept_store s j previous previous' (group_beamStatus s) Hj Ee)
      as K.
    exact K.
  - split; [apply elements_kept_refl|auto].
Qed.

Lemma disambiguate_kept (L : Lookup) (e : Element) (s : GroupSt) :
  group_kept s (fst (disambiguate L e s)).
Proof.
  unfold disambiguate, sbind at 1, sget.
  destruct (previousElement s) as [j|]; [|apply group_kept_refl].
  destruct (elements (brailleElementGrouping s) !! j) as [previous|] eqn:Hj;
    [|apply group_kept_refl].
  apply kept_attribute. intros show.
  destruct (_ || _); [now apply dot3_kept|].
  destruct (_ && _); [|apply group_kept_refl].
  destruct previous; try apply group_kept_refl.
  destruct (lastChar (content x)) as [ch|]; [|apply group_kept_refl].
  destruct (negb (Ascii.eqb ch ".")); [now apply dot3_kept|apply group_kept_refl].
Qed.

Lemma groupingStep_kept (L : Lookup) (H : Host) (i : nat) :
  keeps group_kept (groupingStep L H i).
Proof.
  intros s. unfold groupingStep, sbind at 1, sget.
  destruct (elements (brailleElementGrouping s) !! i) as [e|] eqn:Hi;
    [|apply group_kept_refl].
  apply (kept_then _ _ _ _ group_kept_trans);
    [now apply encodeElement_kept|intros _].
  apply (keeps_bind _ group_kept_trans);
    [intros s'; apply disambiguate_kept|intros _].
  unfold set_previousElement. repeat group_keeps_step.
Qed.

Lemma groupingLoop_kept (L : Lookup) (H : Host) :
  keeps group_kept (groupingLoop L H).
Proof.
  unfold groupingLoop. apply keeps_get. intros s0.
  apply (keeps_bind _ group_kept_trans).
  - apply (keeps_forM _ group_kept_refl group_kept_trans).
    apply groupingStep_kept.
  - intros _. apply keeps_get. intros s1. apply (keeps_ret _ group_kept_refl).
Qed.

(** What [transcribeNoteGrouping] leaves of its grouping: the elements,
    each up to its log and the order of a note's articulations, and the
    three attributes, as they were or with the defaults. *)
Lemma grouping_frame (L : Lookup) (H : Host) (depth : nat) (g g' : Grouping)
  (showLeadingOctave0 : bool) (b b' : gmap string bool) (r : result ustr) :
  transcribeNoteGrouping_rec L H depth g showLeadingOctave0 b = Some (g', b', r) ->
  grouping_kept g g'.
Proof.
  revert g showLeadingOctave0 b.
  induction depth as [|depth IH]; intros g slo b; simpl; [discriminate|].
  pose proof (groupingLoop_kept L H
                {| brailleElementGrouping := g; group_beamStatus := b;
                   trans := []; previousNote := None; previousElement := None;
                   showLeadingOctave := slo |}) as K.
  destruct (groupingLoop L H _) as [s res]. simpl in K.
  destruct K as (KE & KA & KB & KC).
  assert (Hdone : grouping_kept g (brailleElementGrouping s)).
  { split; [exact KE|]. left. auto. }
  destruct res as [u|[]]; try (intros [= <- <- <-]; exact Hdone).
  intros Hrec. apply IH in Hrec. destruct Hrec as [E2 Hcfg].
  split; [eapply elements_kept_trans; [exact KE|exact E2]|].
  right. destruct Hcfg as [(-> & -> & ->)|?]; [simpl; auto|assumption].
Qed.

(** C9, as the code has it: every element encoder leaves its argument as
    it was except for the explanation log [_brailleEnglish] and, for a
    note, the order of its articulations, which [noteToBraille] sorts by
    name in place; the log of the argument has no effect on what the
    encoder returns; and [transcribeNoteGrouping] changes the elements of
    its grouping only in these ways and its three attributes only by
    assigning the defaults. *)
Theorem C9_encoders_keep_their_arguments (L : Lookup) (H : Host) :
  (forall x,
      clear_barline (barlineToBraille L x).1 = clear_barline x
      /\ (barlineToBraille L (clear_barline x)).2 = (barlineToBraille L x).2)
  /\ (forall x,
        clear_rest (restToBraille L x).1 = clear_rest x
        /\ (restToBraille L (clear_rest x)).2 = (restToBraille L x).2)
  /\ (forall x changeSuffix,
        clear_clef (clefToBraille L x changeSuffix).1 = clear_clef x
        /\ (clefToBraille L (clear_clef x) changeSuffix).2
           = (clefToBraille L x changeSuffix).2)
  /\ (forall x precedeByWordSign,
        clear_dynamic (dynamicToBraille L x precedeByWordSign).1 = clear_dynamic x
        /\ (dynamicToBraille L (clear_dynamic x) precedeByWordSign).2
           = (dynamicToBraille L x precedeByWordSign).2)
  /\ (forall x precedeByWordSign,
        clear_text (textExpressionToBraille L x precedeByWordSign).1 = clear_text x
        /\ (textExpressionToBraille L (clear_text x) precedeByWordSign).2
           = (textExpressionToBraille L x precedeByWordSign).2)
  /\ (forall x outgoing,
        clear_key (keySigToBraille L x outgoing).1 = clear_key x
        /\ (keySigToBraille L (clear_key x) outgoing).2
           = (keySigToBraille L x outgoing).2)
  /\ (forall x,
        clear_time (timeSigToBraille L x).1 = clear_time x
        /\ (timeSigToBraille L (clear_time x)).2 = (timeSigToBraille L x).2)
  /\ (forall n showOctave upperFirstInFingering b,
        same_music n (noteToBraille L n showOctave upperFirstInFingering b).1.1
        /\ (articulations (noteToBraille L n showOctave upperFirstInFingering b).1.1
            = articulations n
            \/ articulations (noteToBraille L n showOctave upperFirstInFingering b).1.1
               = sorted name_lt (articulations n))
        /\ (noteToBraille L (clear_note n) showOctave upperFirstInFingering b).2
           = (noteToBraille L n showOctave upperFirstInFingering b).2)
  /\ (forall c descending showOctave b,
        clear_chord (chordToBraille L H c descending showOctave b).1.1
        = clear_chord c
        /\ (chordToBraille L H (clear_chord c) descending showOctave b).2
           = (chordToBraille L H c descending showOctave b).2)
  /\ (forall g showLeadingOctave0 b,
        match transcribeNoteGrouping L H g showLeadingOctave0 b with
        | Some (g', _, _) => grouping_kept g g'
        | None => True
        end).
Proof.
  split; [intros; apply barline_frame|].
  split; [intros; apply rest_frame|].
  split; [intros; apply clef_frame|].
  split; [intros; apply dynamic_frame|].
  split; [intros; apply text_frame|].
  split; [intros; apply key_frame|].
  split; [intros; apply time_frame|].
  split.
  { intros n showOctave upperFirstInFingering b.
    destruct (noteToBraille_frame L n showOctave upperFirstInFingering b)
      as [Hm Ha].
    split; [exact Hm|]. split; [exact Ha|]. now rewrite note_clear_same. }
  split.
  { intros c descending showOctave b.
    split; [apply chord_frame|now rewrite chord_clear_same]. }
  intros g showLeadingOctave0 b.
  destruct (transcribeNoteGrouping L H g showLeadingOctave0 b)
    as [[[g' b'] r]|] eqn:E; [|exact I].
  exact (grouping_frame L H 2 g g' showLeadingOctave0 b b' r E).
Qed.

(** C9 as stated fails: [noteToBraille] leaves the articulations of its
    note in another order than it found them, and [transcribeNoteGrouping]
    sets the three attributes of a grouping that had none. *)
Lemma C9_counterexample :
  map art_name
    (articulations
       (noteToBraille sampleLookup
          (mkNote (mkPitch "C" 4 None) (mkDuration "quarter") ["tenuto"; "accent"])
          true true ∅).1.1)
  = ["accent"; "tenuto"]
  /\ (fun out => showClefSigns out.1.1) <$>
       transcribeNoteGrouping sampleLookup sampleHost
         {| elements := [ERest (mkRest "quarter")]; descendingChords := None;
            showClefSigns := None; upperFirstInNoteFingering := None |}
         true ∅
     = Some (Some false).
Proof. split; vm_compute; reflexivity. Qed.

(** ** The extra dot 3 in a turn of the loop *)

Lemma others_kept_refl (i : nat) (s : GroupSt) : others_kept i s s.
Proof. repeat split. Qed.

Lemma others_kept_trans (i : nat) (s1 s2 s3 : GroupSt) :
  others_kept i s1 s2 -> others_kept i s2 s3 -> others_kept i s1 s3.
Proof.
  intros (P1 & S1 & E1) (P2 & S2 & E2). repeat split; try congruence.
  intros j Hj. rewrite E2, E1; auto.
Qed.

Lemma others_kept_store (i : nat) (e : Element) (b : gmap string bool) :
  keeps (others_kept i) (store i e b).
Proof.
  intros s. unfold store, smodify. simpl. repeat split.
  intros j Hj. now apply list_lookup_insert_ne.
Qed.

Ltac others_kept_step :=
  match goal with
  | |- keeps _ (sret _) => apply (keeps_ret _ (others_kept_refl _))
  | |- keeps _ (slift _) => apply (keeps_lift _ (others_kept_refl _))
  | |- keeps _ (store _ _ _) => apply others_kept_store
  | |- keeps _ (sbind sget _) => apply keeps_get; intros ?
  | |- keeps _ (sbind _ _) =>
      apply (keeps_bind _ (others_kept_trans _)); [|intros ?]
  | |- keeps _ (smodify _) => apply keeps_modify; intros ?; repeat split
  | |- keeps _ (attribute _) =>
      let s := fresh "s" in
      intros s; unfold attribute; destruct (_ (brailleElementGrouping s));
      apply others_kept_refl
  | |- keeps _ (let '(_, _) := ?x in _) => destruct x
  | |- keeps _ (if ?b then _ else _) => destruct b
  | |- keeps _ (match ?x with _ => _ end) => destruct x
  end.

Lemma encodeElement_others_kept (L : Lookup) (H : Host) (i : nat) (e : Element) :
  keeps (others_kept i) (encodeElement L H i e).
Proof.
  unfold encodeElement, trans_append, set_previousNote, resetOctave.
  repeat others_kept_step.
Qed.

(** C8, as the code has it: in the turn of [transcribeNoteGrouping] for
    an element that comes after one of the elements the rule names, when
    the element has written a string that starts with the cell [c], a
    dot 3 is inserted just before that string exactly when one of the
    three rows of [c] has its left dot raised (the row is ['10'] or
    ['11']), that is, when [c] has one of the dots 1, 2 and 3. *)
Theorem C8_dot3_insertion (L : Lookup) (H : Host) (i j : nat) (s s1 : GroupSt)
  (previous current : Element) (show : bool) (c : N) (u : ustr)
  (dots14 dots25 dots36 : string) :
  elements (brailleElementGrouping s) !! i = Some current ->
  previousElement s = Some j ->
  j <> i ->
  elements (brailleElementGrouping s) !! j = Some previous ->
  showClefSigns (brailleElementGrouping s) = Some show ->
  spec_dot3_context show previous current = true ->
  has_english previous = true ->
  encodeElement L H i current s = (s1, Ok tt) ->
  trans s1 = trans s ++ [c :: u] ->
  binary_dots L c = Some (dots14, dots25, dots36) ->
  exists s',
    groupingStep L H i s = (s', Ok tt)
    /\ trans s'
       = trans s
         ++ (if leftDot dots14 || leftDot dots25 || leftDot dots36
             then [sym_dot L] else [])
         ++ [c :: u].
Proof.
  intros Hcur Hj Hji Hprev Hshow Hctx Heng Henc Htrans Hdots.
  destruct (encodeElement_others_kept L H i current s) as (P1 & S1 & E1).
  rewrite Henc in P1, S1, E1. simpl in P1, S1, E1.
  destruct (disambiguate_dot3 L s1 previous current j show (trans s) c u
              dots14 dots25 dots36) as (s2 & E2 & T2); try assumption.
  - congruence.
  - rewrite E1 by exact Hji. exact Hprev.
  - congruence.
  - exists (fst (set_previousElement i s2)). split.
    + unfold groupingStep, sbind at 1, sget. rewrite Hcur.
      unfold sbind at 1. rewrite Henc.
      unfold sbind at 1. rewrite E2. reflexivity.
    + simpl. rewrite T2.
      destruct (leftDot dots14 || leftDot dots25 || leftDot dots36);
        reflexivity.
Qed.

Lemma C8_dot3_insertion_witness :
  exists s',
    groupingStep sampleLookup sampleHost 1 sampleDot3St = (s', Ok tt)
    /\ trans s'
       = trans sampleDot3St
         ++ (if leftDot "10" || leftDot "10" || leftDot "11"
             then [sym_dot sampleLookup] else [])
         ++ [DOC [1; 2; 3; 6] :: []].
Proof.
  apply (C8_dot3_insertion sampleLookup sampleHost 1 0 sampleDot3St sampleDot3Encoded.1
           (EDynamic (with_dynamic_english (mkDynamic "f") []))
           (ERest (mkRest "quarter")) false (DOC [1; 2; 3; 6]) []
           "10" "10" "11"); try reflexivity.
  discriminate.
Defined.

(** ** The second attempt of the grouping encoder *)

Section Steady.

Context {S : Type} (I : S -> Prop).

Lemma steady_ret {A} (a : A) : steady I (sret a).
Proof. intros s Hs. split; [exact Hs|discriminate]. Qed.

Lemma steady_lift {A} (r : result A) :
  r <> Raise AttributeError -> steady I (slift r).
Proof. intros Hr s Hs. split; [exact Hs|exact Hr]. Qed.

Lemma steady_modify (f : S -> S) :
  (forall s, I s -> I (f s)) -> steady I (smodify f).
Proof. intros Hf s Hs. split; [now apply Hf|discriminate]. Qed.

Lemma steady_bind {A B} (m : SM S A) (k : A -> SM S B) :
  steady I m -> (forall a, steady I (k a)) -> steady I (sbind m k).
Proof.
  intros Hm Hk s Hs. unfold sbind. destruct (Hm s Hs) as [Hs' Hr].
  destruct (m s) as [s' [a|e]]; simpl in *.
  - now apply Hk.
  - split; [assumption|]. intros [= ->]. now apply Hr.
Qed.

Lemma steady_catch {A} (m h : SM S A) (e : exn) :
  steady I m -> steady I h -> steady I (scatch m e h).
Proof.
  intros Hm Hh s Hs. unfold scatch. destruct (Hm s Hs) as [Hs' Hr].
  destruct (m s) as [s' [a|e']]; simpl in *.
  - split; [assumption|discriminate].
  - destruct (exn_eqb e' e); [now apply Hh|split; assumption].
Qed.

Lemma steady_forM {A} (f : A -> SM S unit) (l : list A) :
  (forall x, steady I (f x)) -> steady I (sforM f l).
Proof.
  intros Hf. induction l as [|x l IH]; simpl.
  - apply steady_ret.
  - apply steady_bind; [apply Hf|intros _; exact IH].
Qed.

Lemma steady_get {A} (k : S -> SM S A) :
  (forall s0, I s0 -> steady I (k s0)) -> steady I (sbind sget k).
Proof. intros Hk s Hs. unfold sbind, sget. now apply Hk. Qed.

End Steady.

Lemma getitem_steady {A} (o : option A) : getitem o <> Raise AttributeError.
Proof. destruct o; discriminate. Qed.

Lemma octaveMark_steady (L : Lookup) (o : option Z) :
  octaveMark L o <> Raise AttributeError.
Proof.
  intros E. apply octaveMark_raises in E. discriminate.
Qed.

Lemma steady_append (u : ustr) : steady logged (append u).
Proof. intros s Hs. split; [exact Hs|discriminate]. Qed.

Lemma steady_english (e : entry) : steady logged (english e).
Proof.
  intros s [t Ht]. unfold english. rewrite Ht. split; [|discriminate].
  unfold logged. simpl. eauto.
Qed.

Lemma steady_beam (k : string) : steady logged (beam k).
Proof. intros s Hs. split; [exact Hs|]. apply getitem_steady. Qed.

Lemma steady_theNote : steady logged theNote.
Proof. intros s Hs. split; [exact Hs|discriminate]. Qed.

Lemma steady_theTrans : steady logged theTrans.
Proof. intros s Hs. split; [exact Hs|discriminate]. Qed.

Lemma steady_on_beamStatus (f : gmap string bool -> gmap string bool) :
  steady logged (smodify (on_beamStatus f)).
Proof. intros s Hs. split; [exact Hs|discriminate]. Qed.

Lemma steady_sort :
  steady logged
    (smodify (on_note (fun n => with_articulations n
                                  (sorted name_lt (articulations n))))).
Proof. intros s Hs. split; [exact Hs|discriminate]. Qed.

Ltac steady_step :=
  first
    [ apply steady_append | apply steady_english | apply steady_beam
    | apply steady_theNote | apply steady_theTrans
    | apply steady_on_beamStatus | apply steady_sort
    | apply steady_ret
    | apply steady_lift;
      first [apply getitem_steady | apply octaveMark_steady | discriminate]
    | apply steady_bind; [|intros ?]
    | apply steady_catch
    | apply steady_forM; intros ?
    | match goal with
      | |- steady _ (if ?b then _ else _) => destruct b
      | |- steady _ (match ?x with _ => _ end) => destruct x
      end ].

Lemma steady_afterKeywords (L : Lookup) (showOctave upperFirst : bool) :
  steady logged (afterKeywords L showOctave upperFirst).
Proof.
  unfold afterKeywords, openingSlurs, tripletBlock, articulationsBlock,
    accidentalBlock, octaveBlock, nameAndDuration, fingeringBlock,
    closingSlurs, tieBlock, staccatoFirst, otherArticulation.
  repeat steady_step.
Qed.

(** [noteToBraille] does not raise [AttributeError]. *)
Lemma noteToBraille_steady (L : Lookup) (n : Note) (showOctave upperFirst : bool)
  (b : gmap string bool) :
  (noteToBraille L n showOctave upperFirst b).2 <> Raise AttributeError.
Proof.
  unfold noteToBraille. rewrite noteToBraille_body_unfold.
  assert (Hk : steady logged
                 (sbind initBeamStatus
                        (fun _ => afterKeywords L showOctave upperFirst))).
  { apply steady_bind; [|intros _; apply steady_afterKeywords].
    unfold initBeamStatus. repeat steady_step. }
  destruct (Hk (entry_state n b)) as [_ Hr].
  { unfold logged, entry_state. simpl. eauto. }
  destruct (sbind _ _ (entry_state n b)) as [s r]. exact Hr.
Qed.

Lemma steady_chord_append (u : ustr) : steady chord_logged (chord_append u).
Proof. intros s Hs. split; [exact Hs|discriminate]. Qed.

Lemma steady_chord_english (e : entry) : steady chord_logged (chord_english e).
Proof.
  intros s [t Ht]. unfold chord_english. rewrite Ht. split; [|discriminate].
  unfold chord_logged. simpl. eauto.
Qed.

Ltac chord_steady_step :=
  first
    [ apply steady_chord_append | apply steady_chord_english
    | apply steady_ret
    | apply steady_lift;
      first [assumption | apply getitem_steady | apply octaveMark_steady
            | discriminate]
    | match goal with
      | |- steady _ (sbind sget _) => apply steady_get; intros ? ?
      end
    | apply steady_bind; [|intros ?]
    | apply steady_forM; intros ?
    | apply steady_modify; intros ? ?; assumption
    | match goal with
      | |- steady _ (if ?b then _ else _) => destruct b
      | |- steady _ (match ?x with _ => _ end) => destruct x
      end ].

Lemma chordToBraille_body_steady (L : Lookup) (H : Host)
  (descending showOctave : bool) (s : ChordSt) :
  (chordToBraille_body L H descending showOctave s).2 <> Raise AttributeError.
Proof.
  unfold chordToBraille_body.
  match goal with
  | |- (sbind (smodify ?f) ?k s).2 <> _ =>
      change ((k tt (f s)).2 <> Raise AttributeError);
      assert (Hk : steady chord_logged (k tt))
  end.
  { apply steady_get. intros s1 Hs1. lazy zeta.
    destruct (if descending then _ else _) as [|basePitch rest];
      [apply steady_lift; discriminate|].
    pose proof (noteToBraille_steady L
                  (initNote basePitch (chord_duration (music21Chord s1)))
                  showOctave true (chord_beamStatus s1)) as Hn.
    destruct (noteToBraille L _ showOctave true (chord_beamStatus s1))
      as [[n' b'] r]. simpl in Hn.
    unfold chordPitch, chordOctave.
    repeat chord_steady_step. }
  apply Hk. unfold chord_logged. simpl. eauto.
Qed.

(** [chordToBraille] does not raise [AttributeError]. *)
Lemma chordToBraille_steady (L : Lookup) (H : Host) (c : Chord)
  (descending showOctave : bool) (b : gmap string bool) :
  (chordToBraille L H c descending showOctave b).2 <> Raise AttributeError.
Proof.
  unfold chordToBraille.
  pose proof (chordToBraille_body_steady L H descending showOctave
                {| music21Chord := c; chord_beamStatus := b; chordTrans := [] |})
    as Hr.
  destruct (chordToBraille_body L H descending showOctave _) as [s r].
  exact Hr.
Qed.

Lemma wordLetter_steady (L : Lookup) (isText : bool) (c : ascii) :
  wordLetter L isText c <> Raise AttributeError.
Proof.
  unfold wordLetter, try_except, getitem.
  destruct isText.
  - destruct (isupper c).
    + destruct (alphabet L (lower c)); discriminate.
    + destruct (Ascii.eqb c "."); [discriminate|].
      destruct (alphabet L c); discriminate.
  - destruct (isupper c).
    + destruct (alphabet L (lower c)); discriminate.
    + destruct (alphabet L c); discriminate.
Qed.

Lemma wordToBraille_steady (L : Lookup) (w : string) (isText : bool) :
  wordToBraille L w isText <> Raise AttributeError.
Proof.
  unfold wordToBraille.
  assert (Hl : wordLoop L isText w <> Raise AttributeError).
  { induction w as [|c w IH]; simpl; [discriminate|].
    pose proof (wordLetter_steady L isText c) as Hc.
    destruct (wordLetter L isText c) as [t|e]; simpl.
    - destruct (wordLoop L isText w) as [ts|e]; simpl; [discriminate|].
      intros [= ->]. now apply IH.
    - intros [= ->]. now apply Hc. }
  destruct (wordLoop L isText w) as [ts|e]; simpl; [discriminate|].
  intros [= ->]. now apply Hl.
Qed.

Lemma dynamicToBraille_steady (L : Lookup) (d : Dynamic) (precede : bool) :
  (dynamicToBraille L d precede).2 <> Raise AttributeError.
Proof.
  unfold dynamicToBraille.
  pose proof (wordToBraille_steady L (value d) true) as Hw.
  destruct (wordToBraille L (value d) true) as [g|[]]; simpl;
    try discriminate. congruence.
Qed.

Lemma exprWords_steady (L : Lookup) (ws : list string) :
  exprWords L ws <> Raise AttributeError.
Proof.
  induction ws as [|w ws IH]; simpl; [discriminate|].
  pose proof (wordToBraille_steady L w true) as Hw.
  destruct (wordToBraille L w true) as [g|e]; simpl.
  - destruct (exprWords L ws) as [ts|e]; simpl; [discriminate|].
    intros [= ->]. now apply IH.
  - intros [= ->]. now apply Hw.
Qed.

Lemma textExpressionToBraille_steady (L : Lookup) (x : TextExpression)
  (precede : bool) :
  (textExpressionToBraille L x precede).2 <> Raise AttributeError.
Proof.
  unfold textExpressionToBraille.
  destruct (textExpressions L (content x)); [discriminate|].
  match goal with
  | |- (match ?body with _ => _ end).2 <> _ =>
      assert (Hb : body <> Raise AttributeError)
  end.
  { destruct (split_ws (content x)) as [|w [|w2 ws]] eqn:Ew.
    - simpl. discriminate.
    - pose proof (wordToBraille_steady L w true) as Hw.
      destruct (wordToBraille L w true); simpl; [discriminate|congruence].
    - pose proof (exprWords_steady L (removelast (w :: w2 :: ws))) as He.
      destruct (exprWords L (removelast (w :: w2 :: ws))) as [fs|e];
        [|simpl; congruence].
      cbn [rbind].
      destruct (last (w :: w2 :: ws)) as [lw|]; [|simpl; discriminate].
      cbn [rbind].
      pose proof (wordToBraille_steady L lw true) as Hw.
      destruct (wordToBraille L lw true); simpl; [discriminate|congruence]. }
  match goal with
  | |- (match ?body with _ => _ end).2 <> _ =>
      destruct body as [[t r]|[]]
  end; simpl; try discriminate; congruence.
Qed.

Lemma quiet_ret {A} (a : A) : quiet (sret a).
Proof. intros s. split; [now split|discriminate]. Qed.

Lemma quiet_lift {A} (r : result A) : r <> Raise AttributeError -> quiet (slift r).
Proof. intros Hr s. split; [now split|exact Hr]. Qed.

Lemma quiet_modify (f : GroupSt -> GroupSt) :
  (forall s, same_grouping s (f s)) -> quiet (smodify f).
Proof. intros Hf s. split; [apply Hf|discriminate]. Qed.

Lemma quiet_bind {A B} (m : SM GroupSt A) (k : A -> SM GroupSt B) :
  quiet m -> (forall a, quiet (k a)) -> quiet (sbind m k).
Proof.
  intros Hm Hk s. unfold sbind. destruct (Hm s) as [[G P] Hr].
  destruct (m s) as [s' [a|e]]; simpl in *.
  - destruct (Hk a s') as [[G' P'] Hr']. split; [|exact Hr'].
    split; congruence.
  - split; [now split|]. intros [= ->]. now apply Hr.
Qed.

Ltac quiet_step :=
  first
    [ apply quiet_ret
    | apply quiet_lift; assumption
    | apply quiet_bind; [|intros ?]
    | apply quiet_modify; intros ?; split; reflexivity ].

Lemma encoded_at_same (show : bool) (s s' : GroupSt) (k : nat) :
  brailleElementGrouping s' = brailleElementGrouping s ->
  encoded_at show s k -> encoded_at show s' k.
Proof. unfold encoded_at. now intros ->. Qed.

(** Storing an encoded element and going on quietly is a good turn that
    leaves the element at [i] encoded. *)
Lemma after_store (show : bool) (i : nat) (e e' : Element)
  (b : gmap string bool) (k : SM GroupSt unit) (s s' : GroupSt)
  (r : result unit) :
  quiet k ->
  elements (brailleElementGrouping s) !! i = Some e ->
  (triggers show e' = true -> has_english e' = true) ->
  (store i e' b >>> k) s = (s', r) ->
  turn_ok show s s' r /\ encoded_at show s' i.
Proof.
  intros Hk Hi He Es.
  set (s1 := fst (store i e' b s)).
  change (k s1 = (s', r)) in Es.
  destruct (Hk s1) as [[G P] Hr]. rewrite Es in G, P, Hr.
  subst s1. simpl in *.
  assert (Hat : forall j, encoded_at show s j \/ j = i -> encoded_at show s' j).
  { intros j Hj x Hx Ht. rewrite G in Hx. simpl in Hx.
    destruct (decide (j = i)) as [->|Hne].
    - rewrite list_lookup_insert_eq in Hx by (eapply lookup_lt_Some; eauto).
      injection Hx as <-. now apply He.
    - rewrite list_lookup_insert_ne in Hx by congruence.
      destruct Hj as [Hj|]; [|contradiction]. now apply Hj. }
  split; [|apply Hat; now right].
  split; [exact Hr|]. rewrite P, G. simpl.
  repeat split. intros j Hj. apply Hat. now left.
Qed.

Lemma turn_ok_refl (show : bool) (s : GroupSt) {A} (r : result A) :
  r <> Raise AttributeError -> turn_ok show s s r.
Proof. intros Hr. repeat split; auto. Qed.

Lemma attribute_ok (f : Grouping -> option bool) (s : GroupSt) :
  is_Some (f (brailleElementGrouping s)) ->
  exists v, attribute f s = (s, Ok v) /\ f (brailleElementGrouping s) = Some v.
Proof. intros [v Hv]. exists v. unfold attribute. now rewrite Hv. Qed.

Lemma encodeElement_turn (L : Lookup) (H : Host) (show : bool) (i : nat)
  (e : Element) (s s' : GroupSt) (res : result unit) :
  attempt_ok show s ->
  elements (brailleElementGrouping s) !! i = Some e ->
  encodeElement L H i e s = (s', res) ->
  turn_ok show s s' res /\ (res = Ok tt -> encoded_at show s' i).
Proof.
  intros (Hd & Hs & Hu & Hprev) Hi E. unfold encodeElement in E.
  destruct (attribute_ok upperFirstInNoteFingering s Hu) as (uf & Euf & _).
  unfold sbind at 1 in E. rewrite Euf in E. unfold sbind at 1, sget in E.
  assert (Hnone : forall x : Element,
             e = x -> triggers show x = false ->
             (s', res) = (s, Ok tt) ->
             turn_ok show s s' res /\ (res = Ok tt -> encoded_at show s' i)).
  { intros x -> Ht [= -> ->]. split; [apply turn_ok_refl; discriminate|].
    intros _ y Hy Hty. rewrite Hi in Hy. injection Hy as <-. congruence. }
  destruct e as [n|r|c|d|x|bl|cl|].
  - pose proof (noteToBraille_steady L n (doShowOctave H s n) uf
                  (group_beamStatus s)) as Hr.
    destruct (noteToBraille L n _ uf (group_beamStatus s)) as [[n' b'] r].
    simpl in Hr.
    eapply (after_store show i (ENote n)) in E;
      [ destruct E as [T En]; split; [exact T|intros _; exact En]
      | unfold trans_append, set_previousNote; repeat quiet_step
      | exact Hi
      | discriminate ].
  - destruct (restToBraille L r) as [r' rr] eqn:Er.
    assert (Hr : rr <> Raise AttributeError).
    { unfold restToBraille in Er.
      destruct (rests L _); injection Er as <- <-; discriminate. }
    eapply (after_store show i (ERest r)) in E;
      [ destruct E as [T En]; split; [exact T|intros _; exact En]
      | unfold trans_append; repeat quiet_step
      | exact Hi
      | discriminate ].
  - destruct (attribute_ok descendingChords s Hd) as (desc & Edesc & _).
    unfold sbind at 1 in E. rewrite Edesc in E.
    unfold sbind at 1, slift at 1 in E.
    destruct (if desc then _ else _) as [currentNote|].
    2:{ injection E as <- <-. split; [apply turn_ok_refl|]; discriminate. }
    pose proof (chordToBraille_steady L H c desc (doShowOctave H s currentNote)
                  (group_beamStatus s)) as Hr.
    destruct (chordToBraille L H c desc _ (group_beamStatus s)) as [[c' b'] r].
    simpl in Hr.
    eapply (after_store show i (EChord c)) in E;
      [ destruct E as [T En]; split; [exact T|intros _; exact En]
      | unfold trans_append, set_previousNote; repeat quiet_step
      | exact Hi
      | discriminate ].
  - pose proof (dynamicToBraille_steady L d true) as Hr.
    destruct (dynamicToBraille L d true) as [d' rr] eqn:Ed. simpl in Hr.
    assert (Hlog : has_english (EDynamic d') = true).
    { unfold dynamicToBraille in Ed.
      destruct (wordToBraille L (value d) true) as [g|[]];
        injection Ed as <- <-; apply bool_decide_eq_true; simpl; eauto. }
    eapply (after_store show i (EDynamic d)) in E;
      [ destruct E as [T En]; split; [exact T|intros _; exact En]
      | unfold trans_append, resetOctave; repeat quiet_step
      | exact Hi
      | intros _; exact Hlog ].
  - pose proof (textExpressionToBraille_steady L x true) as Hr.
    destruct (textExpressionToBraille L x true) as [x' rr] eqn:Ex.
    simpl in Hr.
    assert (Hlog : has_english (ETextExpression x') = true).
    { unfold textExpressionToBraille in Ex.
      destruct (textExpressions L (content x)).
      - injection Ex as <- <-. apply bool_decide_eq_true. simpl. eauto.
      - match type of Ex with
        | match ?body with _ => _ end = _ => destruct body as [[t r]|[]]
        end; injection Ex as <- <-; apply bool_decide_eq_true; simpl; eauto. }
    eapply (after_store show i (ETextExpression x)) in E;
      [ destruct E as [T En]; split; [exact T|intros _; exact En]
      | unfold trans_append, resetOctave; repeat quiet_step
      | exact Hi
      | intros _; exact Hlog ].
  - destruct (barlineToBraille L bl) as [bl' rr] eqn:Eb.
    assert (Hr : rr <> Raise AttributeError).
    { unfold barlineToBraille in Eb.
      destruct (barlines L _); injection Eb as <- <-; discriminate. }
    eapply (after_store show i (EBarline bl)) in E;
      [ destruct E as [T En]; split; [exact T|intros _; exact En]
      | unfold trans_append; repeat quiet_step
      | exact Hi
      | discriminate ].
  - unfold sbind at 1, attribute in E. rewrite Hs in E.
    destruct show.
    + destruct (clefToBraille L cl false) as [cl' rr] eqn:Ec.
      assert (Hr : rr <> Raise AttributeError
                   /\ has_english (EClef cl') = true).
      { unfold clefToBraille in Ec.
        repeat match type of Ec with
               | (if ?b then _ else _) = _ => destruct b
               | match ?o with _ => _ end = _ => destruct o
               end; injection Ec as <- <-;
          (split; [discriminate|apply bool_decide_eq_true; simpl; eauto]). }
      destruct Hr as [Hr Hlog].
      eapply (after_store true i (EClef cl)) in E;
        [ destruct E as [T En]; split; [exact T|intros _; exact En]
        | unfold trans_append, resetOctave; repeat quiet_step
        | exact Hi
        | intros _; exact Hlog ].
    + apply (Hnone (EClef cl)); auto.
  - apply (Hnone EOther); auto.
Qed.

Lemma element_english_ok (t : entry) (e : Element) :
  has_english e = true ->
  exists e', element_english t e = Ok e' /\ has_english e' = true.
Proof.
  destruct e; simpl; try discriminate; intros Hl;
    apply bool_decide_eq_true in Hl as [l Hl]; rewrite Hl;
    eexists; (split; [reflexivity|]); apply bool_decide_eq_true; simpl; eauto.
Qed.

Lemma dot3_turn (L : Lookup) (show : bool) (j : nat) (previous : Element)
  (s s' : GroupSt) (res : result unit) :
  elements (brailleElementGrouping s) !! j = Some previous ->
  has_english previous = true ->
  dot3 L j previous s = (s', res) ->
  turn_ok show s s' res.
Proof.
  intros Hj Hlog E. unfold dot3 in E. unfold sbind at 1, sget in E.
  unfold sbind at 1, slift at 1 in E.
  destruct (last (trans s)) as [lastTrans|];
    [|injection E as <- <-; apply turn_ok_refl; discriminate].
  unfold sbind at 1, slift at 1 in E.
  destruct lastTrans as [|firstCell u];
    [injection E as <- <-; apply turn_ok_refl; discriminate|].
  unfold sbind at 1, slift at 1 in E.
  destruct (binary_dots L firstCell) as [[[dots14 dots25] dots36]|];
    [|injection E as <- <-; apply turn_ok_refl; discriminate].
  simpl in E.
  destruct (leftDot dots14 || leftDot dots25 || leftDot dots36);
    [|injection E as <- <-; apply turn_ok_refl; discriminate].
  destruct (element_english_ok (Fmt "Dot 3 {0}" [FBraille (sym_dot L)])
              previous Hlog) as (previous' & Ee & Hlog').
  unfold sbind, set_trans, store, smodify, slift in E. rewrite Ee in E.
  injection E as <- <-. split; [discriminate|]. simpl.
  repeat split. intros k Hk x Hx Ht. simpl in Hx.
  destruct (decide (k = j)) as [->|Hne].
  - rewrite list_lookup_insert_eq in Hx by (eapply lookup_lt_Some; eauto).
    injection Hx as <-. exact Hlog'.
  - rewrite list_lookup_insert_ne in Hx by congruence. now apply Hk.
Qed.

Lemma disambiguate_turn (L : Lookup) (show : bool) (current : Element)
  (s s' : GroupSt) (res : result unit) :
  attempt_ok show s ->
  disambiguate L current s = (s', res) ->
  turn_ok show s s' res.
Proof.
  intros (Hd & Hs & Hu & Hprev) E. unfold disambiguate in E.
  unfold sbind at 1, sget in E.
  destruct (previousElement s) as [j|] eqn:Ej;
    [|injection E as <- <-; apply turn_ok_refl; discriminate].
  destruct (elements (brailleElementGrouping s) !! j) as [previous|] eqn:Hj;
    [|injection E as <- <-; apply turn_ok_refl; discriminate].
  unfold sbind at 1, attribute in E. rewrite Hs in E.
  pose proof (Hprev j eq_refl previous Hj) as Hlog.
  assert (Hsame : (s, Ok tt) = (s', res) -> turn_ok show s s' res).
  { intros [= <- <-]. apply turn_ok_refl. discriminate. }
  destruct previous as [n|r|c|d|x|bl|cl|]; simpl in E;
    rewrite ?andb_false_r, ?andb_true_r, ?orb_false_r in E; simpl in E;
    try (apply Hsame; exact E).
  - destruct (negb (isDynamic current) && negb (isTextExpression current));
      [|apply Hsame; exact E].
    eapply dot3_turn; [exact Hj|now apply Hlog|exact E].
  - destruct (negb (isDynamic current) && negb (isTextExpression current));
      [|apply Hsame; exact E].
    destruct (lastChar (content x)) as [ch|];
      [|injection E as <- <-; apply turn_ok_refl; discriminate].
    destruct (negb (Ascii.eqb ch ".")); [|apply Hsame; exact E].
    eapply dot3_turn; [exact Hj|now apply Hlog|exact E].
  - destruct show; simpl in E; [|apply Hsame; exact E].
    eapply dot3_turn; [exact Hj|now apply Hlog|exact E].
Qed.

Lemma turn_keeps_attempt (show : bool) (s s' : GroupSt) {A} (r : result A) :
  attempt_ok show s -> turn_ok show s s' r -> attempt_ok show s'.
Proof.
  intros (Hd & Hs & Hu & Hprev) (_ & Hp & Ed & Es & Eu & Hmono).
  split; [now rewrite Ed|]. split; [now rewrite Es|]. split; [now rewrite Eu|].
  intros j Hj. apply Hmono, Hprev. congruence.
Qed.

(** With the three attributes set, a turn of the loop does not raise
    [AttributeError]. *)
Lemma groupingStep_steady (L : Lookup) (H : Host) (show : bool) (i : nat) :
  steady (attempt_ok show) (groupingStep L H i).
Proof.
  intros s Hs. destruct (groupingStep L H i s) as [s' r] eqn:E. simpl.
  unfold groupingStep in E. unfold sbind at 1, sget in E.
  destruct (elements (brailleElementGrouping s) !! i) as [e|] eqn:Hi;
    [|injection E as <- <-; split; [exact Hs|discriminate]].
  unfold sbind at 1 in E.
  destruct (encodeElement L H i e s) as [s1 r1] eqn:E1.
  destruct (encodeElement_turn L H show i e s s1 r1 Hs Hi E1) as [T1 En1].
  pose proof (turn_keeps_attempt show s s1 r1 Hs T1) as Hs1.
  destruct r1 as [[]|e1].
  2:{ injection E as <- <-. split; [exact Hs1|].
      destruct T1 as [T1 _]. intros [= ->]. now apply T1. }
  specialize (En1 eq_refl).
  unfold sbind at 1 in E.
  destruct (disambiguate L e s1) as [s2 r2] eqn:E2.
  pose proof (disambiguate_turn L show e s1 s2 r2 Hs1 E2) as T2.
  pose proof (turn_keeps_attempt show s1 s2 r2 Hs1 T2) as Hs2.
  destruct r2 as [[]|e2].
  2:{ injection E as <- <-. split; [exact Hs2|].
      destruct T2 as [T2 _]. intros [= ->]. now apply T2. }
  unfold set_previousElement, smodify in E. injection E as <- <-.
  split; [|discriminate].
  destruct Hs2 as (Hd & Hsh & Hu & _).
  split; [exact Hd|]. split; [exact Hsh|]. split; [exact Hu|].
  simpl. intros j [= <-].
  apply (encoded_at_same show s2); [reflexivity|].
  destruct T2 as (_ & _ & _ & _ & _ & Hmono). now apply Hmono.
Qed.

Lemma groupingLoop_steady (L : Lookup) (H : Host) (show : bool) (s : GroupSt) :
  attempt_ok show s -> snd (groupingLoop L H s) <> Raise AttributeError.
Proof.
  intros Hs. unfold groupingLoop.
  assert (Hk : steady (attempt_ok show)
                 (sbind sget (fun s0 =>
                    sforM (groupingStep L H)
                      (seq 0 (length (elements (brailleElementGrouping s0)))) >>>
                    s' <~ sget ;; sret (concat (trans s'))))).
  { apply steady_get. intros s0 _. apply steady_bind.
    - apply steady_forM. intros i. apply groupingStep_steady.
    - intros _. apply steady_get. intros s1 _. apply steady_ret. }
  apply Hk. exact Hs.
Qed.

(** [transcribeNoteGrouping] always returns or raises: the recursion of
    the handler stops at its second call at the latest, and a greater
    bound on its depth changes nothing. *)
Lemma second_attempt_returns (L : Lookup) (H : Host) (g : Grouping)
  (showLeadingOctave0 : bool) (b : gmap string bool) (depth : nat) :
  is_Some (transcribeNoteGrouping L H g showLeadingOctave0 b)
  /\ transcribeNoteGrouping_rec L H (2 + depth) g showLeadingOctave0 b
     = transcribeNoteGrouping L H g showLeadingOctave0 b.
Proof.
  unfold transcribeNoteGrouping.
  cbn [transcribeNoteGrouping_rec Nat.add].
  destruct (groupingLoop L H _) as [s r].
  destruct r as [u|[]]; try (split; [eauto|reflexivity]).
  pose proof (groupingLoop_steady L H false
                {| brailleElementGrouping := with_defaults (brailleElementGrouping s);
                   group_beamStatus := group_beamStatus s; trans := [];
                   previousNote := None; previousElement := None;
                   showLeadingOctave := showLeadingOctave s |}) as Hno.
  destruct (groupingLoop L H _) as [s2 r2].
  assert (Hr2 : r2 <> Raise AttributeError).
  { apply Hno. repeat split; simpl; eauto. intros j [=]. }
  destruct r2 as [u|[]]; try (split; [eauto|reflexivity]).
  contradiction.
Qed.

(** * Properties of the other encoders *)

(** ** Words *)

Lemma wordLoop_app (L : Lookup) (isText : bool) (s1 s2 : string) :
  wordLoop L isText (String.append s1 s2)
  = (t1 <- wordLoop L isText s1 ;;
     t2 <- wordLoop L isText s2 ;;
     Ok (t1 ++ t2)).
Proof.
  induction s1 as [|c s1 IH].
  - change (String.append "" s2) with s2. simpl.
    now destruct (wordLoop L isText s2).
  - change (String.append (String c s1) s2) with (String c (String.append s1 s2)).
    simpl. destruct (wordLetter L isText c); simpl; [|reflexivity].
    rewrite IH. destruct (wordLoop L isText s1); simpl; [|reflexivity].
    now destruct (wordLoop L isText s2).
Qed.

(** A word is transcribed letter by letter: the braille of two strings
    put together is the braille of the first followed by the braille of
    the second, and it raises when one of the two does, the first one
    first. *)
Theorem wordToBraille_app (L : Lookup) (isText : bool) (s1 s2 : string) :
  wordToBraille L (String.append s1 s2) isText
  = (u1 <- wordToBraille L s1 isText ;;
     u2 <- wordToBraille L s2 isText ;;
     Ok (u1 ++ u2)).
Proof.
  unfold wordToBraille. rewrite wordLoop_app.
  destruct (wordLoop L isText s1); simpl; [|reflexivity].
  destruct (wordLoop L isText s2); simpl; [|reflexivity].
  now rewrite concat_app.
Qed.

(** ** Numbers *)

Lemma uint_digits_range (u : Decimal.uint) :
  Forall (fun d => 0 <= d <= 9) (uint_digits u).
Proof. induction u; simpl; constructor; (lia || assumption). Qed.

Lemma uint_digits_inj (u v : Decimal.uint) :
  uint_digits u = uint_digits v -> u = v.
Proof.
  revert v. induction u; intros v; destruct v; simpl; intros E;
    try discriminate; try reflexivity; injection E as E; f_equal; auto.
Qed.

Lemma uint_digits_nonnil (u : Decimal.uint) :
  u <> Decimal.Nil -> uint_digits u <> [].
Proof. destruct u; simpl; congruence. Qed.

(** The decimal digits of a number that is not negative; a negative
    number starts with the minus sign. *)
Lemma str_of_int_digits (n : Z) :
  (0 <= n ->
   exists ds, str_of_int n = map Some ds /\ Forall (fun d => 0 <= d <= 9) ds)
  /\ (n < 0 -> exists ds, str_of_int n = None :: ds).
Proof.
  unfold str_of_int. destruct n as [|p|p]; simpl; split; intros Hn; try lia.
  - exists [0]. split; [reflexivity|]. constructor; [lia|constructor].
  - exists (uint_digits (Pos.to_uint p)). split; [|apply uint_digits_range].
    pose proof (uint_digits_nonnil _ (DecimalPos.Unsigned.to_uint_nonnil p)).
    now destruct (uint_digits (Pos.to_uint p)).
  - eauto.
Qed.

Lemma str_of_int_inj (n m : Z) : str_of_int n = str_of_int m -> n = m.
Proof.
  intros E. apply DecimalZ.to_int_inj. revert E. unfold str_of_int.
  assert (Hnn : forall z u, Z.to_int z = Decimal.Pos u -> uint_digits u <> []).
  { intros [|p|p] u; simpl; intros [= <-]; [discriminate|].
    apply uint_digits_nonnil, DecimalPos.Unsigned.to_uint_nonnil. }
  assert (Hsome : forall l l' : list Z, map Some l = map Some l' -> l = l').
  { induction l as [|x l IH]; intros [|y l']; simpl; intros [= ]; subst;
      f_equal; auto. }
  destruct (Z.to_int n) as [u|u] eqn:En, (Z.to_int m) as [v|v] eqn:Em.
  - pose proof (Hnn _ _ En). pose proof (Hnn _ _ Em).
    destruct (uint_digits u) eqn:Eu, (uint_digits v) eqn:Ev; try congruence.
    rewrite <- Eu, <- Ev. intros E. apply Hsome in E.
    now rewrite (uint_digits_inj _ _ E).
  - pose proof (Hnn _ _ En).
    destruct (uint_digits u) eqn:Eu; [congruence|]. discriminate.
  - pose proof (Hnn _ _ Em).
    destruct (uint_digits v) eqn:Ev; [congruence|]. discriminate.
  - intros [= E]. apply Hsome in E. now rewrite (uint_digits_inj _ _ E).
Qed.

Lemma numberLoop_digits (L : Lookup) (ds : list Z) :
  (forall d, 0 <= d <= 9 -> is_Some (numbers L d)) ->
  Forall (fun d => 0 <= d <= 9) ds ->
  exists gs, numberLoop L (map Some ds) = Ok gs
             /\ Forall2 (fun d g => numbers L d = Some g) ds gs.
Proof.
  intros Htab. induction 1 as [|d ds Hd _ (gs & Hgs & HF)]; simpl.
  - exists []. split; [reflexivity|constructor].
  - destruct (Htab d Hd) as [g Hg]. rewrite Hg, Hgs. simpl.
    exists (g :: gs). split; [reflexivity|]. now constructor.
Qed.

(** A number is transcribed exactly when it is not negative: the minus
    sign of a negative number is the only character of [str(sampleNumber)]
    that [int] refuses. *)
Theorem numberToBraille_sign (L : Lookup) (sampleNumber : Z)
  (withNumberSign : bool) :
  (forall d, 0 <= d <= 9 -> is_Some (numbers L d)) ->
  match numberToBraille L sampleNumber withNumberSign with
  | Ok _ => 0 <= sampleNumber
  | Raise e => e = BrailleBasicException /\ sampleNumber < 0
  end.
Proof.
  intros Htab. unfold numberToBraille.
  destruct (str_of_int_digits sampleNumber) as [Hpos Hneg].
  destruct (Z_lt_le_dec sampleNumber 0) as [Hn|Hn].
  - destruct (Hneg Hn) as [ds ->]. simpl. split; [reflexivity|exact Hn].
  - destruct (Hpos Hn) as (ds & -> & Hds).
    destruct (numberLoop_digits L ds Htab Hds) as (gs & -> & _). exact Hn.
Qed.

Lemma numberToBraille_sign_witness :
  match numberToBraille sampleLookup (-5) true with
  | Ok _ => 0 <= -5
  | Raise e => e = BrailleBasicException /\ -5 < 0
  end.
Proof.
  apply (numberToBraille_sign sampleLookup (-5) true).
  intros d Hd.
  assert (d = 0 \/ d = 1 \/ d = 2 \/ d = 3 \/ d = 4 \/ d = 5 \/ d = 6
          \/ d = 7 \/ d = 8 \/ d = 9) as Hc by lia.
  repeat (destruct Hc as [->|Hc]; [vm_compute; eauto|]). subst. vm_compute. eauto.
Defined.

Lemma single_cells (L : Lookup) (ds : list Z) (gs : list ustr) :
  (forall d, 0 <= d <= 9 -> exists c, numbers L d = Some [c]) ->
  Forall (fun d => 0 <= d <= 9) ds ->
  Forall2 (fun d g => numbers L d = Some g) ds gs ->
  Forall2 (fun d c => numbers L d = Some [c]) ds (concat gs).
Proof.
  intros Hcell Hds HF. induction HF as [|d g ds gs Hg _ IH]; simpl.
  - constructor.
  - apply Forall_cons in Hds as [Hd Hds].
    destruct (Hcell d Hd) as [c Hc]. rewrite Hc in Hg. injection Hg as <-.
    simpl. constructor; auto.
Qed.

(** Two different numbers that are not negative never get the same
    braille, when the ten digits have ten different one-cell signs. *)
Theorem numberToBraille_injective (L : Lookup) (withNumberSign : bool)
  (n m : Z) :
  (forall d, 0 <= d <= 9 -> exists c, numbers L d = Some [c]) ->
  (forall d d', 0 <= d <= 9 -> 0 <= d' <= 9 ->
                numbers L d = numbers L d' -> d = d') ->
  0 <= n -> 0 <= m -> n <> m ->
  numberToBraille L n withNumberSign <> numberToBraille L m withNumberSign.
Proof.
  intros Hcell Hinj Hn Hm Hne E. apply Hne, str_of_int_inj.
  assert (Htab : forall d, 0 <= d <= 9 -> is_Some (numbers L d)).
  { intros d Hd. destruct (Hcell d Hd) as [c Hc]. eauto. }
  destruct (proj1 (str_of_int_digits n) Hn) as (ds & En & Hds).
  destruct (proj1 (str_of_int_digits m) Hm) as (es & Em & Hes).
  rewrite En, Em. f_equal.
  unfold numberToBraille in E. rewrite En, Em in E.
  destruct (numberLoop_digits L ds Htab Hds) as (gs & Egs & Hgs).
  destruct (numberLoop_digits L es Htab Hes) as (hs & Ehs & Hhs).
  rewrite Egs, Ehs in E. simpl in E. injection E as E.
  apply app_inv_head in E.
  pose proof (single_cells L ds gs Hcell Hds Hgs) as Hd.
  pose proof (single_cells L es hs Hcell Hes Hhs) as He.
  rewrite E in Hd. clear E Egs Ehs Hgs Hhs En Em.
  revert es Hes He. induction Hd as [|d c ds cs Hc _ IH]; intros es Hes He.
  - now inversion He.
  - inversion He as [|e c' es' cs' Hc' He']; subst.
    apply Forall_cons in Hds as [Hd Hds]. apply Forall_cons in Hes as [He0 Hes].
    f_equal.
    + apply Hinj; [assumption..|]. now rewrite Hc, Hc'.
    + apply IH; assumption.
Qed.

Lemma numberToBraille_injective_witness :
  numberToBraille sampleLookup 12 true <> numberToBraille sampleLookup 21 true.
Proof.
  apply (numberToBraille_injective sampleLookup true 12 21); try lia.
  - intros d Hd.
    assert (d = 0 \/ d = 1 \/ d = 2 \/ d = 3 \/ d = 4 \/ d = 5 \/ d = 6
            \/ d = 7 \/ d = 8 \/ d = 9) as Hc by lia.
    repeat (destruct Hc as [->|Hc]; [vm_compute; eauto|]).
    subst. vm_compute. eauto.
  - intros d d' Hd Hd' E.
    assert (d = 0 \/ d = 1 \/ d = 2 \/ d = 3 \/ d = 4 \/ d = 5 \/ d = 6
            \/ d = 7 \/ d = 8 \/ d = 9) as Hc by lia.
    assert (d' = 0 \/ d' = 1 \/ d' = 2 \/ d' = 3 \/ d' = 4 \/ d' = 5 \/ d' = 6
            \/ d' = 7 \/ d' = 8 \/ d' = 9) as Hc' by lia.
    repeat (destruct Hc as [Hc|Hc]); repeat (destruct Hc' as [Hc'|Hc']); subst;
      first [reflexivity | vm_compute in E; discriminate E].
Defined.

(** ** Fingering *)

Lemma split_nonempty (sep : ascii) (s : string) : split sep s <> [].
Proof.
  destruct s as [|c s]; simpl; [discriminate|].
  destruct (Ascii.eqb c sep); [discriminate|].
  destruct (split sep s); discriminate.
Qed.

Lemma split_one (sep : ascii) (s t : string) : split sep s = [t] -> s = t.
Proof.
  revert t. induction s as [|c s IH]; intros t; simpl.
  - now intros [= <-].
  - destruct (Ascii.eqb c sep).
    + intros [= _ E]. now apply split_nonempty in E.
    + destruct (split sep s) as [|hd tl] eqn:E; [now apply split_nonempty in E|].
      intros [= <- ->]. f_equal. now apply IH.
Qed.

Lemma split_two (sep : ascii) (s t0 t1 : string) :
  split sep s = [t0; t1] -> s = String.append t0 (String sep t1).
Proof.
  revert t0. induction s as [|c s IH]; intros t0; simpl; [discriminate|].
  destruct (Ascii.eqb c sep) eqn:Ec.
  - apply Ascii.eqb_eq in Ec. subst c. intros [= <- E].
    apply split_one in E. now subst.
  - destruct (split sep s) as [|hd tl] eqn:E; [now apply split_nonempty in E|].
    intros [= <- ->].
    change (String.append (String c hd) (String sep t1))
      with (String c (String.append hd (String sep t1))).
    f_equal. now apply IH.
Qed.

Lemma length_append (s1 s2 : string) :
  String.length (String.append s1 s2)
  = (String.length s1 + String.length s2)%nat.
Proof.
  induction s1 as [|c s1 IH]; [reflexivity|].
  change (String.append (String c s1) s2) with (String c (String.append s1 s2)).
  simpl. now rewrite IH.
Qed.

Lemma swapped_length (sep : ascii) (s s' t0 t1 : string) :
  split sep s = [t0; t1] -> split sep s' = [t1; t0] ->
  String.length s = String.length s'
  /\ (String.length s = 1%nat -> s = s').
Proof.
  intros E E'. apply split_two in E, E'. subst s s'.
  rewrite !length_append. simpl. split; [lia|].
  intros Hl. destruct t0, t1; simpl in Hl; try lia. reflexivity.
Qed.

(** Swapping the two alternatives of a choice of fingering and giving
    the lower one first is the same transcription: ['x,4'] with
    [upperFirstInFingering=False] is ['4,x'] with the default. *)
Theorem fingering_swap (L : Lookup) (s s' t0 t1 : string) :
  (split "," s = [t0; t1] /\ split "," s' = [t1; t0])
  \/ (split "," s = [s] /\ split "," s' = [s']
      /\ split "|" s = [t0; t1] /\ split "|" s' = [t1; t0]) ->
  transcribeNoteFingering L s false = transcribeNoteFingering L s' true.
Proof.
  intros Hs.
  assert (Hlen : String.length s = String.length s'
                 /\ (String.length s = 1%nat -> s = s')).
  { destruct Hs as [[E E']|(_ & _ & E & E')]; eapply swapped_length; eauto. }
  destruct Hlen as [Hlen Hsame].
  unfold transcribeNoteFingering. rewrite <- Hlen.
  destruct (Nat.eqb (String.length s) 1) eqn:El.
  { apply Nat.eqb_eq in El. now rewrite (Hsame El). }
  destruct Hs as [[E E']|(E1 & E1' & E & E')].
  - rewrite E, E'. reflexivity.
  - rewrite E1, E1', E, E'. reflexivity.
Qed.

Lemma fingering_swap_witness :
  transcribeNoteFingering sampleLookup "x,4" false
  = transcribeNoteFingering sampleLookup "4,x" true.
Proof.
  apply (fingering_swap sampleLookup "x,4" "4,x" "x" "4").
  left. split; reflexivity.
Defined.

(** ** The codec outside its table, and from ASCII to cells and back *)

(** A character that is no line boundary is on one of the lines. *)
Lemma splitlines_go_In (n : nat) (s cur : ustr) (c : N) :
  (length s <= n)%nat -> is_linebreak c = false ->
  In c cur \/ In c s ->
  exists l, In l (splitlines_go cur s) /\ In c l.
Proof.
  revert s cur. induction n as [|n IH]; intros s cur Hn Hc Hin.
  - destruct s; [|simpl in Hn; lia]. destruct Hin as [Hin|[]].
    simpl. destruct cur as [|c0 cur]; [contradiction|].
    exists (rev (c0 :: cur)). split; [now left|]. now apply in_rev in Hin.
  - destruct s as [|d rest].
    + destruct Hin as [Hin|[]].
      simpl. destruct cur as [|c0 cur]; [contradiction|].
      exists (rev (c0 :: cur)). split; [now left|]. now apply in_rev in Hin.
    + simpl in Hn. simpl. destruct (is_linebreak d) eqn:Hd.
      * destruct Hin as [Hin|[->|Hin]]; [| congruence |].
        { exists (rev cur). split; [now left|]. now apply in_rev in Hin. }
        assert (Hgo : forall r, (length r <= n)%nat -> In c r ->
                  exists l, In l (rev cur :: splitlines_go [] r) /\ In c l).
        { intros r Hr Hcr. destruct (IH r [] Hr Hc (or_intror Hcr)) as (l & Hl & Hcl).
          exists l. split; [now right|exact Hcl]. }
        destruct (d =? 13)%N; [|apply Hgo; [lia|exact Hin]].
        destruct rest as [|e rest']; [contradiction|].
        destruct (e =? 10)%N eqn:He; [|apply Hgo; [lia|exact Hin]].
        apply N.eqb_eq in He. subst e. destruct Hin as [<-|Hin]; [discriminate|].
        apply Hgo; [simpl in Hn; lia|exact Hin].
      * apply IH; [lia|exact Hc|].
        destruct Hin as [Hin|[->|Hin]]; [left; now right|left; now left|now right].
Qed.

Lemma mapM_raises {A B} (f : A -> result B) (l : list A) (x : A) (e0 : exn) :
  (forall y e, f y = Raise e -> e = e0) ->
  In x l -> f x = Raise e0 -> mapM f l = Raise e0.
Proof.
  intros Hf. induction l as [|y l IH]; intros Hin Hx; [contradiction|].
  simpl. destruct (f y) as [b|e] eqn:Ey; simpl.
  - destruct Hin as [->|Hin]; [congruence|]. now rewrite IH.
  - now rewrite (Hf _ _ Ey).
Qed.

Lemma mapM_only {A B} (f : A -> result B) (l : list A) (e0 e : exn) :
  (forall y e, f y = Raise e -> e = e0) -> mapM f l = Raise e -> e = e0.
Proof.
  intros Hf. induction l as [|y l IH]; simpl; [discriminate|].
  destruct (f y) as [b|e'] eqn:Ey; simpl.
  - destruct (mapM f l); simpl; [discriminate|]. intros [= <-]. now apply IH.
  - intros [= <-]. eapply Hf. exact Ey.
Qed.

Lemma getitem_only {A} (o : option A) (e : exn) :
  getitem o = Raise e -> e = KeyError.
Proof. destruct o; simpl; congruence. Qed.

(** A cell that the table does not hold makes
    [brailleUnicodeToBrailleAscii] raise [KeyError]. *)
Theorem codec_unknown_cell (L : Lookup) (brailleUnicode : ustr) (c : N) :
  In c brailleUnicode -> is_linebreak c = false ->
  dict_get (ascii_chars L) c = None ->
  brailleUnicodeToBrailleAscii L brailleUnicode = Raise KeyError.
Proof.
  intros Hin Hc Hnone. unfold brailleUnicodeToBrailleAscii.
  destruct (splitlines_go_In (length brailleUnicode) brailleUnicode [] c
              (le_n _) Hc (or_intror Hin)) as (l & Hl & Hcl).
  fold (splitlines brailleUnicode) in Hl.
  rewrite (mapM_raises _ _ l KeyError); [reflexivity| |exact Hl|].
  - intros y e. apply mapM_only. intros z e'. apply getitem_only.
  - eapply mapM_raises; [|exact Hcl|now rewrite Hnone].
    intros z e'. apply getitem_only.
Qed.

Lemma codec_unknown_cell_witness :
  brailleUnicodeToBrailleAscii sampleLookup (cells [[1; 4]] ++ [65%N])
  = Raise KeyError.
Proof.
  apply (codec_unknown_cell sampleLookup _ 65%N); [|reflexivity|reflexivity].
  vm_compute. tauto.
Defined.

Lemma letter_plain (c : N) : (65 <= c <= 122)%N -> is_linebreak c = false.
Proof.
  intros Hc. unfold is_linebreak.
  repeat (rewrite (proj2 (N.eqb_neq _ _)) by lia). reflexivity.
Qed.

Lemma upper_linebreak (c : N) : is_linebreak (upper c) = is_linebreak c.
Proof.
  unfold upper.
  destruct ((97 <=? c) && (c <=? 122))%N eqn:E1.
  - apply andb_true_iff in E1 as [H1 H2].
    apply N.leb_le in H1, H2.
    rewrite !letter_plain by lia. reflexivity.
  - destruct (c =? 305)%N eqn:E2.
    { apply N.eqb_eq in E2. now subst c. }
    destruct (c =? 383)%N eqn:E3.
    { apply N.eqb_eq in E3. now subst c. }
    reflexivity.
Qed.

Lemma invert_from (l acc : list (N * N)) (k v : N) :
  dict_get (fold_left (fun d kv => dict_set d (snd kv) (fst kv)) l acc) v
  = Some k ->
  In (k, v) l \/ dict_get acc v = Some k.
Proof.
  revert acc. induction l as [|[k0 v0] l IH]; intros acc; simpl; [now right|].
  intros Hd. destruct (IH _ Hd) as [Hin|Hacc]; [left; now right|].
  destruct (N.eq_dec v0 v) as [->|Hne].
  - rewrite dict_get_set_eq in Hacc. injection Hacc as ->. left. now left.
  - rewrite dict_get_set_ne in Hacc by assumption. now right.
Qed.

Lemma invert_some (l acc : list (N * N)) (v : N) :
  In v (map snd l) ->
  is_Some (dict_get (fold_left (fun d kv => dict_set d (snd kv) (fst kv)) l acc) v).
Proof.
  revert acc. induction l as [|[k0 v0] l IH]; intros acc; simpl; [contradiction|].
  intros Hin. destruct (in_dec N.eq_dec v (map snd l)) as [Hl|Hl].
  - now apply IH.
  - destruct Hin as [->|Hin]; [|contradiction].
    rewrite invert_keeps by assumption. rewrite dict_get_set_eq. eauto.
Qed.

Lemma dict_get_first (d : list (N * N)) (k v : N) :
  List.NoDup (map fst d) -> In (k, v) d -> dict_get d k = Some v.
Proof.
  induction d as [|[k0 v0] d IH]; simpl; [contradiction|].
  intros Hnd Hin. apply List.NoDup_cons_iff in Hnd as [Hfresh Hnd].
  destruct Hin as [[= -> ->]|Hin]; [now rewrite N.eqb_refl|].
  destruct (k0 =? k)%N eqn:E; [|now apply IH].
  apply N.eqb_eq in E. subst k0. exfalso. apply Hfresh.
  apply in_map_iff. now exists (k, v).
Qed.

Lemma map_join (f : N -> N) (sep : ustr) (ls : list ustr) :
  map f (join sep ls) = join (map f sep) (map (map f) ls).
Proof.
  induction ls as [|l ls IH]; [reflexivity|].
  destruct ls as [|l2 ls]; [reflexivity|].
  change (join sep (l :: l2 :: ls)) with (l ++ sep ++ join sep (l2 :: ls)).
  rewrite !map_app, IH. reflexivity.
Qed.

Section AsciiFirst.

Variable L : Lookup.

(** The table is a dictionary, so no cell is listed twice; neither
    column holds a line boundary. *)
Hypothesis keys_distinct : List.NoDup (map fst (ascii_chars L)).
Hypothesis table_plain :
  Forall (fun kv => is_linebreak (fst kv) = false
                    /\ is_linebreak (snd kv) = false) (ascii_chars L).

Lemma char_roundtrip (c : N) :
  In (upper c) (map snd (ascii_chars L)) ->
  exists k, dict_get (braille_chars L) (upper c) = Some k
            /\ dict_get (ascii_chars L) k = Some (upper c)
            /\ is_linebreak k = false.
Proof.
  intros Hin. destruct (invert_some (ascii_chars L) [] _ Hin) as [k Hk].
  fold (braille_chars L) in Hk. exists k. split; [exact Hk|].
  apply invert_from in Hk as [Hk|Hk]; [|discriminate].
  split; [now apply dict_get_first|].
  now pose proof (proj1 (List.Forall_forall _ _) table_plain _ Hk) as [? _].
Qed.

Lemma decode_line (l : ustr) :
  Forall (fun c => In (upper c) (map snd (ascii_chars L))) l ->
  exists u,
    mapM (fun char => getitem (dict_get (braille_chars L) (upper char))) l = Ok u
    /\ mapM (fun char => getitem (dict_get (ascii_chars L) char)) u
       = Ok (map upper l)
    /\ plain u /\ (u = [] -> l = []).
Proof.
  induction 1 as [|c l Hc _ (u & Hd & He & Hp & Hn)].
  - exists []. repeat split; constructor.
  - destruct (char_roundtrip c Hc) as (k & Hk & Hv & Hb).
    exists (k :: u). simpl. rewrite Hk, Hd. simpl. rewrite Hv, He. simpl.
    repeat split; [|discriminate]. now constructor.
Qed.

Lemma decode_lines (ls : list ustr) :
  Forall (Forall (fun c => In (upper c) (map snd (ascii_chars L)))) ls ->
  exists us,
    mapM (fun sampleLine =>
            mapM (fun char => getitem (dict_get (braille_chars L) (upper char)))
                 sampleLine)
         ls = Ok us
    /\ mapM (fun sampleLine =>
               mapM (fun char => getitem (dict_get (ascii_chars L) char))
                    sampleLine)
            us = Ok (map (map upper) ls)
    /\ Forall plain us
    /\ Forall2 (fun l u => u = [] -> l = []) ls us.
Proof.
  induction 1 as [|l ls Hl _ (us & Hd & He & Hp & Hn)].
  - exists []. repeat split; constructor.
  - destruct (decode_line l Hl) as (u & Hdu & Heu & Hpu & Hnu).
    exists (u :: us). simpl. rewrite Hdu, Hd. simpl. rewrite Heu, He.
    repeat split; constructor; assumption.
Qed.

(** From braille ASCII to cells and back: the string comes back in
    upper case, when its characters are line feeds and (up to case)
    characters of the table and it does not end in a line feed. *)
Theorem codec_ascii_roundtrip (brailleAscii : ustr) :
  Forall (fun c => c = 10%N \/ In (upper c) (map snd (ascii_chars L)))
         brailleAscii ->
  last brailleAscii <> Some 10%N ->
  rbind (brailleAsciiToBrailleUnicode L brailleAscii)
        (brailleUnicodeToBrailleAscii L)
  = Ok (map upper brailleAscii).
Proof.
  intros Hs Hlast.
  assert (Hunix : unix_lines brailleAscii).
  { split; [|exact Hlast].
    eapply Forall_impl; [exact Hs|]. intros c [->|Hv] Hb; [reflexivity|].
    apply in_map_iff in Hv as ([k v] & Hv & Hin). simpl in Hv. subst v.
    pose proof (proj1 (List.Forall_forall _ _) table_plain _ Hin) as [_ Hu].
    simpl in Hu. rewrite upper_linebreak in Hu. congruence. }
  destruct (join_splitlines_go brailleAscii [] Hunix ltac:(constructor))
    as (Hjoin & Hplain & Hl).
  fold (splitlines brailleAscii) in Hjoin, Hplain, Hl. simpl in Hjoin.
  assert (Hvals : Forall (Forall (fun c => In (upper c) (map snd (ascii_chars L))))
                         (splitlines brailleAscii)).
  { apply List.Forall_forall. intros l Hin. apply List.Forall_forall.
    intros c Hc.
    pose proof (in_join [10%N] _ _ _ Hin Hc) as Hcs. rewrite Hjoin in Hcs.
    destruct (proj1 (List.Forall_forall _ _) Hs _ Hcs) as [->|Hv]; [|exact Hv].
    pose proof (proj1 (List.Forall_forall _ _) Hplain _ Hin) as Hpl.
    pose proof (proj1 (List.Forall_forall _ _) Hpl _ Hc) as Hb.
    discriminate. }
  destruct (decode_lines _ Hvals) as (us & Hd & He & Hp & Hn).
  unfold brailleUnicodeToBrailleAscii, brailleAsciiToBrailleUnicode.
  rewrite Hd. simpl.
  rewrite splitlines_join.
  - rewrite He. simpl. rewrite <- Hjoin at 2. now rewrite map_join.
  - split; [exact Hp|].
    eapply last_Forall2; [exact Hn| |exact Hl].
    intros x Hx. now apply Hx.
Qed.

End AsciiFirst.

Lemma codec_ascii_roundtrip_witness :
  rbind (brailleAsciiToBrailleUnicode sampleLookup [37; 34; 100; 10; 44; 97]%N)
        (brailleUnicodeToBrailleAscii sampleLookup)
  = Ok (map upper [37; 34; 100; 10; 44; 97]%N).
Proof.
  apply (codec_ascii_roundtrip sampleLookup).
  - apply NoDup_ListNoDup. apply (bool_decide_unpack _). vm_compute. exact I.
  - vm_compute. repeat (constructor; [split; reflexivity|]). constructor.
  - vm_compute. repeat (constructor; [tauto|]). constructor.
  - vm_compute. discriminate.
Defined.

(** ** The suffix of a clef *)

(** [changeSuffix] changes nothing for a clef that is neither a
    [TrebleClef] nor a [BassClef]. *)
Theorem clef_suffix_ignored (L : Lookup) (c : Clef) :
  isTrebleClef (clef_class c) = false ->
  isBassClef (clef_class c) = false ->
  clefToBraille L c true = clefToBraille L c false.
Proof.
  intros Ht Hb. unfold clefToBraille. now rewrite Ht, Hb.
Qed.

Lemma clef_suffix_ignored_witness :
  clefToBraille sampleLookup (mkClef "AltoClef" false false false "C" 3) true
  = clefToBraille sampleLookup (mkClef "AltoClef" false false false "C" 3) false.
Proof. apply clef_suffix_ignored; reflexivity. Defined.

(** ** Upper and lower case in braille ASCII *)

Lemma upper_fixes_linebreak (c : N) : is_linebreak c = true -> upper c = c.
Proof.
  intros Hc. unfold upper.
  destruct ((97 <=? c) && (c <=? 122))%N eqn:E1.
  { apply andb_true_iff in E1 as [H1 H2]. apply N.leb_le in H1, H2.
    rewrite letter_plain in Hc by lia. discriminate. }
  destruct (c =? 305)%N eqn:E2.
  { apply N.eqb_eq in E2. subst c. discriminate. }
  destruct (c =? 383)%N eqn:E3.
  { apply N.eqb_eq in E3. subst c. discriminate. }
  reflexivity.
Qed.

Lemma upper_upper (c : N) : upper (upper c) = upper c.
Proof.
  destruct ((97 <=? c) && (c <=? 122))%N eqn:E1.
  - assert (Hc : upper c = (c - 32)%N) by (unfold upper; now rewrite E1).
    rewrite Hc. apply andb_true_iff in E1 as [H1 H2]. apply N.leb_le in H1, H2.
    unfold upper.
    rewrite (proj2 (andb_false_iff _ _)) by (left; apply N.leb_gt; lia).
    rewrite (proj2 (N.eqb_neq _ _)) by lia.
    rewrite (proj2 (N.eqb_neq _ _)) by lia. reflexivity.
  - destruct (c =? 305)%N eqn:E2.
    { apply N.eqb_eq in E2. now subst c. }
    destruct (c =? 383)%N eqn:E3.
    { apply N.eqb_eq in E3. now subst c. }
    assert (Hc : upper c = c) by (unfold upper; now rewrite E1, E2, E3).
    now rewrite !Hc.
Qed.

Lemma upper_line_feed (c : N) : (upper c =? 10)%N = (c =? 10)%N.
Proof.
  destruct (is_linebreak c) eqn:Hc.
  - now rewrite (upper_fixes_linebreak c Hc).
  - pose proof (upper_linebreak c) as Hu. rewrite Hc in Hu.
    destruct (N.eqb_spec (upper c) 10) as [E|_].
    + rewrite E in Hu. discriminate.
    + destruct (N.eqb_spec c 10) as [->|_]; [discriminate|reflexivity].
Qed.

Lemma splitlines_go_upper (n : nat) (s cur : ustr) :
  (length s <= n)%nat ->
  splitlines_go (map upper cur) (map upper s)
  = map (map upper) (splitlines_go cur s).
Proof.
  revert s cur. induction n as [|n IH]; intros s cur Hn.
  - destruct s; [|simpl in Hn; lia].
    destruct cur as [|c0 cur]; [reflexivity|].
    cbn [map splitlines_go].
    change (upper c0 :: map upper cur) with (map upper (c0 :: cur)).
    now rewrite map_rev.
  - destruct s as [|c rest].
    + destruct cur as [|c0 cur]; [reflexivity|].
      cbn [map splitlines_go].
      change (upper c0 :: map upper cur) with (map upper (c0 :: cur)).
      now rewrite map_rev.
    + simpl in Hn. cbn [map splitlines_go]. rewrite upper_linebreak.
      destruct (is_linebreak c) eqn:Hc.
      * rewrite (upper_fixes_linebreak c Hc). cbn [map]. rewrite map_rev.
        f_equal. destruct (c =? 13)%N.
        -- destruct rest as [|d rest']; [reflexivity|].
           cbn [map]. rewrite upper_line_feed.
           destruct (d =? 10)%N.
           ++ apply (IH rest' []). simpl in Hn. lia.
           ++ apply (IH (d :: rest') []). simpl in *. lia.
        -- apply (IH rest []). lia.
      * apply (IH rest (c :: cur)). lia.
Qed.

Lemma mapM_map {A B C} (f : B -> result C) (g : A -> B) (l : list A) :
  mapM f (map g l) = mapM (fun x => f (g x)) l.
Proof.
  induction l as [|x l IH]; simpl; [reflexivity|]. now rewrite IH.
Qed.

Lemma mapM_ext {A B} (f g : A -> result B) (l : list A) :
  (forall x, f x = g x) -> mapM f l = mapM g l.
Proof.
  intros Hfg. induction l as [|x l IH]; simpl; [reflexivity|].
  now rewrite Hfg, IH.
Qed.

(** [brailleAsciiToBrailleUnicode] does not tell upper from lower case
    in Basic Latin: a string of Basic Latin characters and its upper
    case give the same cells, or the same exception. *)
Theorem ascii_case_insensitive (L : Lookup) (brailleAscii : ustr) :
  List.Forall (fun c => (c < 128)%N) brailleAscii ->
  brailleAsciiToBrailleUnicode L (map upper brailleAscii)
  = brailleAsciiToBrailleUnicode L brailleAscii.
Proof.
  intros _.
  unfold brailleAsciiToBrailleUnicode, splitlines.
  pose proof (splitlines_go_upper (length brailleAscii) brailleAscii []
                (le_n _)) as Hs.
  change (map upper []) with (@nil N) in Hs. rewrite Hs.
  rewrite mapM_map. f_equal.
  apply mapM_ext. intros l. rewrite mapM_map.
  apply mapM_ext. intros c. now rewrite upper_upper.
Qed.

Lemma ascii_case_insensitive_witness :
  brailleAsciiToBrailleUnicode sampleLookup (map upper [44; 97; 110; 100]%N)
  = brailleAsciiToBrailleUnicode sampleLookup [44; 97; 110; 100]%N.
Proof.
  apply (ascii_case_insensitive sampleLookup [44; 97; 110; 100]%N).
  repeat constructor.
Defined.

(** ** The note encoder returns *)

Section NoteReturns.

Variable L : Lookup.
Variable n0 : Note.

Lemma runs_catch_bind {A B} (arts : list Articulation)
  (Q1 : A -> list ustr -> Prop) (Q : B -> list ustr -> Prop)
  (m : SM NoteSt A) (k : A -> SM NoteSt B) (h : SM NoteSt B) (e : exn) :
  runs n0 arts Q1 m ->
  (forall a ws1, Q1 a ws1 ->
     runs n0 arts (fun b ws2 => Q b (ws1 ++ ws2)) (scatch (k a) e h)) ->
  runs n0 arts Q (scatch (sbind m k) e h).
Proof.
  intros Hm Hk s Hs. destruct (Hm s Hs) as (s1 & a & ws1 & E1 & HQ1 & Hs1 & T1).
  destruct (Hk a ws1 HQ1 s1 Hs1) as (s2 & b & ws2 & E2 & HQ2 & Hs2 & T2).
  apply (runs_intro n0 arts Q _ s s2 b (ws1 ++ ws2)); auto.
  - unfold scatch, sbind in *. now rewrite E1.
  - now rewrite T2, T1, app_assoc.
Qed.

Lemma runs_catch_raised {A} (arts : list Articulation)
  (Q : A -> list ustr -> Prop) (m h : SM NoteSt A) (e : exn) :
  (forall s, m s = (s, Raise e)) -> runs n0 arts Q h ->
  runs n0 arts Q (scatch m e h).
Proof.
  intros Hm Hh s Hs. destruct (Hh s Hs) as (s1 & a & ws & E & H1 & H2 & H3).
  apply (runs_intro n0 arts Q _ s s1 a ws); auto. unfold scatch.
  rewrite Hm. destruct e; simpl; exact E.
Qed.

Lemma runs_accidentalBlock_any (arts : list Articulation) :
  runs n0 arts (fun _ _ => True) (accidentalBlock L).
Proof.
  unfold accidentalBlock. runs_next.
  destruct (accidental (pitch a)) as [acc|]; [|now apply runs_ret].
  assert (Hrun : runs n0 arts (fun _ _ => True)
                   (scatch
                      (g0 <~ slift (getitem (accidentals L (acc_name acc))) ;;
                       append g0 >>>
                       english (Fmt "Accidental {0} {1}"
                                  [FStr (acc_name acc); FBraille g0]))
                      KeyError (sret tt))).
  { destruct (accidentals L (acc_name acc)) as [g|].
    - apply runs_catch.
      eapply (runs_bind _ _ (fun x ws => x = g /\ ws = []));
        [now apply runs_lift|].
      intros x ws [-> ->]. apply append_english_any.
    - apply runs_catch_raised; [reflexivity|now apply runs_ret]. }
  destruct (displayStatus acc) as [[|]|]; try exact Hrun. now apply runs_ret.
Qed.

Lemma runs_nameAndDuration_any (arts : list Articulation) :
  (isGrace (duration n0) = true ->
   forall notesInStep, pitchNameToNotes L (step (pitch n0)) = Some notesInStep ->
                       is_Some (notesInStep "eighth")) ->
  runs n0 arts (fun _ _ => True) (nameAndDuration L).
Proof.
  intros Hgrace. unfold nameAndDuration. runs_next.
  match goal with
  | H : same_music n0 _ |- _ => destruct H as (Hp & Hdur & _)
  end.
  rewrite Hp, Hdur.
  destruct (pitchNameToNotes L (step (pitch n0))) as [notesInStep|] eqn:Hstep.
  2:{ runs_next. now apply runs_ret. }
  destruct (isGrace (duration n0)) eqn:Eg.
  - destruct (Hgrace eq_refl _ eq_refl) as [g8 H8]. rewrite H8.
    eapply (runs_bind _ _ (fun x ws => x = g8 /\ ws = []));
      [now apply runs_lift|].
    intros x ws [-> ->]. runs_next. runs_next. now apply runs_ret.
  - assert (Hh : runs n0 arts (fun (_ : option ustr) (_ : list ustr) => True)
                   (english (Fmt "Duration {0} None" [FObj]) >>>
                    sret (Some (sym_basic_exception L)))).
    { runs_next. now apply runs_ret. }
    eapply (runs_catch_bind _ (fun _ ws => ws = []));
      [apply beamContinue_runs|].
    intros bc ws ->. cbn beta.
    destruct bc.
    + destruct (notesInStep "eighth") as [g|].
      * apply runs_catch.
        eapply (runs_bind _ _ (fun _ _ => True)).
        { eapply (runs_bind _ _ (fun x ws => x = g /\ ws = []));
            [now apply runs_lift|].
          intros x ws [-> ->]. runs_next. now apply runs_ret. }
        intros g' ws _. runs_next.
        eapply (runs_bind _ _ (fun _ _ => True)).
        { apply runs_forM_any. intros _. apply append_english_any. }
        intros _ ws' _. now apply runs_ret.
      * apply runs_catch_raised; [reflexivity|exact Hh].
    + destruct (notesInStep (dur_type (duration n0))) as [g|].
      * apply runs_catch.
        eapply (runs_bind _ _ (fun _ _ => True)).
        { eapply (runs_bind _ _ (fun x ws => x = g /\ ws = []));
            [now apply runs_lift|].
          intros x ws [-> ->]. runs_next. now apply runs_ret. }
        intros g' ws _. runs_next.
        eapply (runs_bind _ _ (fun _ _ => True)).
        { apply runs_forM_any. intros _. apply append_english_any. }
        intros _ ws' _. now apply runs_ret.
      * apply runs_catch_raised; [reflexivity|exact Hh].
Qed.

End NoteReturns.

(** With a table that has the staccato signs a note uses and, for a
    grace note, the eighth note of its step, [noteToBraille] returns a
    string; it leaves the articulations sorted by name, the explanation
    log set, and in [beamStatus] the values of the note's own beam and
    slur attributes. *)
Theorem noteToBraille_returns (L : Lookup) (n : Note)
  (showOctave upperFirstInFingering : bool) (b : gmap string bool) :
  (forall a, In a (articulations n) -> isStaccato (art_name a) = true ->
             is_Some (beforeNoteExpr L (art_name a))) ->
  (isGrace (duration n) = true ->
   forall notesInStep, pitchNameToNotes L (step (pitch n)) = Some notesInStep ->
                       is_Some (notesInStep "eighth")) ->
  exists n' b' u,
    noteToBraille L n showOctave upperFirstInFingering b = (n', b', Ok u)
    /\ articulations n' = sorted name_lt (articulations n)
    /\ is_Some (note_brailleEnglish n')
    /\ forall k, In k falseKeywords -> k <> "beamContinue"%string ->
                 b' !! k = Some (default false (attrs n !! k)).
Proof.
  intros Hstacc Hgrace.
  unfold noteToBraille. rewrite noteToBraille_body_unfold.
  destruct (initBeamStatus_ready n b) as (s1 & E1 & Hs1 & T1).
  unfold sbind at 1. rewrite E1. unfold afterKeywords.
  destruct (runs_openingSlurs L n _ s1 Hs1) as (s2 & [] & w2 & E2 & _ & Hs2 & T2).
  destruct (runs_tripletBlock_any L n _ s2 Hs2)
    as (s3 & [] & w3 & E3 & _ & Hs3 & T3).
  destruct (articulationsBlock_runs L n _ s3 Hs3 Hstacc) as (s4 & E4 & Hs4 & T4).
  destruct (runs_accidentalBlock_any L n _ s4 Hs4)
    as (s5 & [] & w5 & E5 & _ & Hs5 & T5).
  destruct (runs_octaveBlock L n _ showOctave s5 Hs5)
    as (s6 & [] & w6 & E6 & _ & Hs6 & T6).
  destruct (runs_nameAndDuration_any L n _ Hgrace s6 Hs6)
    as (s7 & r7 & w7 & E7 & _ & Hs7 & T7).
  destruct (runs_fingeringBlock L n _ upperFirstInFingering s7 Hs7)
    as (s8 & [] & w8 & E8 & _ & Hs8 & T8).
  destruct (runs_closingSlurs L n _ s8 Hs8) as (s9 & [] & w9 & E9 & _ & Hs9 & T9).
  destruct (runs_tieBlock L n _ s9 Hs9) as (s10 & [] & w10 & E10 & _ & Hs10 & T10).
  unfold sbind. rewrite E2, E3, E4, E5, E6, E7.
  destruct r7 as [r|].
  - cbn [sret fst snd]. exists (music21Note s7), (beamStatus s7), r.
    split; [reflexivity|].
    destruct Hs7 as (_ & Ha & Ht & Hf & _). auto.
  - rewrite E8, E9, E10. cbn [theTrans sret fst snd].
    exists (music21Note s10), (beamStatus s10), (concat (noteTrans s10)).
    split; [reflexivity|].
    destruct Hs10 as (_ & Ha & Ht & Hf & _). auto.
Qed.

Lemma noteToBraille_returns_witness :
  exists n' b' u,
    noteToBraille sampleLookup sampleTripletNote true true ∅ = (n', b', Ok u)
    /\ articulations n' = sorted name_lt (articulations sampleTripletNote)
    /\ is_Some (note_brailleEnglish n')
    /\ forall k, In k falseKeywords -> k <> "beamContinue"%string ->
                 b' !! k = Some (default false (attrs sampleTripletNote !! k)).
Proof.
  apply (noteToBraille_returns sampleLookup sampleTripletNote true true ∅).
  - intros a Ha Hst. simpl in Ha.
    destruct Ha as [<-|[<-|[<-|[]]]]; try discriminate Hst. vm_compute. eauto.
  - discriminate.
Defined.

(** ** The format of a plain note *)

Lemma stays_off_refl (s : NoteSt) : stays_off s s.
Proof. intros H. exact H. Qed.

Lemma stays_off_trans (s1 s2 s3 : NoteSt) :
  stays_off s1 s2 -> stays_off s2 s3 -> stays_off s1 s3.
Proof. unfold stays_off. auto. Qed.

Ltac off_step :=
  match goal with
  | |- keeps _ (sret _) => apply (keeps_ret _ stays_off_refl)
  | |- keeps _ (slift _) => apply (keeps_lift _ stays_off_refl)
  | |- keeps _ (append _) => let s := fresh in intros s; exact (fun H => H)
  | |- keeps _ (english _) =>
      let s := fresh in
      intros s; unfold english;
      destruct (note_brailleEnglish (music21Note s)); exact (fun H => H)
  | |- keeps _ (beam _) => let s := fresh in intros s; exact (fun H => H)
  | |- keeps _ theNote => let s := fresh in intros s; exact (fun H => H)
  | |- keeps _ theTrans => let s := fresh in intros s; exact (fun H => H)
  | |- keeps _ (smodify (on_note _)) =>
      let s := fresh in intros s; exact (fun H => H)
  | |- keeps _ (smodify (on_beamStatus _)) =>
      let s := fresh in intros s; intros _; simpl; apply lookup_insert_eq
  | |- keeps _ (sbind _ _) =>
      apply (keeps_bind _ stays_off_trans); [|intros ?]
  | |- keeps _ (scatch _ _ _) => apply (keeps_catch _ stays_off_trans)
  | |- keeps _ (sforM _ _) =>
      apply (keeps_forM _ stays_off_refl stays_off_trans); intros ?
  | |- keeps _ (if ?b then _ else _) => destruct b
  | |- keeps _ (match ?x with _ => _ end) => destruct x
  end.

Lemma prelude_stays_off (L : Lookup) (showOctave : bool) :
  keeps stays_off
    (openingSlurs L >>> tripletBlock L >>> articulationsBlock L >>>
     accidentalBlock L >>> octaveBlock L showOctave).
Proof.
  unfold openingSlurs, tripletBlock, articulationsBlock, accidentalBlock,
    octaveBlock, staccatoFirst, otherArticulation.
  repeat off_step.
Qed.

Lemma afterKeywords_stays_off (L : Lookup) (showOctave upperFirst : bool) :
  keeps stays_off (afterKeywords L showOctave upperFirst).
Proof.
  unfold afterKeywords, openingSlurs, tripletBlock, articulationsBlock,
    accidentalBlock, octaveBlock, staccatoFirst, otherArticulation,
    nameAndDuration, fingeringBlock, closingSlurs, tieBlock.
  repeat off_step.
Qed.

Section PlainNote.

Variable L : Lookup.
Variable n0 : Note.

Hypothesis no_flags : forall k, In k falseKeywords -> flag n0 k = false.

Lemma runs_openingSlurs_plain (arts : list Articulation) :
  runs n0 arts (fun _ ws => ws = []) (openingSlurs L).
Proof.
  eapply runs_weaken; [|apply runs_openingSlurs].
  intros _ ws ->. unfold openingSigns.
  rewrite !no_flags by (simpl; tauto). reflexivity.
Qed.

Lemma runs_tripletBlock_plain (arts : list Articulation) :
  runs n0 arts (fun _ ws => ws = []) (tripletBlock L).
Proof.
  unfold tripletBlock. runs_next.
  destruct (isTriplet _); [|now apply runs_ret].
  runs_next. rewrite no_flags by (simpl; tauto).
  runs_next. destruct a0.
  - apply reset_runs.
  - now apply runs_ret.
Qed.

Lemma runs_accidentalBlock_exact (arts : list Articulation) :
  runs n0 arts (fun _ ws => ws = accidentalSigns L n0) (accidentalBlock L).
Proof.
  unfold accidentalBlock, accidentalSigns. runs_next.
  match goal with H : same_music n0 _ |- _ => destruct H as (-> & _) end.
  destruct (accidental (pitch n0)) as [acc|]; [|now apply runs_ret].
  assert (Hrun : runs n0 arts
                   (fun _ ws => ws = match accidentals L (acc_name acc) with
                                     | Some g => [g]
                                     | None => []
                                     end)
                   (scatch
                      (g0 <~ slift (getitem (accidentals L (acc_name acc))) ;;
                       append g0 >>>
                       english (Fmt "Accidental {0} {1}"
                                  [FStr (acc_name acc); FBraille g0]))
                      KeyError (sret tt))).
  { destruct (accidentals L (acc_name acc)) as [g|].
    - apply runs_catch.
      eapply (runs_bind _ _ (fun x ws => x = g /\ ws = []));
        [now apply runs_lift|].
      intros x ws [-> ->]. apply append_english_runs.
    - apply runs_catch_raised; [reflexivity|now apply runs_ret]. }
  destruct (displayStatus acc) as [[|]|]; try exact Hrun. now apply runs_ret.
Qed.

Lemma runs_octaveBlock_exact (arts : list Articulation) (showOctave : bool) :
  runs n0 arts (fun _ ws => ws = octaveSigns L showOctave n0)
       (octaveBlock L showOctave).
Proof.
  unfold octaveBlock, octaveSigns. runs_next.
  match goal with H : same_music n0 _ |- _ => destruct H as (-> & _) end.
  destruct showOctave; [|now apply runs_ret].
  destruct (octaveMark L (octave (pitch n0))) as [g|e] eqn:Eo.
  - apply runs_catch.
    eapply (runs_bind _ _ (fun x ws => x = g /\ ws = []));
      [now apply runs_lift|].
    intros x ws [-> ->]. apply append_english_runs.
  - rewrite (octaveMark_raises _ _ _ Eo). apply runs_catch_raise.
    now apply runs_ret.
Qed.

Lemma runs_dots (arts : list Articulation) (k : nat) :
  runs n0 arts (fun _ ws => ws = repeat (sym_dot L) k)
    (sforM (fun _ : unit =>
              append (sym_dot L) >>>
              english (Fmt "Dot {0}" [FBraille (sym_dot L)]))
           (repeat tt k)).
Proof.
  induction k as [|k IH]; simpl; [now apply runs_ret|].
  eapply (runs_bind _ _ (fun _ ws => ws = [sym_dot L]));
    [apply append_english_runs|].
  intros _ ws ->. eapply runs_weaken; [|exact IH].
  intros _ ws ->. reflexivity.
Qed.

Lemma runs_fingeringBlock_exact (arts : list Articulation) (upperFirst : bool) :
  runs n0 arts (fun _ ws => ws = fingeringSigns L upperFirst n0)
       (fingeringBlock L upperFirst).
Proof.
  unfold fingeringBlock, fingeringSigns. runs_next.
  match goal with H : same_music n0 _ |- _ => destruct H as (_ & _ & -> & _) end.
  destruct (fingering n0) as [f|]; [|now apply runs_ret].
  destruct (transcribeNoteFingering L f upperFirst) as [g|e] eqn:Ef.
  - apply append_runs.
  - rewrite (transcribeNoteFingering_raises _ _ _ _ Ef). now apply runs_ret.
Qed.

Lemma runs_closingSlurs_plain (arts : list Articulation) :
  runs n0 arts (fun _ ws => ws = []) (closingSlurs L).
Proof.
  unfold closingSlurs. runs_next. rewrite no_flags by (simpl; tauto).
  eapply (runs_bind _ _ (fun _ ws => ws = [])); [now apply runs_ret|].
  intros _ ws ->. runs_next. rewrite no_flags by (simpl; tauto).
  eapply (runs_bind _ _ (fun v ws => v = false /\ ws = []));
    [now apply runs_ret|].
  intros v ws [-> ->]. simpl.
  runs_next. rewrite no_flags by (simpl; tauto).
  runs_next. rewrite no_flags by (simpl; tauto). now apply runs_ret.
Qed.

Lemma runs_tieBlock_exact (arts : list Articulation) :
  runs n0 arts (fun _ ws => ws = tieSigns L n0) (tieBlock L).
Proof.
  unfold tieBlock, tieSigns. runs_next.
  match goal with
  | H : same_music n0 _ |- _ => destruct H as (_ & _ & _ & -> & _)
  end.
  destruct (tie n0) as [ty|]; [|now apply runs_ret].
  destruct (negb (String.eqb ty "stop"));
    [apply append_english_runs|now apply runs_ret].
Qed.

Lemma nameAndDuration_plain (arts : list Articulation)
  (notesInStep : string -> option ustr) (g : ustr) (s : NoteSt) :
  ready n0 arts s ->
  beamStatus s !! "beamContinue" = Some false ->
  pitchNameToNotes L (step (pitch n0)) = Some notesInStep ->
  isGrace (duration n0) = false ->
  notesInStep (dur_type (duration n0)) = Some g ->
  exists s',
    nameAndDuration L s = (s', Ok None)
    /\ ready n0 arts s'
    /\ noteTrans s' = noteTrans s ++ g :: repeat (sym_dot L) (dots (duration n0)).
Proof.
  intros Hs Hbc Hstep Hgrace Hg.
  assert (Hrun : runs n0 arts
            (fun (r : option ustr) ws =>
               r = None /\ ws = g :: repeat (sym_dot L) (dots (duration n0)))
            (nameWithDuration <~
               (g0 <~ slift (Ok g) ;;
                english (Fmt "{0} {1} {2}"
                           [FStr (step (pitch n0)); FStr (dur_type (duration n0));
                            FBraille g0]) >>>
                sret g0) ;;
             append nameWithDuration >>>
             sforM (fun _ : unit =>
                      append (sym_dot L) >>>
                      english (Fmt "Dot {0}" [FBraille (sym_dot L)]))
                   (repeat tt (dots (duration n0))) >>>
             sret None)).
  { eapply (runs_bind _ _ (fun x ws => x = g /\ ws = [])).
    - eapply (runs_bind _ _ (fun x ws => x = g /\ ws = []));
        [now apply runs_lift|].
      intros x ws [-> ->]. runs_next. now apply runs_ret.
    - intros x ws [-> ->]. runs_next.
      eapply (runs_bind _ _ (fun _ ws => ws = repeat (sym_dot L) (dots (duration n0))));
        [apply runs_dots|].
      intros _ ws ->. apply runs_ret. simpl. now rewrite app_nil_r. }
  destruct (Hrun s Hs) as (s' & r & ws & E & [-> ->] & Hs' & T).
  exists s'. split; [|split; [exact Hs'|exact T]].
  pose proof Hs as ((Hp & Hd & _) & _).
  unfold nameAndDuration, sbind at 1, theNote.
  rewrite Hp, Hd, Hstep, Hgrace.
  unfold scatch, sbind at 1, beam. rewrite Hbc. cbn [getitem].
  rewrite Hg. cbn [getitem]. rewrite E. reflexivity.
Qed.

(** The run of [noteToBraille] on a note without articulations and
    without beam or slur attributes. *)
Lemma plain_note_run (showOctave upperFirst : bool) (b : gmap string bool)
  (notesInStep : string -> option ustr) (g : ustr) :
  articulations n0 = [] ->
  pitchNameToNotes L (step (pitch n0)) = Some notesInStep ->
  isGrace (duration n0) = false ->
  notesInStep (dur_type (duration n0)) = Some g ->
  exists n' b',
    noteToBraille L n0 showOctave upperFirst b
    = (n', b',
       Ok (concat (accidentalSigns L n0 ++ octaveSigns L showOctave n0
                   ++ [g] ++ repeat (sym_dot L) (dots (duration n0))
                   ++ fingeringSigns L upperFirst n0 ++ tieSigns L n0)))
    /\ forall k, In k falseKeywords -> b' !! k = Some false.
Proof.
  intros Harts Hstep Hgrace Hg.
  unfold noteToBraille. rewrite noteToBraille_body_unfold.
  destruct (initBeamStatus_ready n0 b) as (s1 & E1 & Hs1 & T1).
  rewrite Harts in Hs1.
  assert (Hoff1 : beamStatus s1 !! "beamContinue" = Some false).
  { revert E1. unfold initBeamStatus, sbind, theNote, smodify, on_beamStatus,
      entry_state. cbn [fst snd music21Note beamStatus noteTrans].
    intros [= <-]. cbn [beamStatus music21Note attrs with_note_english].
    rewrite lookup_insert_eq. f_equal. apply (no_flags "beamContinue"). simpl. tauto. }
  unfold sbind at 1. rewrite E1. unfold afterKeywords.
  pose proof (prelude_stays_off L showOctave s1) as Hoff.
  pose proof (afterKeywords_stays_off L showOctave upperFirst s1) as Hend.
  unfold afterKeywords in Hend.
  destruct (runs_openingSlurs_plain _ s1 Hs1) as (s2 & [] & w2 & E2 & -> & Hs2 & T2).
  destruct (runs_tripletBlock_plain _ s2 Hs2) as (s3 & [] & w3 & E3 & -> & Hs3 & T3).
  destruct (articulationsBlock_runs L n0 _ s3 Hs3 ltac:(intros a []))
    as (s4 & E4 & Hs4 & T4).
  destruct (runs_accidentalBlock_exact _ s4 Hs4)
    as (s5 & [] & w5 & E5 & -> & Hs5 & T5).
  destruct (runs_octaveBlock_exact _ showOctave s5 Hs5)
    as (s6 & [] & w6 & E6 & -> & Hs6 & T6).
  assert (Hoff6 : beamStatus s6 !! "beamContinue" = Some false).
  { revert Hoff. unfold sbind. rewrite E2, E3, E4, E5, E6. simpl.
    intros Hoff. now apply Hoff. }
  destruct (nameAndDuration_plain _ notesInStep g s6 Hs6 Hoff6 Hstep Hgrace Hg)
    as (s7 & E7 & Hs7 & T7).
  destruct (runs_fingeringBlock_exact _ upperFirst s7 Hs7)
    as (s8 & [] & w8 & E8 & -> & Hs8 & T8).
  destruct (runs_closingSlurs_plain _ s8 Hs8) as (s9 & [] & w9 & E9 & -> & Hs9 & T9).
  destruct (runs_tieBlock_exact _ s9 Hs9) as (s10 & [] & w10 & E10 & -> & Hs10 & T10).
  revert Hend. unfold sbind. rewrite E2, E3, E4, E5, E6, E7, E8, E9, E10.
  cbn [theTrans sret fst snd]. intros Hend.
  exists (music21Note s10), (beamStatus s10). split.
  - rewrite T10, T9, T8, T7, T6, T5, T4, T3, T2, T1. simpl.
    rewrite !app_nil_r. do 3 f_equal. rewrite <- !app_assoc. reflexivity.
  - intros k Hk. destruct (string_dec k "beamContinue") as [->|Hne].
    + now apply Hend.
    + destruct Hs10 as (_ & _ & _ & Hf & _).
      rewrite (Hf k Hk Hne). f_equal. now apply no_flags.
Qed.

End PlainNote.

(** The format of a note without articulations and without beam or slur
    attributes: the accidental, the octave mark, the name with its
    length, the dots, the fingering and the tie, each when it applies. *)
Theorem plain_note_format (L : Lookup) (n : Note)
  (showOctave upperFirstInFingering : bool) (b : gmap string bool)
  (notesInStep : string -> option ustr) (g : ustr) :
  articulations n = [] ->
  (forall k, In k falseKeywords -> flag n k = false) ->
  pitchNameToNotes L (step (pitch n)) = Some notesInStep ->
  isGrace (duration n) = false ->
  notesInStep (dur_type (duration n)) = Some g ->
  (noteToBraille L n showOctave upperFirstInFingering b).2
  = Ok (concat (accidentalSigns L n ++ octaveSigns L showOctave n
                ++ [g] ++ repeat (sym_dot L) (dots (duration n))
                ++ fingeringSigns L upperFirstInFingering n ++ tieSigns L n)).
Proof.
  intros Harts Hflags Hstep Hgrace Hg.
  destruct (plain_note_run L n Hflags showOctave upperFirstInFingering b
              notesInStep g Harts Hstep Hgrace Hg) as (n' & b' & -> & _).
  reflexivity.
Qed.

Lemma plain_note_format_witness :
  (noteToBraille sampleLookup samplePlainNote true true ∅).2
  = Ok (cells [[1; 4; 6]; [5]; [1; 5; 6]]).
Proof.
  apply (plain_note_format sampleLookup samplePlainNote true true ∅
           (fun ty => assoc [("eighth", cells [[1; 5]]);
                             ("quarter", cells [[1; 5; 6]]);
                             ("half", cells [[1; 3; 5]]);
                             ("whole", cells [[1; 3; 5; 6]])]%string ty)
           (cells [[1; 5; 6]]));
    reflexivity.
Defined.

(** The format of a metronome mark: the note C of the referent's
    length without octave mark, its dots, the metronome sign and the
    number; the call leaves the seven beam and slur entries of
    [beamStatus] false. *)
Theorem metronome_format (L : Lookup) (m : MetronomeMark) (b : gmap string bool)
  (notesInStep : string -> option ustr) (g sign num : ustr) :
  pitchNameToNotes L "C" = Some notesInStep ->
  isGrace (referent m) = false ->
  notesInStep (dur_type (referent m)) = Some g ->
  symbols L "metronome" = Some sign ->
  numberToBraille L (number m) true = Ok num ->
  exists m' b',
    metronomeMarkToBraille L m b
    = (m', b',
       Ok (g ++ concat (repeat (sym_dot L) (dots (referent m))) ++ sign ++ num))
    /\ forall k, In k falseKeywords -> b' !! k = Some false.
Proof.
  intros Hstep Hgrace Hg Hsign Hnum.
  destruct (plain_note_run L (metroNote m) ltac:(intros k Hk; reflexivity)
              false true b notesInStep g eq_refl Hstep eq_refl Hg)
    as (n' & b' & E & Hb).
  unfold metronomeMarkToBraille. rewrite E, Hsign, Hnum.
  eexists _, b'. split; [|exact Hb].
  simpl. rewrite !app_nil_r. now rewrite <- app_assoc.
Qed.

Lemma metronome_format_witness :
  exists m' b',
    metronomeMarkToBraille headingLookup sampleMetronomeMark ∅
    = (m', b',
       Ok (cells [[1; 4; 5]]
           ++ concat (repeat (sym_dot headingLookup)
                             (dots (referent sampleMetronomeMark)))
           ++ cells [[2; 3; 5; 6]]
           ++ cells [[3; 4; 5; 6]; [1]; [1; 4]; [1; 5]]))
    /\ forall k, In k falseKeywords -> b' !! k = Some false.
Proof.
  apply (metronome_format headingLookup sampleMetronomeMark ∅
           (fun ty => assoc [("eighth", cells [[1; 4; 5]]);
                             ("quarter", cells [[1; 4; 5; 6]]);
                             ("half", cells [[1; 3; 4; 5]]);
                             ("whole", cells [[1; 3; 4; 5; 6]])]%string ty));
    reflexivity.
Defined.

(** ** Chords of no or one note *)

(** A chord without notes has no base pitch: [allPitches[0]] raises
    [IndexError], after the explanation log has been reset, and
    [beamStatus] is not touched. *)
Theorem chord_without_notes (L : Lookup) (H : Host) (c : Chord)
  (descending showOctave : bool) (b : gmap string bool) :
  notes c = [] ->
  chordToBraille L H c descending showOctave b
  = (with_chord_english c (Some []), b, Raise IndexError).
Proof.
  intros Hn. unfold chordToBraille, chordToBraille_body, sbind, smodify, sget.
  simpl. rewrite Hn. simpl. now destruct descending.
Qed.

Lemma chord_without_notes_witness :
  chordToBraille sampleLookup sampleHost (mkChord [] (mkDuration "whole"))
    true true ∅
  = (with_chord_english (mkChord [] (mkDuration "whole")) (Some []), ∅,
     Raise IndexError).
Proof. now apply (chord_without_notes sampleLookup sampleHost). Defined.

Lemma chord_of_one_note_run (L : Lookup) (H : Host) (c : Chord) (n : Note)
  (descending showOctave : bool) (b : gmap string bool) :
  notes c = [n] ->
  exists c',
    chordToBraille L H c descending showOctave b
    = (c',
       (noteToBraille L (initNote (pitch n) (chord_duration c)) showOctave true b).1.2,
       (noteToBraille L (initNote (pitch n) (chord_duration c)) showOctave true b).2).
Proof.
  intros Hn. unfold chordToBraille, chordToBraille_body.
  unfold sbind at 1, smodify. unfold sbind at 1, sget.
  cbn [music21Chord chord_beamStatus chordTrans with_chord_english notes
       chord_duration].
  rewrite Hn. cbn [map sorted sort_insert].
  assert (Hp : (if descending then rev [pitch n] else [pitch n]) = [pitch n])
    by now destruct descending.
  rewrite Hp.
  destruct (noteToBraille L _ showOctave true b) as [[n' b'] r].
  unfold sbind at 1, smodify. unfold sbind at 1, slift.
  destruct r as [u|e]; [|eexists; reflexivity].
  destruct (bool_decide (u = sym_basic_exception L)) eqn:Eu.
  - apply bool_decide_eq_true in Eu. subst u. eexists. reflexivity.
  - eexists. unfold sbind, chord_append, chord_english, smodify, sget, sret.
    simpl. now rewrite ?app_nil_r.
Qed.

(** A chord of one note is transcribed as that note: the same string or
    exception as [noteToBraille] gives for a fresh note of that pitch
    built from the quarter length of the chord, and the same
    [beamStatus]. *)
Theorem chord_of_one_note (L : Lookup) (H : Host) (c : Chord) (n : Note)
  (descending showOctave : bool) (b : gmap string bool) :
  notes c = [n] ->
  (chordToBraille L H c descending showOctave b).2
  = (noteToBraille L (initNote (pitch n) (chord_duration c)) showOctave true b).2
  /\ (chordToBraille L H c descending showOctave b).1.2
     = (noteToBraille L (initNote (pitch n) (chord_duration c)) showOctave true b).1.2.
Proof.
  intros Hn.
  destruct (chord_of_one_note_run L H c n descending showOctave b Hn) as [c' ->].
  split; reflexivity.
Qed.

Lemma chord_of_one_note_witness :
  (chordToBraille sampleLookup sampleHost
     (mkChord [mkPitch "C" 4 None] (mkDuration "half")) true true ∅).2
  = (noteToBraille sampleLookup
       (initNote (pitch (mkNote (mkPitch "C" 4 None) (mkDuration "half") []))
                 (chord_duration (mkChord [mkPitch "C" 4 None] (mkDuration "half"))))
       true true ∅).2
  /\ (chordToBraille sampleLookup sampleHost
        (mkChord [mkPitch "C" 4 None] (mkDuration "half")) true true ∅).1.2
     = (noteToBraille sampleLookup
          (initNote (pitch (mkNote (mkPitch "C" 4 None) (mkDuration "half") []))
                    (chord_duration (mkChord [mkPitch "C" 4 None] (mkDuration "half"))))
          true true ∅).1.2.
Proof.
  apply (chord_of_one_note sampleLookup sampleHost
           (mkChord [mkPitch "C" 4 None] (mkDuration "half"))
           (mkNote (mkPitch "C" 4 None) (mkDuration "half") [])).
  reflexivity.
Defined.

(** ** The attributes of a grouping *)

(** [transcribeNoteGrouping] answers every call and never lets an
    [AttributeError] out: a grouping that lacks an attribute the loop
    reads is transcribed again with the three defaults. *)
Theorem grouping_never_AttributeError (L : Lookup) (H : Host) (g : Grouping)
  (showLeadingOctave0 : bool) (b : gmap string bool) :
  exists g' b' r,
    transcribeNoteGrouping L H g showLeadingOctave0 b = Some (g', b', r)
    /\ r <> Raise AttributeError.
Proof.
  unfold transcribeNoteGrouping.
  cbn [transcribeNoteGrouping_rec].
  destruct (groupingLoop L H _) as [s r].
  destruct r as [u|[]];
    try (eexists _, _, _; split; [reflexivity|discriminate]).
  pose proof (groupingLoop_steady L H false
                {| brailleElementGrouping := with_defaults (brailleElementGrouping s);
                   group_beamStatus := group_beamStatus s; trans := [];
                   previousNote := None; previousElement := None;
                   showLeadingOctave := showLeadingOctave s |}) as Hno.
  destruct (groupingLoop L H _) as [s2 r2].
  assert (Hr2 : r2 <> Raise AttributeError).
  { apply Hno. repeat split; simpl; eauto. intros j [=]. }
  destruct r2 as [u|[]];
    try (eexists _, _, _; split; [reflexivity|discriminate]).
  contradiction.
Qed.

(** A grouping that has its three attributes is transcribed in one
    attempt and keeps them. *)
Theorem grouping_keeps_set_attributes (L : Lookup) (H : Host)
  (l : list Element) (descending show upperFirst showLeadingOctave0 : bool)
  (b : gmap string bool) :
  exists g' b' r,
    transcribeNoteGrouping_rec L H 1
      (mkGrouping l descending show upperFirst) showLeadingOctave0 b
    = Some (g', b', r)
    /\ transcribeNoteGrouping L H
         (mkGrouping l descending show upperFirst) showLeadingOctave0 b
       = Some (g', b', r)
    /\ descendingChords g' = Some descending
    /\ showClefSigns g' = Some show
    /\ upperFirstInNoteFingering g' = Some upperFirst.
Proof.
  unfold transcribeNoteGrouping.
  cbn [transcribeNoteGrouping_rec].
  set (s0 := {| brailleElementGrouping := mkGrouping l descending show upperFirst;
                group_beamStatus := b; trans := []; previousNote := None;
                previousElement := None;
                showLeadingOctave := showLeadingOctave0 |}).
  assert (Hok : attempt_ok show s0).
  { repeat split; simpl; eauto. intros j [=]. }
  pose proof (groupingLoop_steady L H show s0 Hok) as Hno.
  pose proof (groupingLoop_kept L H s0) as (_ & Kd & Ks & Ku).
  destruct (groupingLoop L H s0) as [s r]. simpl in Hno, Kd, Ks, Ku.
  destruct r as [u|[]]; try contradiction;
    (eexists _, _, _; split; [reflexivity|]; split; [reflexivity|];
     rewrite Kd, Ks, Ku; auto).
Qed.

(** ** Rests and barlines in a grouping *)

Lemma ownSign_Ok (L : Lookup) (e : Element) :
  exists u, ownSign L e = Ok u.
Proof.
  destruct e as [| r | | | | x | |]; simpl; eauto.
  - unfold restToBraille. destruct (rests L _); simpl; eauto.
  - unfold barlineToBraille. destruct (barlines L _); simpl; eauto.
Qed.

Lemma kept_alone (L : Lookup) (e e' : Element) :
  element_kept e e' -> standsAlone e = true ->
  standsAlone e' = true /\ ownSign L e' = ownSign L e.
Proof.
  destruct e as [| r | | | | x | |], e' as [| r' | | | | x' | |]; simpl;
    try contradiction; try discriminate; intros Hk _; (split; [reflexivity|]).
  - injection Hk as Hd. unfold restToBraille. rewrite Hd.
    now destruct (rests L _).
  - injection Hk as Hs. unfold barlineToBraille. rewrite Hs.
    now destruct (barlines L _).
Qed.

Lemma kept_all_alone (L : Lookup) (l l' : list Element) :
  Forall2 element_kept l l' -> Forall (fun e => standsAlone e = true) l ->
  Forall (fun e => standsAlone e = true) l'
  /\ map (ownSign L) l' = map (ownSign L) l.
Proof.
  induction 1 as [|e e' l l' He _ IH]; intros Hl; [split; [constructor|reflexivity]|].
  apply Forall_cons in Hl as [Ha Hl]. destruct (IH Hl) as [IH1 IH2].
  destruct (kept_alone L e e' He Ha) as [K1 K2].
  split; [now constructor|]. simpl. now rewrite K2, IH2.
Qed.

Lemma alone_disambiguate (L : Lookup) (e : Element) (s : GroupSt) :
  Forall (fun e => standsAlone e = true) (elements (brailleElementGrouping s)) ->
  (forall j, previousElement s = Some j ->
             (j < length (elements (brailleElementGrouping s)))%nat) ->
  disambiguate L e s = (s, Ok tt)
  \/ disambiguate L e s = (s, Raise AttributeError).
Proof.
  intros Hall Hprev. unfold disambiguate, sbind, sget.
  destruct (previousElement s) as [j|]; [|now left].
  destruct (lookup_lt_is_Some_2 _ _ (Hprev j eq_refl)) as [p Hp].
  rewrite Hp.
  pose proof (Forall_lookup_1 _ _ _ _ Hall Hp) as Ha. simpl in Ha.
  unfold attribute.
  destruct (showClefSigns (brailleElementGrouping s)) as [show|]; [|now right].
  left. destruct p; try discriminate Ha; simpl; now rewrite ?andb_false_r.
Qed.

Lemma alone_tail (L : Lookup) (i : nat) (e : Element) (s1 s' : GroupSt)
  (r : result unit) :
  Forall (fun e => standsAlone e = true) (elements (brailleElementGrouping s1)) ->
  (forall j, previousElement s1 = Some j ->
             (j < length (elements (brailleElementGrouping s1)))%nat) ->
  (disambiguate L e >>> set_previousElement i) s1 = (s', r) ->
  group_beamStatus s' = group_beamStatus s1 /\ trans s' = trans s1
  /\ (r = Raise AttributeError \/ (r = Ok tt /\ previousElement s' = Some i)).
Proof.
  intros Hall Hprev. unfold sbind.
  destruct (alone_disambiguate L e s1 Hall Hprev) as [-> | ->].
  - unfold set_previousElement, smodify. intros [= <- <-]. simpl. auto.
  - intros [= <- <-]. auto.
Qed.

Lemma alone_step (L : Lookup) (H : Host) (i : nat) (s s' : GroupSt)
  (e : Element) (r : result unit) :
  elements (brailleElementGrouping s) !! i = Some e ->
  standsAlone e = true ->
  Forall (fun e => standsAlone e = true) (elements (brailleElementGrouping s)) ->
  (forall j, previousElement s = Some j ->
             (j < length (elements (brailleElementGrouping s)))%nat) ->
  groupingStep L H i s = (s', r) ->
  group_beamStatus s' = group_beamStatus s
  /\ (r = Raise AttributeError
      \/ (r = Ok tt /\ previousElement s' = Some i
          /\ exists u, ownSign L e = Ok u /\ trans s' = trans s ++ [u])).
Proof.
  intros Hi Ha Hall Hprev.
  unfold groupingStep, sbind at 1, sget. rewrite Hi.
  unfold sbind at 1, encodeElement, sbind at 1, attribute.
  destruct (upperFirstInNoteFingering (brailleElementGrouping s)) as [uf|];
    [|intros [= <- <-]; split; [reflexivity|now left]].
  unfold sbind at 1, sget.
  destruct (ownSign_Ok L e) as [u Hu].
  destruct e as [| r0 | | | | x | |]; try discriminate Ha; simpl in Hu.
  - destruct (restToBraille L r0) as [r' res] eqn:Eenc. simpl in Hu. subst res.
    unfold sbind at 2 3, store, smodify, slift, trans_append. simpl.
    intros E. eapply alone_tail in E as (Eb & Et & Er).
    + simpl in Eb, Et. split; [exact Eb|].
      destruct Er as [->|[-> Ep]]; [now left|right].
      split; [reflexivity|]. split; [exact Ep|]. exists u. split; [simpl; now rewrite Eenc|exact Et].
    + simpl. now apply Forall_insert.
    + simpl. intros j Hj. rewrite length_insert. now apply Hprev.
  - destruct (barlineToBraille L x) as [x' res] eqn:Eenc. simpl in Hu. subst res.
    unfold sbind at 2 3, store, smodify, slift, trans_append. simpl.
    intros E. eapply alone_tail in E as (Eb & Et & Er).
    + simpl in Eb, Et. split; [exact Eb|].
      destruct Er as [->|[-> Ep]]; [now left|right].
      split; [reflexivity|]. split; [exact Ep|]. exists u. split; [simpl; now rewrite Eenc|exact Et].
    + simpl. now apply Forall_insert.
    + simpl. intros j Hj. rewrite length_insert. now apply Hprev.
Qed.

Lemma alone_loop (L : Lookup) (H : Host) (k : nat) :
  forall (i : nat) (s s' : GroupSt) (r : result unit),
    Forall (fun e => standsAlone e = true) (elements (brailleElementGrouping s)) ->
    (forall j, previousElement s = Some j ->
               (j < length (elements (brailleElementGrouping s)))%nat) ->
    (i + k <= length (elements (brailleElementGrouping s)))%nat ->
    sforM (groupingStep L H) (seq i k) s = (s', r) ->
    group_beamStatus s' = group_beamStatus s
    /\ Forall2 element_kept (elements (brailleElementGrouping s))
                            (elements (brailleElementGrouping s'))
    /\ (r = Raise AttributeError
        \/ (r = Ok tt
            /\ exists us,
                 map Ok us
                 = take k (drop i (map (ownSign L)
                                       (elements (brailleElementGrouping s))))
                 /\ trans s' = trans s ++ us)).
Proof.
  induction k as [|k IH]; intros i s s' r Hall Hprev Hlen; simpl.
  - intros [= <- <-]. split; [reflexivity|]. split; [apply elements_kept_refl|].
    right. split; [reflexivity|]. exists []. split; [reflexivity|].
    now rewrite app_nil_r.
  - unfold sbind at 1.
    destruct (groupingStep L H i s) as [s1 r1] eqn:E1.
    destruct (lookup_lt_is_Some_2 (elements (brailleElementGrouping s)) i
                ltac:(lia)) as [e Hi].
    pose proof (Forall_lookup_1 _ _ _ _ Hall Hi) as Ha. simpl in Ha.
    destruct (alone_step L H i s s1 e r1 Hi Ha Hall Hprev E1) as [Eb Er].
    pose proof (groupingStep_kept L H i s) as K. rewrite E1 in K.
    destruct K as (K & _). simpl in K.
    destruct (kept_all_alone L _ _ K Hall) as [Hall1 Hsigns].
    destruct Er as [->|(-> & Ep & u & Hu & Et)].
    { intros [= <- <-]. split; [exact Eb|]. split; [exact K|now left]. }
    intros E2.
    pose proof (Forall2_length _ _ _ K) as Hl.
    apply IH in E2 as (Eb2 & K2 & Er2); [|exact Hall1| |lia].
    2:{ rewrite Ep. intros j [= <-]. lia. }
    split; [now rewrite Eb2|].
    split; [eapply elements_kept_trans; eassumption|].
    destruct Er2 as [->|(-> & us & Hus & Et2)]; [now left|right].
    split; [reflexivity|]. exists (u :: us). split.
    + rewrite (drop_S _ (Ok u) i).
      * simpl. f_equal. rewrite Hus. now rewrite Hsigns.
      * rewrite list_lookup_fmap, Hi. simpl. now rewrite Hu.
    + rewrite Et2, Et. now rewrite <- app_assoc.
Qed.

Lemma alone_attempt (L : Lookup) (H : Host) (g : Grouping)
  (showLeadingOctave0 : bool) (b : gmap string bool) (s : GroupSt)
  (r : result ustr) :
  Forall (fun e => standsAlone e = true) (elements g) ->
  groupingLoop L H
    {| brailleElementGrouping := g; group_beamStatus := b; trans := [];
       previousNote := None; previousElement := None;
       showLeadingOctave := showLeadingOctave0 |} = (s, r) ->
  group_beamStatus s = b
  /\ Forall2 element_kept (elements g) (elements (brailleElementGrouping s))
  /\ (r = Raise AttributeError
      \/ exists us, r = Ok (concat us)
                    /\ map Ok us = map (ownSign L) (elements g)).
Proof.
  intros Hall. unfold groupingLoop, sbind at 1, sget.
  cbn [brailleElementGrouping]. unfold sbind at 1.
  destruct (sforM _ _ _) as [s1 r1] eqn:E1.
  apply alone_loop in E1 as (Eb & K & Er); simpl; try assumption;
    [|discriminate|lia].
  simpl in Eb, K, Er.
  destruct Er as [->|(-> & us & Hus & Et)].
  - intros [= <- <-]. auto.
  - unfold sbind, sget, sret. intros [= <- <-].
    split; [exact Eb|]. split; [exact K|]. right. exists us.
    rewrite Et. split; [reflexivity|].
    etransitivity; [exact Hus|]. rewrite drop_0. apply take_ge.
    now rewrite length_map.
Qed.

(** A grouping of rests and barlines is transcribed element by
    element: the result is what [restToBraille] and [barlineToBraille]
    return for its elements, in their order, whether or not the grouping
    has its attributes, and [beamStatus] is left as it was. *)
Theorem rests_and_barlines (L : Lookup) (H : Host) (g : Grouping)
  (showLeadingOctave0 : bool) (b : gmap string bool) :
  Forall (fun e => standsAlone e = true) (elements g) ->
  exists g' us,
    transcribeNoteGrouping L H g showLeadingOctave0 b
    = Some (g', b, Ok (concat us))
    /\ Forall2 (fun e u => ownSign L e = Ok u) (elements g) us.
Proof.
  intros Hall.
  assert (Hsigns : forall (l : list Element) us,
             map Ok us = map (ownSign L) l ->
             Forall2 (fun e u => ownSign L e = Ok u) l us).
  { induction l as [|e l IH]; intros [|u us]; simpl; try discriminate.
    - constructor.
    - intros [= Hu Hus]. constructor; [now rewrite Hu|now apply IH]. }
  unfold transcribeNoteGrouping. cbn [transcribeNoteGrouping_rec].
  destruct (groupingLoop L H _) as [s r] eqn:E.
  apply alone_attempt in E as (Eb & K & Er); [|exact Hall].
  destruct Er as [->|(us & -> & Hus)].
  2:{ exists (brailleElementGrouping s), us. rewrite Eb. auto. }
  destruct (kept_all_alone L _ _ K Hall) as [Hall1 Hs1].
  pose proof (groupingLoop_steady L H false
                {| brailleElementGrouping := with_defaults (brailleElementGrouping s);
                   group_beamStatus := group_beamStatus s; trans := [];
                   previousNote := None; previousElement := None;
                   showLeadingOctave := showLeadingOctave s |}) as Hno.
  destruct (groupingLoop L H _) as [s2 r2] eqn:E2.
  apply alone_attempt in E2 as (Eb2 & K2 & Er2); [|exact Hall1].
  destruct Er2 as [->|(us & -> & Hus)].
  { exfalso. apply Hno; [|reflexivity]. repeat split; simpl; eauto. intros j [=]. }
  exists (brailleElementGrouping s2), us. rewrite Eb2, Eb.
  split; [reflexivity|]. apply Hsigns. simpl in Hus.
  etransitivity; [exact Hus|exact Hs1].
Qed.

Lemma rests_and_barlines_witness :
  exists g' us,
    transcribeNoteGrouping sampleLookup sampleHost
      {| elements := [ERest (mkRest "quarter");
                      EBarline {| style := "final"; barline_brailleEnglish := None |}];
         descendingChords := None; showClefSigns := None;
         upperFirstInNoteFingering := None |} true ∅
    = Some (g', ∅, Ok (concat us))
    /\ Forall2 (fun e u => ownSign sampleLookup e = Ok u)
         [ERest (mkRest "quarter");
          EBarline {| style := "final"; barline_brailleEnglish := None |}] us.
Proof.
  apply (rests_and_barlines sampleLookup sampleHost
           {| elements := [ERest (mkRest "quarter");
                           EBarline {| style := "final";
                                       barline_brailleEnglish := None |}];
              descendingChords := None; showClefSigns := None;
              upperFirstInNoteFingering := None |} true ∅).
  repeat constructor.
Defined.

(** ** Two notes in a grouping *)

Lemma showOctaveWithNote_pitch (H : Host) (p p' n : Note) :
  pitch p' = pitch p ->
  showOctaveWithNote H (Some p') n = showOctaveWithNote H (Some p) n.
Proof. intros E. unfold showOctaveWithNote. now rewrite E. Qed.

(** One turn of the loop on a note that follows nothing or a note. *)
Lemma note_step (L : Lookup) (H : Host) (i : nat) (s : GroupSt) (n n' : Note)
  (upperFirst show : bool) (b' : gmap string bool) (u : ustr) :
  elements (brailleElementGrouping s) !! i = Some (ENote n) ->
  upperFirstInNoteFingering (brailleElementGrouping s) = Some upperFirst ->
  showClefSigns (brailleElementGrouping s) = Some show ->
  (previousElement s = None
   \/ exists j p, previousElement s = Some j /\ j <> i
                  /\ elements (brailleElementGrouping s) !! j = Some (ENote p)) ->
  noteToBraille L n (doShowOctave H s n) upperFirst (group_beamStatus s)
  = (n', b', Ok u) ->
  groupingStep L H i s
  = ({| brailleElementGrouping :=
          with_elements (brailleElementGrouping s)
            (<[i := ENote n']> (elements (brailleElementGrouping s)));
        group_beamStatus := b';
        trans := trans s ++ [u];
        previousNote := Some n';
        previousElement := Some i;
        showLeadingOctave := showLeadingOctave s |}, Ok tt).
Proof.
  intros Hi Huf Hshow Hprev En.
  unfold groupingStep, sbind at 1, sget. rewrite Hi.
  unfold sbind at 1, encodeElement, sbind at 1, attribute. rewrite Huf.
  unfold sbind at 1, sget. rewrite En.
  unfold store, trans_append, set_previousNote, set_previousElement, smodify,
    slift, disambiguate, sget, sbind.
  cbn [fst snd brailleElementGrouping group_beamStatus trans previousNote
       previousElement showLeadingOctave with_elements elements].
  destruct Hprev as [->|(j & p & -> & Hne & Hj)].
  - reflexivity.
  - rewrite list_lookup_insert_ne by congruence. rewrite Hj.
    unfold attribute.
    cbn [brailleElementGrouping with_elements showClefSigns]. rewrite Hshow.
    cbn [isClef isDynamic isTextExpression andb orb].
    rewrite andb_false_r. reflexivity.
Qed.

(** Two notes in a grouping: the first is written with the octave mark
    that [showLeadingOctave] asks for, the second with the one that
    [showOctaveWithNote] decides from the first, and the result is the
    two strings of [noteToBraille] one after the other, with
    [beamStatus] handed from the first call to the second. *)
Theorem two_notes (L : Lookup) (H : Host) (n1 n2 n1' n2' : Note)
  (descending show upperFirst showLeadingOctave0 : bool)
  (b b1 b2 : gmap string bool) (u1 u2 : ustr) :
  noteToBraille L n1 showLeadingOctave0 upperFirst b = (n1', b1, Ok u1) ->
  noteToBraille L n2 (showOctaveWithNote H (Some n1) n2) upperFirst b1
  = (n2', b2, Ok u2) ->
  transcribeNoteGrouping L H
    (mkGrouping [ENote n1; ENote n2] descending show upperFirst)
    showLeadingOctave0 b
  = Some (mkGrouping [ENote n1'; ENote n2'] descending show upperFirst, b2,
          Ok (u1 ++ u2)).
Proof.
  intros E1 E2.
  pose proof (noteToBraille_frame L n1 showLeadingOctave0 upperFirst b) as [Hm _].
  rewrite E1 in Hm. destruct Hm as (Hp & _). simpl in Hp.
  unfold transcribeNoteGrouping, transcribeNoteGrouping_rec, groupingLoop.
  unfold sbind at 1, sget.
  cbn [brailleElementGrouping elements mkGrouping length seq sforM].
  unfold sbind at 1. unfold sbind at 1.
  rewrite (note_step L H 0 _ n1 n1' upperFirst show b1 u1);
    [|reflexivity|reflexivity|reflexivity|now left|exact E1].
  unfold sbind at 1.
  rewrite (note_step L H 1 _ n2 n2' upperFirst show b2 u2);
    [|reflexivity|reflexivity|reflexivity| |].
  - unfold sbind, sget, sret. simpl. now rewrite app_nil_r.
  - right. exists 0%nat, n1'. repeat split. discriminate.
  - unfold doShowOctave. cbn [previousNote].
    rewrite (showOctaveWithNote_pitch H n1 n1' n2 Hp). exact E2.
Qed.

Lemma two_notes_witness :
  transcribeNoteGrouping sampleLookup sampleHost
    (mkGrouping [ENote (mkNote (mkPitch "C" 4 None) (mkDuration "quarter") []);
                 ENote (mkNote (mkPitch "D" 4 None) (mkDuration "quarter") [])]
                true false true)
    true ∅
  = Some (mkGrouping [ENote sampleFirst.1.1; ENote sampleSecond.1.1]
                     true false true,
          sampleSecond.1.2,
          Ok (cells [[5]; [1; 4; 5; 6]] ++ cells [[1; 5; 6]])).
Proof.
  apply (two_notes sampleLookup sampleHost _ _ sampleFirst.1.1 sampleSecond.1.1
           true false true true ∅ sampleFirst.1.2 sampleSecond.1.2).
  all: reflexivity.
Defined.

(** ** The octave mark after a word sign *)

Lemma same_octave_state_refl (s : GroupSt) : same_octave_state s s.
Proof. split; reflexivity. Qed.

Lemma same_octave_state_trans (s1 s2 s3 : GroupSt) :
  same_octave_state s1 s2 -> same_octave_state s2 s3 -> same_octave_state s1 s3.
Proof. intros [A B] [C D]. split; congruence. Qed.

Ltac octave_keeps_step :=
  match goal with
  | |- keeps _ (sret _) => apply (keeps_ret _ same_octave_state_refl)
  | |- keeps _ (slift _) => apply (keeps_lift _ same_octave_state_refl)
  | |- keeps _ (sbind sget _) => apply keeps_get; intros ?
  | |- keeps _ (sbind _ _) =>
      apply (keeps_bind _ same_octave_state_trans); [|intros ?]
  | |- keeps _ (smodify _) => apply keeps_modify; intros ?; split; reflexivity
  | |- keeps _ (attribute _) =>
      let s := fresh "s" in
      intros s; unfold attribute; destruct (_ (brailleElementGrouping s));
      apply same_octave_state_refl
  | |- keeps _ (let '(_, _) := ?x in _) => destruct x
  | |- keeps _ (if ?b then _ else _) => destruct b
  | |- keeps _ (match ?x with _ => _ end) => destruct x
  end.

Lemma disambiguate_same_octave (L : Lookup) (e : Element) :
  keeps same_octave_state (disambiguate L e).
Proof.
  unfold disambiguate, dot3, store, set_trans.
  repeat octave_keeps_step.
Qed.

Lemma encodeElement_resets (L : Lookup) (H : Host) (show : bool) (i : nat)
  (e : Element) (s s1 : GroupSt) :
  showClefSigns (brailleElementGrouping s) = Some show ->
  triggers show e = true ->
  encodeElement L H i e s = (s1, Ok tt) ->
  previousNote s1 = None /\ showLeadingOctave s1 = true.
Proof.
  intros Hshow Htrig. unfold encodeElement, sbind at 1, attribute.
  destruct (upperFirstInNoteFingering (brailleElementGrouping s)) as [uf|];
    [|discriminate].
  unfold sbind at 1, sget.
  destruct e as [| | | d | x | | c |]; try discriminate Htrig.
  - destruct (dynamicToBraille L d true) as [d' [u|ex]];
      unfold sbind, store, smodify, slift, trans_append, resetOctave; simpl;
      [|discriminate].
    intros [= <-]. auto.
  - destruct (textExpressionToBraille L x true) as [x' [u|ex]];
      unfold sbind, store, smodify, slift, trans_append, resetOctave; simpl;
      [|discriminate].
    intros [= <-]. auto.
  - unfold sbind at 1, attribute. rewrite Hshow.
    assert (show = true) as -> by (now destruct show).
    destruct (clefToBraille L c false) as [c' [u|ex]];
      unfold sbind, store, smodify, slift, trans_append, resetOctave; simpl;
      [|discriminate].
    intros [= <-]. auto.
Qed.

(** After a dynamic, a text expression or a clef that is shown, the
    next note or chord of the grouping carries its octave mark, however
    close it is to the note before. *)
Theorem octave_after_word_sign (L : Lookup) (H : Host) (show : bool) (i : nat)
  (e : Element) (s s' : GroupSt) (currentNote : Note) :
  elements (brailleElementGrouping s) !! i = Some e ->
  showClefSigns (brailleElementGrouping s) = Some show ->
  triggers show e = true ->
  groupingStep L H i s = (s', Ok tt) ->
  doShowOctave H s' currentNote = true.
Proof.
  intros Hi Hshow Htrig. unfold groupingStep, sbind at 1, sget. rewrite Hi.
  unfold sbind at 1.
  destruct (encodeElement L H i e s) as [s1 [[]|ex]] eqn:E1; [|discriminate].
  apply (encodeElement_resets L H show) in E1 as [Hp Hl]; try assumption.
  unfold sbind at 1.
  pose proof (disambiguate_same_octave L e s1) as [Kp Kl].
  destruct (disambiguate L e s1) as [s2 [[]|ex]]; [|discriminate].
  simpl in Kp, Kl.
  unfold set_previousElement, smodify. intros [= <-].
  unfold doShowOctave. simpl. rewrite Kp, Hp. now rewrite Kl.
Qed.

Lemma octave_after_word_sign_witness :
  doShowOctave sampleHost
    (groupingStep sampleLookup sampleHost 0 sampleOpeningSt).1
    (mkNote (mkPitch "C" 4 None) (mkDuration "quarter") [])
  = true.
Proof.
  apply (octave_after_word_sign sampleLookup sampleHost false 0
           (EDynamic (mkDynamic "f")) sampleOpeningSt);
    [reflexivity|reflexivity|reflexivity|].
  vm_compute. reflexivity.
Defined.

(** ** Signatures *)

Lemma keySigToBraille_returns (L : Lookup) (k : KeySignature)
  (outgoing : option KeySignature) :
  exists u, (keySigToBraille L k outgoing).2 = Ok u.
Proof.
  unfold keySigToBraille.
  destruct (keySignatures L (sharps k)) as [g|]; [|simpl; eauto].
  destruct outgoing as [o|]; [|simpl; eauto].
  destruct (_ || _).
  - destruct (naturals L _); simpl; eauto.
  - destruct (_ <=? _); [|simpl; eauto].
    destruct (naturals L _); simpl; eauto.
Qed.

Lemma numberLoop_only (L : Lookup) (ds : list (option Z)) (e : exn) :
  numberLoop L ds = Raise e -> e = BrailleBasicException \/ e = KeyError.
Proof.
  induction ds as [|[d|] ds IH]; simpl; [discriminate| |intros [= <-]; now left].
  destruct (numbers L d); simpl; [|intros [= <-]; now right].
  destruct (numberLoop L ds); simpl; [discriminate|].
  intros [= <-]. now apply IH.
Qed.

Lemma numberToBraille_only (L : Lookup) (n : Z) (withNumberSign : bool) (e : exn) :
  numberToBraille L n withNumberSign = Raise e ->
  e = BrailleBasicException \/ e = KeyError.
Proof.
  unfold numberToBraille.
  destruct (numberLoop L (str_of_int n)) eqn:E; simpl; [discriminate|].
  intros [= <-]. eapply numberLoop_only. exact E.
Qed.

Lemma timeSigToBraille_returns (L : Lookup) (t : TimeSignature) :
  exists u, (timeSigToBraille L t).2 = Ok u.
Proof.
  unfold timeSigToBraille.
  destruct (ts_symbol t ≫= _) as [[s g]|]; [simpl; eauto|].
  destruct (numberToBraille L (numerator t) true) as [n|e] eqn:En; simpl.
  - destruct (beatUnits L (denominator t)); simpl; eauto.
  - destruct (numberToBraille_only _ _ _ _ En) as [-> | ->]; simpl; eauto.
Qed.

Lemma transcribeSignatures_cases (L : Lookup) (k : option KeySignature)
  (t : option TimeSignature) (outgoing : option KeySignature) :
  match (transcribeSignatures L k t outgoing).2 with
  | Ok _ =>
      is_Some t
      \/ exists key, k = Some key /\ (sharps key <> 0 \/ is_Some outgoing)
  | Raise e =>
      e = BrailleBasicException
      /\ transcribeSignatures L k t outgoing = (k, t, Raise e)
      /\ t = None
      /\ (k = None
          \/ exists key, k = Some key /\ sharps key = 0 /\ outgoing = None)
  end.
Proof.
  unfold transcribeSignatures.
  destruct t as [ts|].
  - rewrite bool_decide_eq_false_2 by discriminate. simpl.
    destruct k as [key|].
    + destruct (keySigToBraille_returns L key outgoing) as [u Hu].
      destruct (keySigToBraille L key outgoing) as [k' r]. simpl in Hu. subst r.
      destruct (timeSigToBraille_returns L ts) as [v Hv].
      destruct (timeSigToBraille L ts) as [t' r]. simpl in Hv. subst r.
      simpl. left. eauto.
    + destruct (timeSigToBraille_returns L ts) as [v Hv].
      destruct (timeSigToBraille L ts) as [t' r]. simpl in Hv. subst r.
      simpl. left. eauto.
  - rewrite bool_decide_eq_true_2 by reflexivity. simpl.
    destruct k as [key|]; [|simpl; auto 6].
    destruct (sharps key =? 0) eqn:E0; simpl.
    + apply Z.eqb_eq in E0. destruct outgoing as [o|].
      * rewrite bool_decide_eq_false_2 by discriminate.
        destruct (keySigToBraille_returns L key (Some o)) as [u Hu].
        destruct (keySigToBraille L key (Some o)) as [k' r]. simpl in Hu. subst r.
        simpl. right. exists key. split; [reflexivity|]. right. eauto.
      * rewrite bool_decide_eq_true_2 by reflexivity. simpl.
        repeat split. right. exists key. auto.
    + apply Z.eqb_neq in E0.
      destruct (keySigToBraille_returns L key outgoing) as [u Hu].
      destruct (keySigToBraille L key outgoing) as [k' r]. simpl in Hu. subst r.
      simpl. right. exists key. auto.
Qed.

(** [transcribeSignatures] raises [BrailleBasicException], before it
    touches its arguments, exactly when there is no time signature and
    the key signature is absent or has no sharps or flats and nothing to
    cancel; in every other case it returns a string. *)
Theorem transcribeSignatures_raises (L : Lookup) (k : option KeySignature)
  (t : option TimeSignature) (outgoing : option KeySignature) :
  match (transcribeSignatures L k t outgoing).2 with
  | Ok _ =>
      is_Some t
      \/ exists key, k = Some key /\ (sharps key <> 0 \/ is_Some outgoing)
  | Raise e =>
      e = BrailleBasicException
      /\ transcribeSignatures L k t outgoing = (k, t, Raise e)
      /\ t = None
      /\ (k = None
          \/ exists key, k = Some key /\ sharps key = 0 /\ outgoing = None)
  end.
Proof. apply transcribeSignatures_cases. Qed.

(** ** Tempo text and instrument names *)

Lemma wordLetter_only (L : Lookup) (c : ascii) (e : exn) :
  wordLetter L false c = Raise e -> e = BrailleBasicException.
Proof.
  unfold wordLetter, try_except.
  destruct (isupper c).
  - destruct (alphabet L (lower c)); simpl; [discriminate|]. congruence.
  - destruct (alphabet L c); simpl; [discriminate|]. congruence.
Qed.

Lemma wordToBraille_only (L : Lookup) (w : string) (e : exn) :
  wordToBraille L w false = Raise e -> e = BrailleBasicException.
Proof.
  unfold wordToBraille.
  destruct (wordLoop L false w) as [ts|e'] eqn:E; simpl; [discriminate|].
  intros [= <-]. revert e' E.
  induction w as [|c w IH]; cbn [wordLoop]; [discriminate|].
  intros e'. destruct (wordLetter L false c) eqn:Ec; simpl.
  - destruct (wordLoop L false w) eqn:Ew; simpl; intros E'; [discriminate E'|].
    injection E' as <-. now apply IH.
  - intros [= <-]. eapply wordLetter_only. exact Ec.
Qed.

Lemma phraseLoop_only (L : Lookup) (maxLineLength : Z) (allWords : list string) :
  forall (phraseTrans : list ustr) (e : exn),
    phraseLoop L maxLineLength phraseTrans allWords = Raise e ->
    e = BrailleBasicException.
Proof.
  induction allWords as [|w ws IH]; intros phraseTrans e; simpl; [discriminate|].
  destruct (wordToBraille L w false) as [bw|e'] eqn:Ew; simpl.
  - destruct (_ <=? _); apply IH.
  - intros [= <-]. eapply wordToBraille_only. exact Ew.
Qed.

Lemma braillePhrase_only (L : Lookup) (maxLineLength : Z) (p : string) (e : exn) :
  braillePhrase L maxLineLength p = Raise e -> e = BrailleBasicException.
Proof.
  unfold braillePhrase.
  destruct (phraseLoop L maxLineLength [] (split_ws p)) eqn:E; simpl;
    [discriminate|].
  intros [= <-]. eapply phraseLoop_only. exact E.
Qed.

Lemma textLoop_returns (L : Lookup) (comma : ustr) (ps : list ustr) :
  alphabet L "," = Some comma ->
  textLoop L ps = Ok (flat_map (fun p => [p; comma; [10%N]]) ps).
Proof.
  intros Hc. induction ps as [|p ps IH]; simpl; [reflexivity|].
  now rewrite Hc, IH.
Qed.

(** With a comma and a period in the alphabet, [tempoTextToBraille]
    returns a string for every text: the exception sign when a word has
    a character outside the alphabet, else a string that ends in the
    literary period. *)
Theorem tempoText_ends_in_period (L : Lookup) (x : TempoText)
  (maxLineLength : Z) (comma period : ustr) :
  alphabet L "," = Some comma ->
  alphabet L "." = Some period ->
  exists u,
    (tempoTextToBraille L x maxLineLength).2 = Ok u
    /\ (u = sym_basic_exception L \/ exists body, u = body ++ period).
Proof.
  intros Hc Hp. unfold tempoTextToBraille.
  destruct (mapM (braillePhrase L maxLineLength) (split "," (text x)))
    as [ps|e] eqn:E; simpl.
  - rewrite (textLoop_returns L comma ps Hc), Hp. simpl.
    eexists. split; [reflexivity|]. right. rewrite concat_app. simpl.
    rewrite app_nil_r. eauto.
  - assert (e = BrailleBasicException) as ->.
    { eapply mapM_only; [|exact E]. intros p e'. apply braillePhrase_only. }
    simpl. eauto.
Qed.

Lemma tempoText_ends_in_period_witness :
  exists u,
    (tempoTextToBraille sampleLookup
       {| text := "Lento assai, cantante e tranquillo";
          tempo_brailleEnglish := None |} 40).2 = Ok u
    /\ (u = sym_basic_exception sampleLookup
        \/ exists body, u = body ++ cells [[2; 5; 6]]).
Proof.
  apply (tempoText_ends_in_period sampleLookup _ 40 (cells [[2]])); reflexivity.
Defined.


Lemma phraseLoop_fits (L : Lookup) (maxLineLength : Z) (ws : list string) :
  forall (acc bws : list ustr),
    mapM (fun w => wordToBraille L w false) ws = Ok bws ->
    (forall i bw, bws !! i = Some bw ->
       Z.of_nat (length acc) + 2 * Z.of_nat i + Z.of_nat (length bw) + 1
       <= maxLineLength - 6) ->
    phraseLoop L maxLineLength acc ws
    = Ok (acc ++ flat_map (fun b => [b; sym_space L]) bws).
Proof.
  induction ws as [|w ws IH]; intros acc bws; simpl.
  - intros [= <-] _. simpl. now rewrite app_nil_r.
  - destruct (wordToBraille L w false) as [bw|]; simpl; [|discriminate].
    destruct (mapM _ ws) as [bws'|] eqn:E; simpl; [|discriminate].
    intros [= <-] Hfit.
    pose proof (Hfit 0%nat bw eq_refl) as H0.
    rewrite (proj2 (Z.leb_le _ _)) by lia.
    rewrite (IH _ bws' eq_refl).
    + simpl. now rewrite <- app_assoc.
    + intros i b Hb. specialize (Hfit (S i) b Hb).
      rewrite length_app. simpl. lia.
Qed.

Lemma concat_spaced (sep : ustr) (bws : list ustr) :
  concat (removelast (flat_map (fun b => [b; sep]) bws)) = join sep bws.
Proof.
  induction bws as [|b bws IH]; [reflexivity|].
  destruct bws as [|b2 bws].
  - simpl. now rewrite app_nil_r.
  - change (flat_map (fun b => [b; sep]) (b :: b2 :: bws))
      with (b :: sep :: flat_map (fun b => [b; sep]) (b2 :: bws)).
    change (join sep (b :: b2 :: bws)) with (b ++ sep ++ join sep (b2 :: bws)).
    rewrite <- IH. reflexivity.
Qed.

(** A tempo text without comma whose words all fit on the line is
    transcribed word by word, with a space between two words and the
    period at the end; up to the period it is what [instrumentToBraille]
    gives for the same words. *)
Theorem tempoText_one_line (L : Lookup) (x : TempoText) (maxLineLength : Z)
  (bws : list ustr) (comma period : ustr) :
  split "," (text x) = [text x] ->
  mapM (fun w => wordToBraille L w false) (split_ws (text x)) = Ok bws ->
  (forall i bw, bws !! i = Some bw ->
     2 * Z.of_nat i + Z.of_nat (length bw) + 1 <= maxLineLength - 6) ->
  alphabet L "," = Some comma ->
  alphabet L "." = Some period ->
  (tempoTextToBraille L x maxLineLength).2
  = Ok (join (sym_space L) bws ++ period)
  /\ (instrumentToBraille L
        {| bestName := Some (text x); instrument_brailleEnglish := None |}).2
     = Ok (join (sym_space L) bws).
Proof.
  intros Hsplit Hws Hfit Hc Hp. split.
  - unfold tempoTextToBraille. rewrite Hsplit. simpl.
    unfold braillePhrase.
    rewrite (phraseLoop_fits L maxLineLength _ [] bws Hws)
      by (intros i bw Hb; specialize (Hfit i bw Hb); simpl; lia).
    simpl. rewrite Hc, Hp. simpl. rewrite concat_spaced.
    now rewrite app_nil_r.
  - unfold instrumentToBraille. simpl. now rewrite Hws.
Qed.

Lemma tempoText_one_line_witness :
  (tempoTextToBraille sampleLookup
     {| text := "Andante molto"; tempo_brailleEnglish := None |} 40).2
  = Ok (join (sym_space sampleLookup)
          [cells [[6]; [1]; [1; 3; 4; 5]; [1; 4; 5]; [1]; [1; 3; 4; 5];
                  [2; 3; 4; 5]; [1; 5]];
           cells [[1; 3; 4]; [1; 3; 5]; [1; 2; 3]; [2; 3; 4; 5]; [1; 3; 5]]]
        ++ cells [[2; 5; 6]])
  /\ (instrumentToBraille sampleLookup
        {| bestName := Some "Andante molto"; instrument_brailleEnglish := None |}).2
     = Ok (join (sym_space sampleLookup)
             [cells [[6]; [1]; [1; 3; 4; 5]; [1; 4; 5]; [1]; [1; 3; 4; 5];
                     [2; 3; 4; 5]; [1; 5]];
              cells [[1; 3; 4]; [1; 3; 5]; [1; 2; 3]; [2; 3; 4; 5]; [1; 3; 5]]]).
Proof.
  apply (tempoText_one_line sampleLookup
           {| text := "Andante molto"; tempo_brailleEnglish := None |} 40
           _ (cells [[2]]) (cells [[2; 5; 6]]));
    try reflexivity.
  intros [|[|i]] bw; simpl; intros [= <-]; simpl; lia.
Defined.

(** A first word too long for the line is put after a line feed all
    the same. *)
Theorem tempoText_long_word (L : Lookup) (x : TempoText) (maxLineLength : Z)
  (w : string) (bw comma period : ustr) :
  split "," (text x) = [text x] ->
  split_ws (text x) = [w] ->
  wordToBraille L w false = Ok bw ->
  maxLineLength - 6 < Z.of_nat (length bw) + 1 ->
  alphabet L "," = Some comma ->
  alphabet L "." = Some period ->
  (tempoTextToBraille L x maxLineLength).2 = Ok ([10%N] ++ bw ++ period).
Proof.
  intros Hsplit Hws Hw Hlong Hc Hp.
  unfold tempoTextToBraille. rewrite Hsplit. simpl.
  unfold braillePhrase. rewrite Hws. simpl. rewrite Hw. simpl.
  rewrite (proj2 (Z.leb_gt _ _)) by lia. simpl.
  rewrite Hc, Hp. simpl. now rewrite !app_nil_r.
Qed.

Lemma tempoText_long_word_witness :
  (tempoTextToBraille sampleLookup
     {| text := "Largo"; tempo_brailleEnglish := None |} 10).2
  = Ok ([10%N] ++ cells [[6]; [1; 2; 3]; [1]; [1; 2; 3; 5]; [1; 2; 4; 5]; [1; 3; 5]]
        ++ cells [[2; 5; 6]]).
Proof.
  apply (tempoText_long_word sampleLookup
           {| text := "Largo"; tempo_brailleEnglish := None |} 10 "Largo"
           _ (cells [[2]]) (cells [[2; 5; 6]]));
    reflexivity.
Defined.

(** [instrumentToBraille] returns a string for every instrument that
    has a name, and raises [AttributeError] for one that has none. *)
Theorem instrumentToBraille_outcome (L : Lookup) (i : Instrument) :
  match bestName i with
  | Some _ => exists u, (instrumentToBraille L i).2 = Ok u
  | None => (instrumentToBraille L i).2 = Raise AttributeError
  end.
Proof.
  unfold instrumentToBraille. destruct (bestName i) as [name|]; [|reflexivity].
  destruct (mapM _ (split_ws name)) as [trans|e] eqn:E; simpl; [eauto|].
  assert (e = BrailleBasicException) as ->.
  { eapply mapM_only; [|exact E]. intros w e'. apply wordToBraille_only. }
  simpl. eauto.
Qed.

(** ** The picture of a line of cells *)

Lemma symbolTrans_pair (f e : N) (dots : string) :
  In dots ["00"; "01"; "10"; "11"]%string ->
  exists a b, symbolTrans [f] [e] dots = Ok [a; b]
              /\ (a = f \/ a = e) /\ (b = f \/ b = e).
Proof.
  intros [<-|[<-|[<-|[<-|[]]]]]; vm_compute; eauto 10.
Qed.

Lemma join_pairs_length (l : list ustr) :
  Forall (fun s => length s = 2%nat) l -> l <> [] ->
  (length (join [32; 32]%N l) + 2 = 4 * length l)%nat.
Proof.
  induction 1 as [|s l Hs Hl IH]; intros Hne; [now contradiction Hne|].
  destruct l as [|s2 l].
  - simpl. lia.
  - change (join [32; 32]%N (s :: s2 :: l))
      with (s ++ [32; 32]%N ++ join [32; 32]%N (s2 :: l)).
    rewrite !length_app. specialize (IH ltac:(discriminate)).
    simpl in *. lia.
Qed.

Lemma join_pairs_symbols (f e : N) (l : list ustr) :
  Forall (Forall (fun c => c = f \/ c = e)) l ->
  Forall (fun c => c = f \/ c = e \/ c = 32%N) (join [32; 32]%N l).
Proof.
  induction 1 as [|s l Hs Hl IH]; [constructor|].
  assert (Hs' : Forall (fun c => c = f \/ c = e \/ c = 32%N) s).
  { eapply Forall_impl; [exact Hs|]. intros c Hc. simpl in *. tauto. }
  destruct l as [|s2 l]; [exact Hs'|].
  change (join [32; 32]%N (s :: s2 :: l))
    with (s ++ [32; 32]%N ++ join [32; 32]%N (s2 :: l)).
  apply Forall_app. split; [exact Hs'|].
  constructor; [tauto|]. constructor; [tauto|]. exact IH.
Qed.

Lemma symbolsCells (L : Lookup) (f e : N) (line : ustr) :
  Forall (fun c => exists d14 d25 d36,
            binary_dots L c = Some (d14, d25, d36)
            /\ In d14 ["00"; "01"; "10"; "11"]%string
            /\ In d25 ["00"; "01"; "10"; "11"]%string
            /\ In d36 ["00"; "01"; "10"; "11"]%string) line ->
  exists cols,
    mapM (symbolsCell L [f] [e]) line = Ok cols
    /\ length cols = length line
    /\ Forall (fun col =>
         (length col.1.1 = 2 /\ length col.1.2 = 2 /\ length col.2 = 2)%nat
         /\ Forall (fun c => c = f \/ c = e) col.1.1
         /\ Forall (fun c => c = f \/ c = e) col.1.2
         /\ Forall (fun c => c = f \/ c = e) col.2) cols.
Proof.
  induction 1 as [|c line (d14 & d25 & d36 & Hc & H14 & H25 & H36) _
                    (cols & Hm & Hl & Hcols)].
  - exists []. repeat split; constructor.
  - destruct (symbolTrans_pair f e d14 H14) as (a1 & b1 & E1 & Ha1 & Hb1).
    destruct (symbolTrans_pair f e d25 H25) as (a2 & b2 & E2 & Ha2 & Hb2).
    destruct (symbolTrans_pair f e d36 H36) as (a3 & b3 & E3 & Ha3 & Hb3).
    exists (([a1; b1], [a2; b2], [a3; b3]) :: cols).
    simpl. unfold symbolsCell at 1. rewrite Hc. simpl.
    rewrite E1, E2, E3. simpl. rewrite Hm. simpl.
    split; [reflexivity|]. split; [now rewrite Hl|].
    constructor; [|exact Hcols]. simpl.
    repeat split; repeat (first [assumption | constructor]).
Qed.

(** The picture of one line of [n] cells, drawn with two one-character
    symbols, has three rows of [4 n - 2] characters, which are the two
    symbols and spaces. *)
Theorem symbols_picture (L : Lookup) (line : ustr) (filled empty : N) :
  line <> [] -> plain line ->
  Forall (fun c => exists d14 d25 d36,
            binary_dots L c = Some (d14, d25, d36)
            /\ In d14 ["00"; "01"; "10"; "11"]%string
            /\ In d25 ["00"; "01"; "10"; "11"]%string
            /\ In d36 ["00"; "01"; "10"; "11"]%string) line ->
  exists r1 r2 r3,
    brailleUnicodeToSymbols L line [filled] [empty]
    = Ok (r1 ++ [10%N] ++ r2 ++ [10%N] ++ r3)
    /\ (length r1 + 2 = 4 * length line)%nat
    /\ (length r2 + 2 = 4 * length line)%nat
    /\ (length r3 + 2 = 4 * length line)%nat
    /\ Forall (fun c => c = filled \/ c = empty \/ c = 32%N) (r1 ++ r2 ++ r3).
Proof.
  intros Hne Hplain Hcells.
  destruct (symbolsCells L filled empty line Hcells) as (cols & Hm & Hl & Hcols).
  assert (Hcne : cols <> []) by (destruct cols, line; simpl in *; congruence).
  unfold brailleUnicodeToSymbols.
  assert (Hlines : splitlines line = [line]).
  { apply (splitlines_join [line]). split; [now constructor|].
    simpl. congruence. }
  rewrite Hlines. simpl. unfold symbolsLine at 1. rewrite Hm. simpl.
  eexists _, _, _. split; [reflexivity|].
  rewrite <- Hl.
  assert (H1 : Forall (fun s => length s = 2%nat) (map (fun c => c.1.1) cols)).
  { apply Forall_map. eapply Forall_impl; [exact Hcols|].
    intros c Hc. simpl in *. tauto. }
  assert (H2 : Forall (fun s => length s = 2%nat) (map (fun c => c.1.2) cols)).
  { apply Forall_map. eapply Forall_impl; [exact Hcols|].
    intros c Hc. simpl in *. tauto. }
  assert (H3 : Forall (fun s => length s = 2%nat) (map (fun c => c.2) cols)).
  { apply Forall_map. eapply Forall_impl; [exact Hcols|].
    intros c Hc. simpl in *. tauto. }
  pose proof (join_pairs_length _ H1) as L1.
  pose proof (join_pairs_length _ H2) as L2.
  pose proof (join_pairs_length _ H3) as L3.
  rewrite length_map in L1, L2, L3.
  assert (Hm1 : map (fun c : ustr * ustr * ustr => c.1.1) cols <> [])
    by (destruct cols; simpl; congruence).
  assert (Hm2 : map (fun c : ustr * ustr * ustr => c.1.2) cols <> [])
    by (destruct cols; simpl; congruence).
  assert (Hm3 : map (fun c : ustr * ustr * ustr => c.2) cols <> [])
    by (destruct cols; simpl; congruence).
  split; [now apply L1|]. split; [now apply L2|]. split; [now apply L3|].
  rewrite !Forall_app. repeat split; apply join_pairs_symbols;
    apply Forall_map; (eapply Forall_impl; [exact Hcols|]);
    intros c Hc; simpl in *; tauto.
Qed.

Lemma symbols_picture_witness :
  exists r1 r2 r3,
    brailleUnicodeToSymbols sampleLookup (cells [[3; 4; 5]; [1]]) [111%N] [183%N]
    = Ok (r1 ++ [10%N] ++ r2 ++ [10%N] ++ r3)
    /\ (length r1 + 2 = 4 * length (cells [[3; 4; 5]; [1]]%Z))%nat
    /\ (length r2 + 2 = 4 * length (cells [[3; 4; 5]; [1]]%Z))%nat
    /\ (length r3 + 2 = 4 * length (cells [[3; 4; 5]; [1]]%Z))%nat
    /\ Forall (fun c => c = 111%N \/ c = 183%N \/ c = 32%N) (r1 ++ r2 ++ r3).
Proof.
  apply (symbols_picture sampleLookup (cells [[3; 4; 5]; [1]]) 111%N 183%N).
  - discriminate.
  - repeat constructor.
  - repeat constructor; vm_compute; eexists _, _, _; (split; [reflexivity|]);
      tauto.
Defined.

(** ** Headings *)

Lemma center_centered_line (c : N) (width : Z) (s : ustr) :
  exists r, center s width [c] = Some r /\ centered_line c width s r.
Proof.
  unfold center. destruct (_ <=? 0) eqn:Em.
  - apply Z.leb_le in Em. exists s. split; [reflexivity|].
    exists 0%nat, 0%nat. simpl. rewrite app_nil_r. repeat split; lia.
  - apply Z.leb_gt in Em. eexists. split; [reflexivity|].
    set (marg := width - Z.of_nat (length s)) in *.
    set (left := marg / 2 + (if Z.odd marg && Z.odd width then 1 else 0)).
    assert (Hhalf : marg = 2 * (marg / 2) + (if Z.odd marg then 1 else 0)).
    { rewrite (Z.div_mod marg 2) at 1 by lia. rewrite Zmod_odd. reflexivity. }
    assert (Hl : 0 <= left <= marg).
    { subst left. destruct (Z.odd marg), (Z.odd width); simpl; lia. }
    exists (Z.to_nat left), (Z.to_nat (marg - left)).
    split; [reflexivity|].
    split; [|split].
    + subst left. destruct (Z.odd marg), (Z.odd width); simpl; lia.
    + subst left. destruct (Z.odd marg), (Z.odd width); simpl; lia.
    + rewrite !length_app, !repeat_length. lia.
Qed.

Lemma centerAll_centered_line (c : N) (width : Z) (ls : list ustr) :
  exists rs, centerAll ls width [c] = Some rs
             /\ List.Forall2 (centered_line c width) ls rs.
Proof.
  induction ls as [|l ls (rs & E & F)]; cbn [centerAll].
  - exists []. split; [reflexivity|constructor].
  - destruct (center_centered_line c width l) as (r & Er & Hr).
    rewrite Er, E. exists (r :: rs). split; [reflexivity|].
    now constructor.
Qed.

Lemma layout_centered_line (L : Lookup) (c : N) (headingTrans : list ustr)
  (fits : bool) (sep : ustr) (maxLineLength : Z) :
  sym_space L = [c] ->
  exists ls,
    layout L headingTrans fits sep maxLineLength = Returns (join [10%N] ls)
    /\ List.Forall2 (centered_line c maxLineLength)
         (if fits then [join sep headingTrans] else headingTrans) ls.
Proof.
  intros Hc. unfold layout. rewrite Hc. destruct fits.
  - destruct (center_centered_line c maxLineLength (join sep headingTrans))
      as (r & Er & Hr).
    rewrite Er. exists [r]. split; [reflexivity|].
    constructor; [exact Hr|constructor].
  - destruct (centerAll_centered_line c maxLineLength headingTrans)
      as (rs & E & F).
    rewrite E. exists rs. split; [reflexivity|exact F].
Qed.

(** With a tempo text, a metronome mark and signatures that are all
    transcribed, [transcribeHeading] returns centered lines: one line
    with the tempo text, the metronome mark and the signatures, a space
    between them, when that leaves three blank cells on each side; else
    the lines of the tempo text and a last line with the metronome mark,
    a space and the signatures.  Each line has its content between two
    runs of spaces that differ by one at most and is [maxLineLength]
    long unless the content is longer. *)
Theorem heading_lines_centered (L : Lookup) (c : N)
  (k : option KeySignature) (t : option TimeSignature)
  (x : TempoText) (m : MetronomeMark)
  (maxLineLength : Z) (b : gmap string bool)
  (tempoTextTrans metronomeMarkTrans keyAndTimeSig : ustr) :
  sym_space L = [c] ->
  (tempoTextToBraille L x 40).2 = Ok tempoTextTrans ->
  (metronomeMarkToBraille L m b).2 = Ok metronomeMarkTrans ->
  (transcribeSignatures L k t None).2 = Ok keyAndTimeSig ->
  exists ls,
    (transcribeHeading L k t (Some x) (Some m) maxLineLength b).2
    = Returns (join [10%N] ls)
    /\ List.Forall2 (centered_line c maxLineLength)
         (if Z.of_nat (length tempoTextTrans)
             + Z.of_nat (length (metronomeMarkTrans ++ [c] ++ keyAndTimeSig))
             + 1 <=? maxLineLength - 6
          then [join [c] (splitlines tempoTextTrans
                          ++ [metronomeMarkTrans ++ [c] ++ keyAndTimeSig])]
          else splitlines tempoTextTrans
               ++ [metronomeMarkTrans ++ [c] ++ keyAndTimeSig])
         ls.
Proof.
  intros Hc Ht Hm Hs. unfold transcribeHeading.
  rewrite (bool_decide_eq_false_2 (Some x = None)) by discriminate.
  rewrite (bool_decide_eq_false_2 (Some m = None)) by discriminate.
  rewrite !andb_false_r. cbn [andb].
  destruct (tempoTextToBraille L x 40) as [x' rt]. simpl in Ht. subst rt.
  cbn [rbind].
  destruct (metronomeMarkToBraille L m b) as [[m' b'] rm]. simpl in Hm. subst rm.
  cbn [rbind].
  destruct (transcribeSignatures L k t None) as [[k' t'] rs]. simpl in Hs.
  subst rs. cbn [snd].
  replace (concat ([metronomeMarkTrans] ++ [sym_space L] ++ [keyAndTimeSig]))
    with (metronomeMarkTrans ++ [c] ++ keyAndTimeSig)
    by (rewrite Hc; simpl; now rewrite app_nil_r).
  match goal with
  | |- context [layout L ?h ?f (sym_space L) maxLineLength] =>
      destruct (layout_centered_line L c h f (sym_space L) maxLineLength Hc)
        as (ls & E & F)
  end.
  exists ls. split; [exact E|]. rewrite Hc in F. exact F.
Qed.

Lemma heading_lines_centered_witness :
  exists ls,
    (transcribeHeading headingLookup
       (Some {| sharps := 5; key_brailleEnglish := None |})
       (Some {| ts_symbol := None; numerator := 3; denominator := 8;
                time_brailleEnglish := None |})
       (Some {| text := "Allegretto"; tempo_brailleEnglish := None |})
       (Some sampleMetronomeMark) 40 ∅).2
    = Returns (join [10%N] ls)
    /\ List.Forall2 (centered_line 10240 40)
         [cells [[6]; [1]; [1; 2; 3]; [1; 2; 3]; [1; 5]; [1; 2; 4; 5];
                 [1; 2; 3; 5]; [1; 5]; [2; 3; 4; 5]; [2; 3; 4; 5]; [1; 3; 5];
                 [2; 5; 6]; []; [1; 4; 5]; [2; 3; 5; 6]; [3; 4; 5; 6]; [1];
                 [1; 4]; [1; 5]; []; [3; 4; 5; 6]; [1; 5]; [1; 4; 6];
                 [3; 4; 5; 6]; [1; 4]; [2; 3; 6]]]
         ls.
Proof.
  apply (heading_lines_centered headingLookup 10240
           (Some {| sharps := 5; key_brailleEnglish := None |})
           (Some {| ts_symbol := None; numerator := 3; denominator := 8;
                    time_brailleEnglish := None |})
           {| text := "Allegretto"; tempo_brailleEnglish := None |}
           sampleMetronomeMark 40 ∅
           (cells [[6]; [1]; [1; 2; 3]; [1; 2; 3]; [1; 5]; [1; 2; 4; 5];
                   [1; 2; 3; 5]; [1; 5]; [2; 3; 4; 5]; [2; 3; 4; 5]; [1; 3; 5];
                   [2; 5; 6]])
           (cells [[1; 4; 5]; [2; 3; 5; 6]; [3; 4; 5; 6]; [1]; [1; 4]; [1; 5]])
           (cells [[3; 4; 5; 6]; [1; 5]; [1; 4; 6]; [3; 4; 5; 6]; [1; 4];
                   [2; 3; 6]])); reflexivity.
Defined.

Lemma tempoText_not_basic (L : Lookup) (x : TempoText) (maxLineLength : Z) :
  (tempoTextToBraille L x maxLineLength).2 <> Raise BrailleBasicException.
Proof.
  unfold tempoTextToBraille.
  match goal with |- (match ?r with _ => _ end).2 <> _ => destruct r as [u|[]] end;
    discriminate.
Qed.

Lemma metronome_not_basic (L : Lookup) (m : MetronomeMark) (b : gmap string bool) :
  (metronomeMarkToBraille L m b).2 <> Raise BrailleBasicException.
Proof.
  unfold metronomeMarkToBraille.
  destruct (noteToBraille L (metroNote m) false true b) as [[n' b'] [u|[]]];
    try discriminate.
  destruct (symbols L "metronome"); [|discriminate].
  destruct (numberToBraille L (number m) true) as [v|[]]; discriminate.
Qed.

Lemma layout_not_raises (L : Lookup) (headingTrans : list ustr) (fits : bool)
  (sep : ustr) (maxLineLength : Z) (e : exn) :
  layout L headingTrans fits sep maxLineLength <> Raises e.
Proof.
  unfold layout, centered. destruct fits.
  - destruct (center _ _ _); discriminate.
  - destruct (centerAll _ _ _); discriminate.
Qed.

(** [transcribeHeading] raises [BrailleBasicException] exactly when it
    has nothing to write: no tempo text, no metronome mark, no time
    signature, and a key signature that is absent or has neither sharps
    nor flats. *)
Theorem heading_raises_basic (L : Lookup)
  (k : option KeySignature) (t : option TimeSignature)
  (x : option TempoText) (m : option MetronomeMark)
  (maxLineLength : Z) (b : gmap string bool) :
  (transcribeHeading L k t x m maxLineLength b).2 = Raises BrailleBasicException
  <-> x = None /\ m = None /\ t = None
      /\ (k = None \/ exists key, k = Some key /\ sharps key = 0).
Proof.
  pose proof (transcribeSignatures_cases L k t None) as Hsig.
  unfold transcribeHeading.
  destruct x as [x|].
  - (* a tempo text *)
    rewrite (bool_decide_eq_false_2 (Some x = None)) by discriminate.
    rewrite !andb_false_r. simpl.
    pose proof (tempoText_not_basic L x 40) as Hx.
    destruct (tempoTextToBraille L x 40) as [x' [u|e]]; simpl in *.
    2:{ split; [intros [= ->]; contradiction|intros [[=] _]]. }
    split; [|intros [[=] _]].
    destruct (_ && _ && _); simpl.
    { intros Hl. now apply layout_not_raises in Hl. }
    pose proof (fun mm => metronome_not_basic L mm b) as Hm.
    destruct m as [mm|].
    + specialize (Hm mm).
      destruct (metronomeMarkToBraille L mm b) as [[m' b'] [v|e]]; simpl in *.
      2:{ intros [= ->]. contradiction. }
      destruct (transcribeSignatures L k t None) as [[k' t'] [w|[]]]; simpl;
        try (intros Hl; now apply layout_not_raises in Hl);
        destruct Hsig as [[=] _].
    + destruct (transcribeSignatures L k t None) as [[k' t'] [w|[]]]; simpl;
        try (intros Hl; now apply layout_not_raises in Hl);
        destruct Hsig as [[=] _].
  - (* no tempo text *)
    rewrite (bool_decide_eq_true_2 (@None TempoText = None)) by reflexivity.
    destruct m as [mm|].
    + rewrite (bool_decide_eq_false_2 (Some mm = None)) by discriminate.
      rewrite !andb_false_r. simpl.
      split; [|intros (_ & [=] & _)].
      pose proof (metronome_not_basic L mm b) as Hm.
      destruct (metronomeMarkToBraille L mm b) as [[m' b'] [v|e]]; simpl in *.
      2:{ intros [= ->]. contradiction. }
      destruct (transcribeSignatures L k t None) as [[k' t'] [w|[]]]; simpl;
        try (unfold centered; destruct (center _ _ _); discriminate);
        destruct Hsig as [[=] _].
    + rewrite (bool_decide_eq_true_2 (@None MetronomeMark = None)) by reflexivity.
      rewrite !andb_true_r.
      destruct (bool_decide (k = None) && bool_decide (t = None)) eqn:Ekt; simpl.
      { apply andb_true_iff in Ekt as [Ek Et].
        apply bool_decide_eq_true in Ek, Et. subst. split; auto 6. }
      destruct (transcribeSignatures L k t None) as [[k' t'] [w|e]]; simpl in *.
      * split.
        -- unfold centered. destruct (center _ _ _); discriminate.
        -- intros (_ & _ & -> & Hk). exfalso.
           destruct Hsig as [[? [=]]|(key & -> & [Hs|[? [=]]])].
           destruct Hk as [[=]|(key' & [= <-] & Hz)]. contradiction.
      * destruct Hsig as (-> & _ & -> & Hk). simpl.
        split; [intros _|reflexivity]. repeat split.
        destruct Hk as [->|(key & -> & Hz & _)]; [now left|right; eauto].
Qed.
